(** * OCR request orchestration engine: a shallow embedding of background.js

    The development follows the background script of the extension: the
    phone-number formatter, the text post-processor, the dual-field parser,
    the size guard and compression ladder, the image optimizer, the result
    cache, the retry loop of the remote call and the request queue.

    JavaScript strings are sequences of UTF-16 code units; they are modelled
    as lists of code units ([N]).  The regular expressions of the source carry
    no [u] flag, so every character class below works on single code units,
    as the source does. *)

From Stdlib Require Import Ascii String.
From Stdlib Require Import List NArith ZArith QArith Qabs Qround Lia Bool.
Import Corelib.Init.Datatypes.
Import ListNotations.
Local Close Scope Q_scope.
Local Open Scope nat_scope.
Local Open Scope list_scope.

Set Implicit Arguments.

(** ** Strings *)

Module JS.

Definition jsstring := list N.

(** Code units of a UTF-8 encoded literal (literals are written as Rocq
    strings, which hold the UTF-8 bytes of the source text). *)
Definition code_units (cp : N) : list N :=
  if (cp <? 65536)%N then [cp]
  else [(55296 + (cp - 65536) / 1024)%N; (56320 + (cp - 65536) mod 1024)%N].

Definition utf8_step (st : N * nat * list N) (b : N) : N * nat * list N :=
  let '(acc, need, out) := st in
  match need with
  | O =>
      if (b <? 128)%N then (0%N, O, b :: out)
      else if (b <? 224)%N then ((b - 192)%N, 1, out)
      else if (b <? 240)%N then ((b - 224)%N, 2, out)
      else ((b - 240)%N, 3, out)
  | S n =>
      let acc' := (acc * 64 + (b - 128))%N in
      match n with
      | O => (0%N, O, rev (code_units acc') ++ out)
      | _ => (acc', n, out)
      end
  end.

Definition js (s : string) : jsstring :=
  let bytes := map N_of_ascii (list_ascii_of_string s) in
  let '(_, _, out) := fold_left utf8_step bytes (0%N, O, []) in
  rev out.
Arguments js s%_string.

Definition isEmpty (s : jsstring) : bool :=
  match s with [] => true | _ => false end.

Fixpoint streqb (s t : jsstring) : bool :=
  match s, t with
  | [], [] => true
  | a :: s', b :: t' => (a =? b)%N && streqb s' t'
  | _, _ => false
  end.

(** [s.startsWith(p)] *)
Fixpoint startsWith (p s : jsstring) : bool :=
  match p, s with
  | [], _ => true
  | a :: p', b :: s' => (a =? b)%N && startsWith p' s'
  | _ :: _, [] => false
  end.

(** [s.includes(p)] *)
Fixpoint includes (p s : jsstring) : bool :=
  startsWith p s ||
  match s with
  | [] => false
  | _ :: s' => includes p s'
  end.

(** [\d] without the [u] flag: the ten ASCII digits. *)
Definition isDigit (c : N) : bool := (48 <=? c)%N && (c <=? 57)%N.

(** White space and line terminators: what [\s] matches and [trim] strips. *)
Definition isSpace (c : N) : bool :=
  ((9 <=? c) && (c <=? 13) || (c =? 32) || (c =? 160) || (c =? 5760)
   || (8192 <=? c) && (c <=? 8202) || (c =? 8232) || (c =? 8233)
   || (c =? 8239) || (c =? 8287) || (c =? 12288) || (c =? 65279))%N.

(** Line terminators: what [.] refuses to match. *)
Definition isLineTerminator (c : N) : bool :=
  ((c =? 10) || (c =? 13) || (c =? 8232) || (c =? 8233))%N.

Fixpoint dropWhile (f : N -> bool) (s : jsstring) : jsstring :=
  match s with
  | [] => []
  | c :: s' => if f c then dropWhile f s' else s
  end.

Fixpoint takeWhile (f : N -> bool) (s : jsstring) : jsstring :=
  match s with
  | [] => []
  | c :: s' => if f c then c :: takeWhile f s' else []
  end.

Definition trimStart (s : jsstring) : jsstring := dropWhile isSpace s.
Definition trimEnd (s : jsstring) : jsstring := rev (dropWhile isSpace (rev s)).
Definition trim (s : jsstring) : jsstring := trimEnd (trimStart s).

(** [s.split(/[,、]/)] and [s.split(',')] : split at every code unit accepted
    by [sep]; the result is never empty. *)
Fixpoint split (sep : N -> bool) (s : jsstring) : list jsstring :=
  match s with
  | [] => [[]]
  | c :: s' =>
      if sep c then [] :: split sep s'
      else match split sep s' with
           | [] => [[c]]
           | h :: t => (c :: h) :: t
           end
  end.

(** [items.join(sep)] *)
Fixpoint join (sep : jsstring) (items : list jsstring) : jsstring :=
  match items with
  | [] => []
  | [x] => x
  | x :: rest => x ++ sep ++ join sep rest
  end.

End JS.

Import JS.

(** Code units that the source names in literals. *)
Definition HYPHEN : N := 45.        (* '-' *)
Definition PLUS : N := 43.          (* '+' *)
Definition COMMA : N := 44.         (* ',' *)
Definition COLON : N := 58.         (* ':' *)
Definition LF : N := 10.            (* '\n' *)
Definition IDEO_COMMA : N := 12289. (* '、' U+3001 *)
Definition IDEO_SPACE : N := 12288. (* '　' U+3000 *)

(** ** formatPhoneNumber *)

(** Matches one run [\d{lo,hi}] that must be followed by a non-digit or the
    end: the greedy quantifier can only succeed on the whole digit run. *)
Definition digitRun (lo hi : nat) (s : jsstring) : option jsstring :=
  let run := takeWhile isDigit s in
  if (lo <=? length run)%nat && (length run <=? hi)%nat
  then Some (dropWhile isDigit s) else None.

(** [/^\d{2,4}-\d{2,4}-\d{4}$/.test(s)] *)
Definition testHyphenated (s : jsstring) : bool :=
  match digitRun 2 4 s with
  | Some (c1 :: r1) =>
      (c1 =? HYPHEN)%N &&
      match digitRun 2 4 r1 with
      | Some (c2 :: r2) =>
          (c2 =? HYPHEN)%N &&
          match digitRun 4 4 r2 with
          | Some [] => true
          | _ => false
          end
      | _ => false
      end
  | _ => false
  end.

(** [/^\d{10,11}$/.test(s)] *)
Definition testTenEleven (s : jsstring) : bool :=
  forallb isDigit s && (10 <=? length s)%nat && (length s <=? 11)%nat.

(** [/^0[4-9]/.test(s)] *)
Definition testZeroFourToNine (s : jsstring) : bool :=
  match s with
  | c0 :: c1 :: _ => (c0 =? 48)%N && (52 <=? c1)%N && (c1 <=? 57)%N
  | _ => false
  end.

(** [s.replace(/^(\d{i})(\d{j})(\d{k})$/, '$1-$2-$3')]: the pattern is anchored
    at both ends, so it rewrites a string of exactly [i+j+k] digits and leaves
    every other string as it is. *)
Definition replace3 (i j k : nat) (s : jsstring) : jsstring :=
  if forallb isDigit s && (length s =? i + j + k)%nat
  then firstn i s ++ HYPHEN :: firstn j (skipn i s) ++ HYPHEN :: skipn (i + j) s
  else s.

(** [s.replace(/^(\d{4})(\d{4})$/, '$1-$2')] *)
Definition replace2 (i j : nat) (s : jsstring) : jsstring :=
  if forallb isDigit s && (length s =? i + j)%nat
  then firstn i s ++ HYPHEN :: skipn i s
  else s.

(** The tail of [formatPhoneNumber], from its comment "Format based on
    length" to the end; [digits] holds digits only at that point. *)
Definition formatByLength (digits : jsstring) : jsstring :=
  if testTenEleven digits then
    if (length digits =? 10)%nat then
      if startsWith (js "03") digits then replace3 2 4 4 digits
      else if startsWith (js "06") digits then replace3 2 4 4 digits
      else if startsWith (js "04") digits then replace3 2 4 4 digits
      else if startsWith (js "052") digits || startsWith (js "072") digits
              || startsWith (js "075") digits || startsWith (js "078") digits
              || startsWith (js "082") digits || startsWith (js "092") digits
      then replace3 3 3 4 digits
      else if startsWith (js "0120") digits then replace3 4 2 4 digits
      else if startsWith (js "0") digits then
        if testZeroFourToNine digits then replace3 3 3 4 digits
        else replace3 2 4 4 digits
      else replace3 3 3 4 digits
    else if (length digits =? 11)%nat then
      if startsWith (js "0") digits then replace3 3 4 4 digits
      else replace3 3 4 4 digits
    else digits
  else if (length digits =? 8)%nat then replace2 4 4 digits
  else if (length digits =? 9)%nat then replace3 3 3 3 digits
  else digits.

Definition formatPhoneNumber (digits : jsstring) : jsstring :=
  if isEmpty digits then [] else
  let digitsOnly := filter isDigit digits in
  if (11 <? length digitsOnly)%nat then [] else
  if includes [HYPHEN] digits && testHyphenated digits then digits else
  let digits :=
    if includes [HYPHEN] digits
    then filter (fun c => negb (c =? HYPHEN)%N) digits else digits in
  let digits := filter isDigit digits in
  formatByLength digits.

(** ** formatPhoneNumber: formatting by digit count *)

(** The hyphenated forms the formatter produces, written on the digit string. *)
Definition hyphenate3 (i j : nat) (d : jsstring) : jsstring :=
  firstn i d ++ HYPHEN :: firstn j (skipn i d) ++ HYPHEN :: skipn (i + j) d.

Definition hyphenate2 (i : nat) (d : jsstring) : jsstring :=
  firstn i d ++ HYPHEN :: skipn i d.

(** The guard of the pass-through in [formatPhoneNumber]. *)
Definition inShape (s : jsstring) : bool :=
  includes [HYPHEN] s && testHyphenated s.

(** The prefixes that the 10-digit branch names. *)
Definition tablePrefixes : list jsstring :=
  [js "03"; js "06"; js "04"; js "052"; js "072"; js "075"; js "078";
   js "082"; js "092"; js "0120"].

(** The forms the length-based formatting produces. *)
Inductive PhoneForm (d : jsstring) : jsstring -> Prop :=
| form_plain : length d <= 7 \/ 12 <= length d -> PhoneForm d d
| form_8 : length d = 8 -> PhoneForm d (hyphenate2 4 d)
| form_9 : length d = 9 -> PhoneForm d (hyphenate3 3 3 d)
| form_10 i j :
    length d = 10 -> i + j = 6 -> 2 <= i <= 4 -> PhoneForm d (hyphenate3 i j d)
| form_11 : length d = 11 -> PhoneForm d (hyphenate3 3 4 d).

(** ** The text post-processor *)

(** First code unit of a literal. *)
Definition cu (s : string) : N := hd 0%N (js s).
Arguments cu s%_string.

Inductive FieldType : Type :=
| PhoneNumber   (* 'phone-number' *)
| PayeeName     (* 'payee-name' *)
| Phonetic      (* 'phonetic' *)
| Clipboard     (* 'clipboard' *)
| Freeform.     (* any other value: no case of the switch applies *)

(** [/[Ａ-Ｚａ-ｚ０-９]/] *)
Definition isFullwidthAlnum (c : N) : bool :=
  Eval vm_compute in
    (fun c => ((cu "Ａ" <=? c) && (c <=? cu "Ｚ")
               || (cu "ａ" <=? c) && (c <=? cu "ｚ")
               || (cu "０" <=? c) && (c <=? cu "９"))%N) c.

(** [String.fromCharCode(s.charCodeAt(0) - 0xFEE0)] *)
Definition toHalfwidth (s : jsstring) : jsstring :=
  map (fun c => if isFullwidthAlnum c then (c - 65248)%N else c) s.

(** [/[・．]/g]: the middle dot becomes the half-width middle dot, the
    full-width full stop becomes '.'. *)
Definition MIDDLE_DOT : N := Eval vm_compute in cu "・".
Definition HALF_MIDDLE_DOT : N := Eval vm_compute in cu "･".
Definition FULL_STOP : N := Eval vm_compute in cu "．".
Definition ASCII_STOP : N := Eval vm_compute in cu ".".

Definition convertSymbols (s : jsstring) : jsstring :=
  map (fun c => if (c =? MIDDLE_DOT)%N then HALF_MIDDLE_DOT
                else if (c =? FULL_STOP)%N then ASCII_STOP
                else c) s.

Definition kv (p : string * string) : N * N := (cu (fst p), cu (snd p)).

Definition halfToFullKatakanaMap : list (N * N) :=
  Eval vm_compute in map kv
  [("ｱ","ア"); ("ｲ","イ"); ("ｳ","ウ"); ("ｴ","エ"); ("ｵ","オ");
   ("ｶ","カ"); ("ｷ","キ"); ("ｸ","ク"); ("ｹ","ケ"); ("ｺ","コ");
   ("ｻ","サ"); ("ｼ","シ"); ("ｽ","ス"); ("ｾ","セ"); ("ｿ","ソ");
   ("ﾀ","タ"); ("ﾁ","チ"); ("ﾂ","ツ"); ("ﾃ","テ"); ("ﾄ","ト");
   ("ﾅ","ナ"); ("ﾆ","ニ"); ("ﾇ","ヌ"); ("ﾈ","ネ"); ("ﾉ","ノ");
   ("ﾊ","ハ"); ("ﾋ","ヒ"); ("ﾌ","フ"); ("ﾍ","ヘ"); ("ﾎ","ホ");
   ("ﾏ","マ"); ("ﾐ","ミ"); ("ﾑ","ム"); ("ﾒ","メ"); ("ﾓ","モ");
   ("ﾔ","ヤ"); ("ﾕ","ユ"); ("ﾖ","ヨ");
   ("ﾗ","ラ"); ("ﾘ","リ"); ("ﾙ","ル"); ("ﾚ","レ"); ("ﾛ","ロ");
   ("ﾜ","ワ"); ("ｦ","ヲ"); ("ﾝ","ン");
   ("ｧ","ァ"); ("ｨ","ィ"); ("ｩ","ゥ"); ("ｪ","ェ"); ("ｫ","ォ");
   ("ｯ","ッ"); ("ｬ","ャ"); ("ｭ","ュ"); ("ｮ","ョ");
   ("ｰ","ー"); ("ﾞ","゛"); ("ﾟ","゜")]%string.

Definition dakutenMap : list (N * N) :=
  Eval vm_compute in map kv
  [("カ","ガ"); ("キ","ギ"); ("ク","グ"); ("ケ","ゲ"); ("コ","ゴ");
   ("サ","ザ"); ("シ","ジ"); ("ス","ズ"); ("セ","ゼ"); ("ソ","ゾ");
   ("タ","ダ"); ("チ","ヂ"); ("ツ","ヅ"); ("テ","デ"); ("ト","ド");
   ("ハ","バ"); ("ヒ","ビ"); ("フ","ブ"); ("ヘ","ベ"); ("ホ","ボ")]%string.

Definition handakutenMap : list (N * N) :=
  Eval vm_compute in map kv
  [("ハ","パ"); ("ヒ","ピ"); ("フ","プ"); ("ヘ","ペ"); ("ホ","ポ")]%string.

(** Property access on the object literals: [map[key]], [None] for
    [undefined]. *)
Fixpoint lookup (m : list (N * N)) (key : N) : option N :=
  match m with
  | [] => None
  | (k, v) :: m' => if (k =? key)%N then Some v else lookup m' key
  end.

Definition inClass (cls : jsstring) (c : N) : bool := existsb (N.eqb c) cls.

Definition dakutenBases : jsstring :=
  Eval vm_compute in js "ｶｷｸｹｺｻｼｽｾｿﾀﾁﾂﾃﾄﾊﾋﾌﾍﾎ".
Definition handakutenBases : jsstring := Eval vm_compute in js "ﾊﾋﾌﾍﾎ".
Definition halfKatakana : jsstring :=
  Eval vm_compute in
    js "ｱｲｳｴｵｶｷｸｹｺｻｼｽｾｿﾀﾁﾂﾃﾄﾅﾆﾇﾈﾉﾊﾋﾌﾍﾎﾏﾐﾑﾒﾓﾔﾕﾖﾗﾘﾙﾚﾛﾜｦﾝｧｨｩｪｫｯｬｭｮｰ".
Definition HALF_DAKUTEN : N := Eval vm_compute in cu "ﾞ".
Definition HALF_HANDAKUTEN : N := Eval vm_compute in cu "ﾟ".
Definition FULL_DAKUTEN : N := Eval vm_compute in cu "゛".
Definition FULL_HANDAKUTEN : N := Eval vm_compute in cu "゜".

(** [text.replace(/([bases])mark/g, fn)]: a base followed by the mark is
    replaced by [fn base]; the scan goes on after the pair. *)
Fixpoint replaceMarked (bases : jsstring) (mark : N) (fn : N -> jsstring)
    (s : jsstring) : jsstring :=
  match s with
  | [] => []
  | c :: rest =>
      match rest with
      | m :: rest' =>
          if inClass bases c && (m =? mark)%N
          then fn c ++ replaceMarked bases mark fn rest'
          else c :: replaceMarked bases mark fn rest
      | [] => [c]
      end
  end.

(** The callbacks of the two marked replacements:
    [dakutenMap[base] || (base + '゛')] with [base = halfToFullKatakanaMap[p1]]. *)
Definition voiced (table : list (N * N)) (fullMark : N) (p1 : N) : jsstring :=
  match lookup halfToFullKatakanaMap p1 with
  | Some base =>
      match lookup table base with
      | Some v => [v]
      | None => [base; fullMark]
      end
  | None => js "undefined" ++ [fullMark]
  end.

Definition convertKatakana (s : jsstring) : jsstring :=
  let s := replaceMarked dakutenBases HALF_DAKUTEN
             (voiced dakutenMap FULL_DAKUTEN) s in
  let s := replaceMarked handakutenBases HALF_HANDAKUTEN
             (voiced handakutenMap FULL_HANDAKUTEN) s in
  map (fun c => if inClass halfKatakana c
                then match lookup halfToFullKatakanaMap c with
                     | Some v => v
                     | None => c
                     end
                else c) s.

(** [ngWordsList] *)
Definition ngWordsList : list jsstring :=
  Eval vm_compute in map js
  ["株式会社"; "有限会社"; "合同会社"; "合資会社"; "合名会社";
   "医療法人"; "医療法人社団"; "医療法人財団"; "社会医療法人";
   "宗教法人"; "学校法人"; "社会福祉法人"; "更生保護法人"; "相互会社";
   "特定非営利活動法人"; "独立行政法人"; "地方独立行政法人"; "弁護士法人";
   "有限責任中間法人"; "無限責任中間法人"; "行政書士法人"; "司法書士法人";
   "税理士法人"; "国立大学法人"; "公立大学法人"; "農事組合法人"; "管理組合法人";
   "社会保険労務士法人"; "一般社団法人"; "公益社団法人"; "一般財団法人";
   "公益財団法人"; "非営利法人"; "(株)"; "(有)"; "支店"]%string.

(** [text.replace(ngWordsPattern, '')].  The pattern is the alternation of
    the escaped words, so each alternative matches its word literally; at
    every position the first alternative that matches wins, the match is
    dropped and the scan goes on after it.  [skip] counts the code units of
    the current match that are still to be dropped. *)
Fixpoint removeMatches (words : list jsstring) (skip : nat) (s : jsstring)
    : jsstring :=
  match s with
  | [] => []
  | c :: rest =>
      match skip with
      | S k => removeMatches words k rest
      | O =>
          match find (fun w => startsWith w s) words with
          | Some w => removeMatches words (pred (length w)) rest
          | None => c :: removeMatches words 0 rest
          end
      end
  end.

(** [s.replace(/\s+/g, ' ')]: every maximal run of white space becomes one
    space; [inRun] tells that the previous code unit was white space. *)
Fixpoint collapseRun (inRun : bool) (s : jsstring) : jsstring :=
  match s with
  | [] => []
  | c :: rest =>
      if isSpace c
      then if inRun then collapseRun true rest
           else 32%N :: collapseRun true rest
      else c :: collapseRun false rest
  end.

Definition collapseSpaces (s : jsstring) : jsstring := collapseRun false s.

Definition isListSeparator (c : N) : bool :=
  ((c =? COMMA) || (c =? IDEO_COMMA))%N.

(** [s.includes(',') || s.includes('、')] *)
Definition hasListSeparator (s : jsstring) : bool :=
  includes [COMMA] s || includes [IDEO_COMMA] s.

(** [s.replace(/label\s*$/, '')]: the leftmost place where [label] is
    followed by white space only, up to the end, is cut off. *)
Fixpoint cutTrailing (label : jsstring) (s : jsstring) : jsstring :=
  if startsWith label s && forallb isSpace (skipn (length label) s) then []
  else match s with
       | [] => []
       | c :: rest => c :: cutTrailing label rest
       end.

Definition COMPANY_LABEL : jsstring := Eval vm_compute in js "会社名:".
Definition PHONE_LABEL : jsstring := Eval vm_compute in js "電話番号:".
Definition PHONE_WORD : jsstring := Eval vm_compute in js "電話番号".
Definition COMPANY_WORD : jsstring := Eval vm_compute in js "会社名".

Definition removeNgWords (text : jsstring) : jsstring :=
  let processedText := removeMatches ngWordsList 0 text in
  let processedText :=
    if hasListSeparator processedText then
      let items :=
        filter (fun item => negb (isEmpty item))
          (map (fun item => collapseSpaces (trim item))
               (split isListSeparator processedText)) in
      join [COMMA] items
    else processedText in
  let processedText := trim processedText in
  let processedText := cutTrailing COMPANY_LABEL processedText in
  cutTrailing [COLON] processedText.

(** [/[^\d\-+]/g] keeps digits, '-' and '+'. *)
Definition isPhoneChar (c : N) : bool :=
  isDigit c || (c =? HYPHEN)%N || (c =? PLUS)%N.

(** [/[ァ-ヺ]/] and the shift by [0x60] *)
Definition katakanaToHiragana (s : jsstring) : jsstring :=
  map (fun c => if ((12449 <=? c) && (c <=? 12538))%N then (c - 96)%N else c) s.

(** The alphabet of a formatted phone number, and of a list of them. *)
Definition digitOrHyphen (c : N) : bool := isDigit c || (c =? HYPHEN)%N.
Definition isPhoneText (c : N) : bool := digitOrHyphen c || (c =? COMMA)%N.

Section PostProcess.

(** [String.prototype.normalize('NFC')] is a builtin of the platform, not
    code of this repository: the post-processor takes it as a parameter. *)
Variable normalizeNFC : jsstring -> jsstring.

Definition postProcessOcrResult (text : jsstring) (fieldType : FieldType)
    : jsstring :=
  if isEmpty text then text else
  let text := trim (normalizeNFC text) in
  let text := toHalfwidth text in
  let text := convertSymbols text in
  let text := convertKatakana text in
  let text :=
    match fieldType with
    | PayeeName => removeNgWords text
    | _ => text
    end in
  match fieldType with
  | PhoneNumber =>
      if hasListSeparator text then
        let numbers :=
          map (fun num => formatPhoneNumber (filter isPhoneChar (trim num)))
              (split isListSeparator text) in
        join [COMMA] numbers
      else formatPhoneNumber (filter isPhoneChar text)
  | PayeeName => trim (collapseSpaces text)
  | Phonetic => katakanaToHiragana text
  | Clipboard => text
  | Freeform => text
  end.

End PostProcess.

(** ** A model of the builtin normalisation on Japanese text

    On strings over ASCII, the kana blocks, the CJK unified ideographs
    (U+4E00 to U+9FFF), the CJK punctuation (the tone marks U+302A to U+302F
    apart) and the half- and full-width forms, canonical composition does one
    thing only: a kana followed by the
    combining voiced mark U+3099 or semi-voiced mark U+309A becomes the
    precomposed kana when there is one.  [nfcKana] does that and leaves every
    other code unit alone; it is used to evaluate the post-processor on
    concrete Japanese inputs. *)

Definition COMBINING_VOICED : N := 12441.      (* U+3099 *)
Definition COMBINING_SEMI_VOICED : N := 12442. (* U+309A *)

(** Kana that compose with U+3099 into the next code point. *)
Definition voicedNext : jsstring :=
  Eval vm_compute in
    js "かきくけこさしすせそたちつてとはひふへほゝカキクケコサシスセソタチツテトハヒフヘホヽ".

(** Kana that compose with U+3099 into another code point. *)
Definition voicedOther : list (N * N) :=
  Eval vm_compute in map kv
  [("う","ゔ"); ("ウ","ヴ"); ("ワ","ヷ"); ("ヰ","ヸ"); ("ヱ","ヹ"); ("ヲ","ヺ")]%string.

(** Kana that compose with U+309A into the code point two further. *)
Definition semiVoiced : jsstring :=
  Eval vm_compute in js "はひふへほハヒフヘホ".

Definition nfcCompose (c m : N) : option N :=
  if (m =? COMBINING_VOICED)%N then
    if inClass voicedNext c then Some (c + 1)%N else lookup voicedOther c
  else if (m =? COMBINING_SEMI_VOICED)%N then
    if inClass semiVoiced c then Some (c + 2)%N else None
  else None.

Fixpoint nfcKana (s : jsstring) : jsstring :=
  match s with
  | [] => []
  | c :: rest =>
      match rest with
      | m :: rest' =>
          match nfcCompose c m with
          | Some v => v :: nfcKana rest'
          | None => c :: nfcKana rest
          end
      | [] => [c]
      end
  end.

(** ** parseMultiFieldResult *)

(** [(.*?)(?:\n|$)] at the start of [r]: the lazy group stops at the first
    line terminator; the match succeeds when that terminator is a line feed,
    or when the text ends before any terminator. *)
Definition captureLine (r : jsstring) : option jsstring :=
  let notTerminator := fun c => negb (isLineTerminator c) in
  match dropWhile notTerminator r with
  | [] => Some (takeWhile notTerminator r)
  | c :: _ => if (c =? LF)%N then Some (takeWhile notTerminator r) else None
  end.

(** [[\s　]*(.*?)(?:\n|$)] at the start of [r]: the greedy class takes the
    longest run of white space first and gives code units back one at a time
    when the rest fails. *)
Fixpoint afterLabel (r : jsstring) : option jsstring :=
  match r with
  | [] => captureLine []
  | c :: r' =>
      if isSpace c || (c =? IDEO_SPACE)%N then
        match afterLabel r' with
        | Some cap => Some cap
        | None => captureLine r
        end
      else captureLine r
  end.

(** Group 1 of [text.match(/label[\s　]*(.*?)(?:\n|$)/i)], [None] when there
    is no match.  The labels hold no cased letter, so the [i] flag changes
    nothing. *)
Fixpoint matchLabeled (label : jsstring) (text : jsstring) : option jsstring :=
  match (if startsWith label text
         then afterLabel (skipn (length label) text) else None) with
  | Some cap => Some cap
  | None =>
      match text with
      | [] => None
      | _ :: rest => matchLabeled label rest
      end
  end.

(** [/^\s*word:?\s*$/i.test(s)] *)
Definition testLabelOnly (word : jsstring) (s : jsstring) : bool :=
  let r := dropWhile isSpace s in
  startsWith word r &&
  let r := skipn (length word) r in
  let r := match r with
           | c :: r' => if (c =? COLON)%N then r' else r
           | [] => r
           end in
  forallb isSpace r.

(** [/^\s*word:?/i.test(s)] *)
Definition testLabelPrefix (word : jsstring) (s : jsstring) : bool :=
  startsWith word (dropWhile isSpace s).

(** Case-insensitive prefix test for an ASCII lower-case word:
    [/^tel:?/i] and [/^phone:?/i]. *)
Fixpoint startsWithNoCase (word : jsstring) (s : jsstring) : bool :=
  match word, s with
  | [], _ => true
  | a :: word', b :: s' =>
      ((b =? a) || (b =? a - 32))%N && startsWithNoCase word' s'
  | _ :: _, [] => false
  end.

(** [/^\d[\d\-\s\(\)]*$/.test(s)] *)
Definition testNumberLike (s : jsstring) : bool :=
  match s with
  | [] => false
  | c :: r =>
      isDigit c &&
      forallb (fun x => isDigit x || (x =? HYPHEN)%N || isSpace x
                        || (x =? 40)%N || (x =? 41)%N) r
  end.

Record MultiField : Type := {
  payee_name : jsstring;    (* result['payee-name'] *)
  phone_number : jsstring   (* result['phone-number'] *)
}.

Section ParseMultiField.

Variable normalizeNFC : jsstring -> jsstring.

Definition parseMultiFieldResult (text : jsstring) : MultiField :=
  let companyMatch := matchLabeled COMPANY_LABEL text in
  let phoneMatch := matchLabeled PHONE_LABEL text in
  let companyName :=
    match companyMatch with Some g => trim g | None => [] end in
  let phoneNumber :=
    match phoneMatch with Some g => trim g | None => [] end in
  let companyName := postProcessOcrResult normalizeNFC companyName PayeeName in
  let phoneNumber := postProcessOcrResult normalizeNFC phoneNumber PhoneNumber in
  let companyName :=
    if testLabelOnly PHONE_WORD companyName then [] else companyName in
  let phoneNumber :=
    if testLabelOnly COMPANY_WORD phoneNumber then [] else phoneNumber in
  let companyName :=
    if isEmpty companyName then companyName
    else if hasListSeparator companyName then
      let companyNames :=
        filter (fun name =>
                  negb (isEmpty name)
                  && negb (testLabelPrefix PHONE_WORD name)
                  && negb (startsWithNoCase (js "tel") name)
                  && negb (startsWithNoCase (js "phone") name)
                  && negb (testNumberLike name))
               (map trim (split isListSeparator companyName)) in
      if (0 <? length companyNames) then join [COMMA] companyNames else []
    else companyName in
  let phoneNumber :=
    if isEmpty phoneNumber then phoneNumber
    else if testLabelPrefix COMPANY_WORD phoneNumber then [] else phoneNumber in
  {| payee_name := companyName; phone_number := phoneNumber |}.

End ParseMultiField.

(** ** Outcomes of fallible code *)

Inductive result (E A : Type) : Type :=
| Ok (a : A)
| Throw (e : E).
Arguments Ok {E A} a.
Arguments Throw {E A} e.

Definition bind {E A B : Type} (r : result E A) (k : A -> result E B)
    : result E B :=
  match r with
  | Ok a => k a
  | Throw e => Throw e
  end.

(** [try { body } catch (error) { handler }] *)
Definition tryCatch {E A : Type} (body : result E A) (handler : E -> result E A)
    : result E A :=
  match body with
  | Ok a => Ok a
  | Throw e => handler e
  end.

Notation "x <- c1 ;; c2" := (bind c1 (fun x => c2))
  (at level 61, c1 at next level, right associativity).

(** ** The size guard *)

Local Open Scope Q_scope.

(** The errors the size guard and the compression ladder raise. *)
Inductive SizeError : Type :=
| InvalidImageData                (* '無効な画像データです' *)
| Oversize (sizeInMB : Q)         (* '画像サイズが大きすぎます（…MB）。15MB以下にしてください。' *)
| CompressionExhausted            (* '画像サイズを十分に圧縮できませんでした。…' *)
| OptimizerFailure.               (* anything thrown while a ladder step runs *)

(** [dataUrl.split(',')[1] || ''] *)
Definition base64Part (dataUrl : jsstring) : jsstring :=
  nth 1 (split (fun c => (c =? COMMA)%N) dataUrl) [].

(** [(base64.length * 0.75) / (1024 * 1024)].  The length of a string is below
    2^53 and 0.75 and 1024 * 1024 are 3 * 2^-2 and 2^20: for every length
    below 2^51 the product and the quotient are computed without rounding,
    so the double the source computes is this rational number. *)
Definition estimateMB (dataUrl : jsstring) : Q :=
  (inject_Z (Z.of_nat (length (base64Part dataUrl))) * (3 # 4)) / (1048576 # 1).

Definition MAX_SIZE_MB : Q := 15 # 1.

Definition checkImageSize (dataUrl : jsstring) : result SizeError Q :=
  if isEmpty dataUrl then Throw InvalidImageData else
  let sizeInMB := estimateMB dataUrl in
  if negb (Qle_bool sizeInMB MAX_SIZE_MB) then Throw (Oversize sizeInMB)
  else Ok sizeInMB.

(** The options object handed to the optimizer. *)
Record OptimizeOptions : Type := {
  quality : option Q;        (* a number, or absent *)
  maxDimension : option Z;
  enhanceText : bool;
  contrast : option Q;
  rotation : option Z;
  isQuarterRotated : bool
}.

Definition qualityLevels : list Q := [8 # 10; 6 # 10; 4 # 10; 3 # 10].
Definition dimensionLimits : list Z := [1400; 1200; 1000; 800]%Z.

Definition ladderOptions (q : Q) (dim : Z) : OptimizeOptions :=
  {| quality := Some q; maxDimension := Some dim;
     enhanceText := true; contrast := Some (11 # 10);
     rotation := None; isQuarterRotated := false |}.

Section Compress.

(** The optimizer as [compressImageToSize] sees it: a call that yields an
    image or throws. *)
Variable optimize : jsstring -> OptimizeOptions -> result SizeError jsstring.

(** The [for] loop over the remaining steps of the ladder.  The first
    component of the result lists the options of the optimizer calls made, in
    order; an exception thrown inside a step is caught and the loop goes on. *)
Fixpoint ladder (steps : list (Q * Z)) (imageData : jsstring) (targetSizeMB : Q)
    : list OptimizeOptions * result SizeError jsstring :=
  match steps with
  | [] => ([], Throw CompressionExhausted)
  | (q, dim) :: rest =>
      let opts := ladderOptions q dim in
      let continue := ladder rest imageData targetSizeMB in
      match optimize imageData opts with
      | Ok compressedImage =>
          if Qle_bool (estimateMB compressedImage) targetSizeMB
          then ([opts], Ok compressedImage)
          else (opts :: fst continue, snd continue)
      | Throw _ => (opts :: fst continue, snd continue)
      end
  end.

Definition compressImageToSize (imageData : jsstring) (targetSizeMB : Q)
    : list OptimizeOptions * result SizeError jsstring :=
  ladder (combine qualityLevels dimensionLimits) imageData targetSizeMB.

(** Does the ladder step with options [opts] meet the target? *)
Definition stepMeets (imageData : jsstring) (targetSizeMB : Q)
    (opts : OptimizeOptions) : bool :=
  match optimize imageData opts with
  | Ok compressedImage => Qle_bool (estimateMB compressedImage) targetSizeMB
  | Throw _ => false
  end.

End Compress.

(** The four steps of the ladder, written out. *)
Definition theLadder : list OptimizeOptions :=
  [ladderOptions (8 # 10) 1400; ladderOptions (6 # 10) 1200;
   ladderOptions (4 # 10) 1000; ladderOptions (3 # 10) 800].

(** *** The ladder and the size as the specification words them

    The ladder is the list of (quality, maxDimension) pairs of the
    specification; the size of an encoded image is the length of its base64
    payload, the part after the first comma (up to a further comma, which a
    base64 payload does not hold), times 0.75, over one megabyte. *)
Definition specLadder : list (option Q * option Z) :=
  [(Some (8 # 10), Some 1400%Z); (Some (6 # 10), Some 1200%Z);
   (Some (4 # 10), Some 1000%Z); (Some (3 # 10), Some 800%Z)].

Definition stepOf (o : OptimizeOptions) : option Q * option Z :=
  (quality o, maxDimension o).

Definition notComma (c : N) : bool := negb (c =? COMMA)%N.

Definition specPayload (image : jsstring) : jsstring :=
  takeWhile notComma (tl (dropWhile notComma image)).

Definition specSizeMB (base64Length : nat) : Q :=
  (inject_Z (Z.of_nat base64Length) * (75 # 100)) / inject_Z (1024 * 1024).

(** What a ladder step yields misses the target of 10 MB. *)
Definition missesTarget (r : result SizeError jsstring) : Prop :=
  match r with
  | Ok compressedImage => 10 # 1 < specSizeMB (length (specPayload compressedImage))
  | Throw _ => True
  end.

(** An optimizer that fails at the first ladder step and returns a small
    JPEG from the second step on. *)
Definition sampleOptimizer (imageData : jsstring) (o : OptimizeOptions)
    : result SizeError jsstring :=
  match quality o with
  | Some q => if Qle_bool q (6 # 10)
              then Ok (js "data:image/jpeg;base64,AAAA")
              else Throw OptimizerFailure
  | None => Throw OptimizerFailure
  end.

(** ** The image optimizer *)

(** What the caller may hand over: a string, or something else ([null],
    [undefined], a number, an object). *)
Inductive Value : Type :=
| Str (s : jsstring)
| NotAString (tag : N).

Section Optimize.

(** The browser interfaces the optimizer calls.  Each of them can throw (the
    promise it returns can reject); the drawing stage stands for the resize,
    the rotation and the contrast loop on the canvas. *)
Variables Blob Bitmap Canvas : Type.
Variable fetchBlob : jsstring -> result jsstring Blob.
Variable createImageBitmap : Blob -> result jsstring Bitmap.
Variable draw : Bitmap -> OptimizeOptions -> result jsstring Canvas.
Variable canvasArea : Canvas -> Z.
Variable convertToBlob : Canvas -> Q -> result jsstring Blob.
(** The promise around the [FileReader] resolves with [reader.result]
    whatever it is: the data URL, or [null] when the read did not succeed. *)
Variable readAsDataURL : Blob -> result jsstring Value.

(** The statements of the [try] block. *)
Definition optimizeBody (imageData : Value) (options : OptimizeOptions)
    : result jsstring Value :=
  match imageData with
  | NotAString _ => Ok imageData
  | Str s =>
      if isEmpty s || negb (startsWith (js "data:image/") s) then Ok imageData
      else
        blob <- fetchBlob s ;;
        img <- createImageBitmap blob ;;
        canvas <- draw img options ;;
        let q := match quality options with
                 | Some q => q
                 | None => if (800000 <? canvasArea canvas)%Z
                           then 88 # 100 else 95 # 100
                 end in
        resultBlob <- convertToBlob canvas q ;;
        readAsDataURL resultBlob
  end.

Definition optimizeImage (imageData : Value) (options : OptimizeOptions)
    : result jsstring Value :=
  tryCatch (optimizeBody imageData options) (fun _ => Ok imageData).

End Optimize.

Local Close Scope Q_scope.

(** ** The result cache

    [imageCache] is a [Map]: it iterates its keys in insertion order, and
    setting a key that is present keeps the key where it is.  It is modelled
    as an association list in insertion order. *)

Module Cache.

Definition key := jsstring.
Definition t := list (key * jsstring).

Definition key_eqb (a b : key) : bool :=
  if list_eq_dec N.eq_dec a b then true else false.

Fixpoint get (k : key) (m : t) : option jsstring :=
  match m with
  | [] => None
  | (k', v) :: m' => if key_eqb k' k then Some v else get k m'
  end.

Definition has (k : key) (m : t) : bool :=
  match get k m with Some _ => true | None => false end.

Fixpoint update (k : key) (v : jsstring) (m : t) : t :=
  match m with
  | [] => []
  | (k', v') :: m' =>
      if key_eqb k' k then (k', v) :: m' else (k', v') :: update k v m'
  end.

(** [m.set(k, v)] *)
Definition set (k : key) (v : jsstring) (m : t) : t :=
  if has k m then update k v m else m ++ [(k, v)].

(** [m.delete(k)] *)
Fixpoint delete (k : key) (m : t) : t :=
  match m with
  | [] => []
  | (k', v) :: m' => if key_eqb k' k then m' else (k', v) :: delete k m'
  end.

Definition size (m : t) : nat := length m.

(** [m.keys().next().value] *)
Definition oldestKey (m : t) : option key :=
  match m with
  | [] => None
  | (k, _) :: _ => Some k
  end.

Definition clear (m : t) : t := [].

Definition keys (m : t) : list key := map fst m.

End Cache.

(** The two statements of [handleImageProcessing] that store a result. *)
Definition cacheStore (cacheKey : Cache.key) (processedText : jsstring)
    (imageCache : Cache.t) : Cache.t :=
  let imageCache := Cache.set cacheKey processedText imageCache in
  if 30 <? Cache.size imageCache then
    match Cache.oldestKey imageCache with
    | Some oldestKey => Cache.delete oldestKey imageCache
    | None => imageCache
    end
  else imageCache.

(** The state the storage listener touches. *)
Record BackgroundState : Type := {
  imageCache : Cache.t;
  settingsLastUpdate : N   (* cachedSettings.lastUpdate *)
}.

Inductive StorageArea : Type := AreaLocal | AreaSync | AreaSession | AreaManaged.

(** The storage keys the listener looks at. *)
Inductive SettingKey : Type :=
| GeminiApiKey | OcrLanguage | OcrMode | GeminiModel
| OtherKey (name : jsstring).

Definition affectsOcr (k : SettingKey) : bool :=
  match k with
  | GeminiApiKey | OcrLanguage | OcrMode | GeminiModel => true
  | OtherKey _ => false
  end.

(** The [chrome.storage.onChanged] listener; [changes] lists the keys of the
    change object. *)
Definition onStorageChanged (changes : list SettingKey) (namespace : StorageArea)
    (st : BackgroundState) : BackgroundState :=
  match namespace with
  | AreaLocal =>
      if existsb affectsOcr changes then
        {| settingsLastUpdate := 0;
           imageCache := if 0 <? Cache.size (imageCache st)
                         then Cache.clear (imageCache st)
                         else imageCache st |}
      else st
  | _ => st
  end.

(** The operations that reach the cache in a run of the background script. *)
Inductive CacheOp : Type :=
| OpStore (cacheKey : Cache.key) (processedText : jsstring)
| OpStorageChanged (changes : list SettingKey) (namespace : StorageArea)
| OpClear.   (* [imageCache.clear()] of the clearCache command and of recovery *)

Definition applyOp (st : BackgroundState) (op : CacheOp) : BackgroundState :=
  match op with
  | OpStore k v =>
      {| imageCache := cacheStore k v (imageCache st);
         settingsLastUpdate := settingsLastUpdate st |}
  | OpStorageChanged changes ns => onStorageChanged changes ns st
  | OpClear =>
      {| imageCache := Cache.clear (imageCache st);
         settingsLastUpdate := settingsLastUpdate st |}
  end.

Definition initialState : BackgroundState :=
  {| imageCache := []; settingsLastUpdate := 0 |}.

Definition run (ops : list CacheOp) : BackgroundState :=
  fold_left applyOp ops initialState.

(** ** The retry loop of the remote call *)

Module Retry.

(** What one request can come back with.  The bodies stand for what
    [response.json()] and the reading of the parsed object yield. *)
Inductive ErrorBody : Type :=
| ErrorUnreadable (message : jsstring)  (* the read of the body threw *)
| ErrorMessage (errorMessage : jsstring).
                                        (* [errorMessage] as the source computes it *)

Inductive OkBody : Type :=
| OkUnreadable (message : jsstring)     (* [response.json()] threw *)
| OkText (text : jsstring).             (* [candidates?.[0]?.content?.parts?.[0]?.text],
                                           empty when the path is absent *)

Inductive Outcome : Type :=
| FetchRejected (message : jsstring)    (* [fetch] rejected *)
| TimedOut                              (* the 15 s timer rejected first *)
| HttpError (status : N) (body : ErrorBody)   (* [!response.ok] *)
| HttpOk (body : OkBody).

Definition MAX_RETRIES : nat := 1.

Definition TEMPORARY_LIMIT : jsstring := Eval vm_compute in js "一時的なAPI制限".
Definition TIMEOUT_JA : jsstring := Eval vm_compute in js "タイムアウト".

(** The body of the [try] block of one iteration: the text, or the message
    of the error thrown. *)
Definition attemptOnce (o : Outcome) : result jsstring jsstring :=
  match o with
  | FetchRejected message => Throw message
  | TimedOut => Throw (js "APIリクエストがタイムアウトしました")
  | HttpError status (ErrorUnreadable message) => Throw message
  | HttpError status (ErrorMessage errorMessage) =>
      if includes (js "overloaded") errorMessage
         || includes (js "rate limit") errorMessage
         || includes (js "server error") errorMessage
         || includes (js "try again") errorMessage
         || (status =? 429)%N
         || (500 <=? status)%N
      then Throw (js "一時的なAPI制限: " ++ errorMessage)
      else Throw (js "API エラー: " ++ errorMessage)
  | HttpOk (OkUnreadable message) => Throw message
  | HttpOk (OkText text) =>
      if isEmpty text then Throw (js "テキストを抽出できませんでした")
      else Ok text
  end.

(** [isTemporaryError] of the [catch] block *)
Definition isTemporaryError (message : jsstring) : bool :=
  negb (isEmpty message) &&
  (includes TEMPORARY_LIMIT message
   || includes (js "overloaded") message
   || includes (js "rate limit") message
   || includes (js "timeout") message
   || includes TIMEOUT_JA message).

(** What the loop does, in order. *)
Inductive Action : Type :=
| Request (attempt : nat)      (* the request of iteration [attempt] *)
| Sleep (retryDelay : Q).      (* [setTimeout(resolve, retryDelay)] *)

(** [1000 * Math.pow(1.5, attempt - 1)], with [attempt] already incremented *)
Definition retryDelay (attempt : nat) : Q :=
  ((1000 # 1) * Qpower (3 # 2) (Z.of_nat attempt - 1))%Q.

Inductive LoopResult : Type :=
| Returned (text : jsstring)
| Thrown (message : jsstring)
| OutOfFuel.

(** The [while (attempt <= MAX_RETRIES)] loop.  [env] gives the outcome of the
    n-th request; [fuel] bounds the iterations of the model. *)
Fixpoint retryLoop (fuel : nat) (env : nat -> Outcome) (attempt : nat)
    (lastError : option jsstring) : list Action * LoopResult :=
  match fuel with
  | O => ([], OutOfFuel)
  | S fuel' =>
      if attempt <=? MAX_RETRIES then
        match attemptOnce (env attempt) with
        | Ok text => ([Request attempt], Returned text)
        | Throw message =>
            if isTemporaryError message && (attempt <? MAX_RETRIES) then
              let attempt' := S attempt in
              let rest := retryLoop fuel' env attempt' (Some message) in
              (Request attempt :: Sleep (retryDelay attempt') :: fst rest,
               snd rest)
            else ([Request attempt], Thrown message)
        end
      else
        ([], Thrown (js "Gemini APIへのリクエストが失敗しました。最後のエラー: "
                     ++ match lastError with
                        | Some m => m
                        | None => js "不明なエラー"
                        end))
  end.

Definition callWithRetry (env : nat -> Outcome) : list Action * LoopResult :=
  retryLoop (S (S MAX_RETRIES)) env 0 None.

(** The classification as the specification words it: HTTP status 429 or
    5xx, or a message that holds an overload, rate-limit or timeout marker. *)
Definition messageOf (o : Outcome) : jsstring :=
  match o with
  | FetchRejected m => m
  | TimedOut => js "APIリクエストがタイムアウトしました"
  | HttpError _ (ErrorUnreadable m) => m
  | HttpError _ (ErrorMessage m) => m
  | HttpOk (OkUnreadable m) => m
  | HttpOk (OkText _) => js "テキストを抽出できませんでした"
  end.

Definition specTemporary (o : Outcome) : bool :=
  match o with
  | HttpError status _ => ((status =? 429) || (500 <=? status))%N
  | _ => false
  end
  || includes (js "overloaded") (messageOf o)
  || includes (js "rate limit") (messageOf o)
  || includes (js "timeout") (messageOf o)
  || includes TIMEOUT_JA (messageOf o).

(** The classification of the amended claim.  A failure is temporary when
    its message holds one of the general markers; an HTTP error response is
    temporary also by its status, 429 or 500 and above, and, when its message
    was read from the body, by the markers "server error" and "try again". *)
Definition generalMarkers : list jsstring :=
  [TEMPORARY_LIMIT; js "overloaded"; js "rate limit"; js "timeout"; TIMEOUT_JA].

Definition responseMarkers : list jsstring :=
  [js "server error"; js "try again"].

Definition hasMarker (markers : list jsstring) (message : jsstring) : bool :=
  existsb (fun marker => includes marker message) markers.

Definition temporaryStatus (status : N) : bool :=
  ((status =? 429) || (500 <=? status))%N.

Definition amendedTemporary (o : Outcome) : bool :=
  match o with
  | HttpError status (ErrorMessage errorMessage) =>
      temporaryStatus status
      || hasMarker responseMarkers errorMessage
      || hasMarker generalMarkers errorMessage
  | HttpError status (ErrorUnreadable message) =>
      temporaryStatus status || hasMarker generalMarkers message
  | _ => hasMarker generalMarkers (messageOf o)
  end.

(** The case the amended claim leaves out: an HTTP error response with
    status 429 or 500 and above whose body could not be read. *)
Definition bodyLost (o : Outcome) : bool :=
  match o with
  | HttpError status (ErrorUnreadable _) => temporaryStatus status
  | _ => false
  end.

End Retry.

(** ** The request queue

    The background script runs on one event loop.  The queue object is
    modelled as a state record; the clock, the pending timers and the
    suspended [processQueue] activations are part of the state, and each
    turn of the event loop is one step. *)

Module Queue.

Local Open Scope N_scope.

Inductive Settlement : Type := Resolved | Rejected.

(** A [processQueue] activation suspended at one of its two [await]s. *)
Inductive Activation : Type :=
| Waiting (call : nat) (wake : N)  (* [await new Promise(r => setTimeout(r, ...))] *)
| Calling (call : nat).            (* [await requestFn()] *)

Inductive Event : Type :=
| Started (call : nat) (time : N)               (* [requestFn()] is invoked *)
| Settled (call : nat) (how : Settlement) (time : N).
                                                 (* [resolve(result)] or [reject(error)] *)

Record State : Type := {
  queue : list nat;             (* [this.queue], by call number *)
  processing : bool;            (* [this.processing] *)
  lastRequest : N;              (* [this.lastRequest] *)
  now : N;                      (* [Date.now()] *)
  submitted : nat;              (* calls of [execute] so far *)
  activations : list Activation;
  timers : list N;              (* due times of the pending [setTimeout(..., 50)] *)
  events : list Event           (* newest first *)
}.

Definition minInterval : N := 500.

Definition initial (t0 : N) : State :=
  {| queue := []; processing := false; lastRequest := 0; now := t0;
     submitted := 0; activations := []; timers := []; events := [] |}.

(** [processQueue()], up to its first suspension. *)
Definition processQueue (s : State) : State :=
  if processing s then s else
  match queue s with
  | [] => s
  | call :: rest =>
      let elapsed := now s - lastRequest s in
      if elapsed <? minInterval then
        {| queue := rest; processing := true; lastRequest := lastRequest s;
           now := now s; submitted := submitted s;
           activations := Waiting call (now s + (minInterval - elapsed))
                          :: activations s;
           timers := timers s; events := events s |}
      else
        {| queue := rest; processing := true; lastRequest := lastRequest s;
           now := now s; submitted := submitted s;
           activations := Calling call :: activations s;
           timers := timers s; events := Started call (now s) :: events s |}
  end.

(** [execute(requestFn)]: the call is numbered by its submission rank. *)
Definition execute (s : State) : State :=
  processQueue
    {| queue := queue s ++ [submitted s]; processing := processing s;
       lastRequest := lastRequest s; now := now s;
       submitted := S (submitted s); activations := activations s;
       timers := timers s; events := events s |}.

Fixpoint removeOne {A : Type} (eqb : A -> A -> bool) (x : A) (l : list A)
    : list A :=
  match l with
  | [] => []
  | y :: l' => if eqb x y then l' else y :: removeOne eqb x l'
  end.

Definition activation_eqb (a b : Activation) : bool :=
  match a, b with
  | Waiting c w, Waiting c' w' => Nat.eqb c c' && (w =? w')
  | Calling c, Calling c' => Nat.eqb c c'
  | _, _ => false
  end.

(** The timer of the spacing wait fires: [requestFn()] is invoked. *)
Definition wake (call : nat) (w : N) (s : State) : State :=
  {| queue := queue s; processing := processing s;
     lastRequest := lastRequest s; now := now s; submitted := submitted s;
     activations := Calling call
                    :: removeOne activation_eqb (Waiting call w) (activations s);
     timers := timers s; events := Started call (now s) :: events s |}.

(** [requestFn()] settles: [resolve] or [reject], then the [finally] block. *)
Definition finish (call : nat) (how : Settlement) (s : State) : State :=
  {| queue := queue s; processing := false;
     lastRequest := now s; now := now s; submitted := submitted s;
     activations := removeOne activation_eqb (Calling call) (activations s);
     timers := (now s + 50) :: timers s;
     events := Settled call how (now s) :: events s |}.

(** The callback of [setTimeout(() => this.processQueue(), 50)] runs. *)
Definition fireTimer (due : N) (s : State) : State :=
  processQueue
    {| queue := queue s; processing := processing s;
       lastRequest := lastRequest s; now := now s; submitted := submitted s;
       activations := activations s;
       timers := removeOne N.eqb due (timers s); events := events s |}.

Definition advance (dt : N) (s : State) : State :=
  {| queue := queue s; processing := processing s;
     lastRequest := lastRequest s; now := now s + dt;
     submitted := submitted s; activations := activations s;
     timers := timers s; events := events s |}.

(** One turn of the event loop.  A timer runs no earlier than its due time. *)
Inductive step : State -> State -> Prop :=
| step_execute s : step s (execute s)
| step_advance s dt : step s (advance dt s)
| step_wake s call w :
    In (Waiting call w) (activations s) -> w <= now s ->
    step s (wake call w s)
| step_finish s call how :
    In (Calling call) (activations s) ->
    step s (finish call how s)
| step_timer s due :
    In due (timers s) -> due <= now s ->
    step s (fireTimer due s).

Inductive steps : State -> State -> Prop :=
| steps_refl s : steps s s
| steps_step s s' s'' : step s s' -> steps s' s'' -> steps s s''.

Inductive reachable (t0 : N) : State -> Prop :=
| reach_initial : reachable t0 (initial t0)
| reach_step s s' : reachable t0 s -> step s s' -> reachable t0 s'.

(** Start times and started calls, oldest first. *)
Fixpoint startTimes (evs : list Event) : list N :=
  match evs with
  | [] => []
  | Started _ t :: evs' => startTimes evs' ++ [t]
  | Settled _ _ _ :: evs' => startTimes evs'
  end.

Fixpoint startedCalls (evs : list Event) : list nat :=
  match evs with
  | [] => []
  | Started c _ :: evs' => startedCalls evs' ++ [c]
  | Settled _ _ _ :: evs' => startedCalls evs'
  end.

(** Successive entries are at least [d] apart. *)
Fixpoint spaced (d : N) (ts : list N) : Prop :=
  match ts with
  | [] => True
  | t :: ts' =>
      match ts' with
      | [] => True
      | t' :: _ => t + d <= t' /\ spaced d ts'
      end
  end.

(** The log, newest first, of calls run one at a time: every start but the
    newest is followed by the settlement of the same call before the next
    start. *)
Fixpoint serial (evs : list Event) : Prop :=
  match evs with
  | [] => True
  | Started c _ :: evs' =>
      match evs' with
      | [] => True
      | Settled _ _ _ :: _ => serial evs'
      | Started _ _ :: _ => False
      end
  | Settled c _ _ :: evs' =>
      match evs' with
      | Started c' _ :: _ => c = c' /\ serial evs'
      | _ => False
      end
  end.

Definition eventTime (e : Event) : N :=
  match e with
  | Started _ t => t
  | Settled _ _ t => t
  end.

(** No call is running: the log is empty or ends with a settlement. *)
Definition closed (evs : list Event) : Prop :=
  match evs with
  | Started _ _ :: _ => False
  | _ => True
  end.

(** The call that waits for its spacing, if there is one. *)
Definition waitingCalls (acts : list Activation) : list nat :=
  match acts with
  | [Waiting c _] => [c]
  | _ => []
  end.

Record Inv (s : State) : Prop := {
  inv_last : lastRequest s <= now s;
  inv_times : Forall (fun e => eventTime e <= now s) (events s);
  inv_spaced : spaced minInterval (startTimes (events s));
  inv_serial : serial (events s);
  inv_fifo :
    (startedCalls (events s) ++ waitingCalls (activations s) ++ queue s
     = List.seq 0 (submitted s))%list;
  inv_shape :
    match activations s with
    | [] =>
        processing s = false /\ closed (events s) /\
        Forall (fun t => t <= lastRequest s) (startTimes (events s))
    | [Waiting c w] =>
        processing s = true /\ closed (events s) /\
        Forall (fun t => t <= lastRequest s) (startTimes (events s)) /\
        lastRequest s + minInterval <= w
    | [Calling c] =>
        processing s = true /\
        exists t evs, events s = Started c t :: evs
    | _ => False
    end
}.

(** One turn of the event loop in which nothing is submitted: the clock
    advances, a timer fires, or the call in progress settles, resolved or
    rejected as [how] says for it. *)
Inductive quiet (how : nat -> Settlement) : State -> State -> Prop :=
| quiet_advance s dt : quiet how s (advance dt s)
| quiet_wake s call w :
    In (Waiting call w) (activations s) -> w <= now s ->
    quiet how s (wake call w s)
| quiet_finish s call :
    In (Calling call) (activations s) ->
    quiet how s (finish call (how call) s)
| quiet_timer s due :
    In due (timers s) -> due <= now s ->
    quiet how s (fireTimer due s).

Inductive drains (how : nat -> Settlement) : State -> State -> Prop :=
| drains_refl s : drains how s s
| drains_step s s' s'' :
    quiet how s s' -> drains how s' s'' -> drains how s s''.

(** What a drained queue looks like: no call is queued or in progress, and
    nothing was submitted on the way. *)
Definition drained (how : nat -> Settlement) (s s' : State) : Prop :=
  drains how s s' /\ queue s' = [] /\ activations s' = [] /\
  submitted s' = submitted s.

End Queue.

(** A run with a rejection: two calls are submitted at time 1000, the first
    is rejected at once, the timer fires 50 ms later and the second call
    starts when its spacing has elapsed. *)
Definition rejectedRun : Queue.State :=
  Queue.wake 1 1500
    (Queue.advance 450
       (Queue.fireTimer 1050
          (Queue.advance 50
             (Queue.finish 0 Queue.Rejected
                (Queue.execute (Queue.execute (Queue.initial 1000))))))).

(** ** Further definitions *)

(** The code units the width and kana conversions of the post-processor
    replace: full-width letters and digits, the full-width middle dot and
    full stop, and the half-width katakana of the last replacement. *)
Definition isConvertible (c : N) : bool :=
  isFullwidthAlnum c || (c =? MIDDLE_DOT)%N || (c =? FULL_STOP)%N
  || inClass halfKatakana c.

(** A code unit the conversions have nothing left to do with. *)
Definition settled (c : N) : bool := negb (isConvertible c).

(** ** The tab tracker

    [activeProcessing] is a [Set] of tab identifiers; it is modelled as the
    list of its members in insertion order. *)

Module Tabs.

Definition t := list N.

Definition has (tabId : N) (s : t) : bool := existsb (N.eqb tabId) s.

(** [s.add(tabId)] *)
Definition add (tabId : N) (s : t) : t :=
  if has tabId s then s else s ++ [tabId].

(** [s.delete(tabId)] *)
Definition delete (tabId : N) (s : t) : t :=
  filter (fun x => negb (x =? tabId)%N) s.

End Tabs.

Definition isTabProcessing (tabId : N) (activeProcessing : Tabs.t) : bool :=
  Tabs.has tabId activeProcessing.

Definition setTabProcessing (tabId : N) (processing : bool)
    (activeProcessing : Tabs.t) : Tabs.t :=
  if processing then Tabs.add tabId activeProcessing
  else Tabs.delete tabId activeProcessing.

(** The guard at the head of [streamedDockOcrHandler]: a tab that is marked
    is unmarked, and then the tab is marked. *)
Definition markTabForRequest (tabId : N) (activeProcessing : Tabs.t) : Tabs.t :=
  let activeProcessing :=
    if isTabProcessing tabId activeProcessing
    then setTabProcessing tabId false activeProcessing
    else activeProcessing in
  setTabProcessing tabId true activeProcessing.

(** ** The settings cache *)

Module Settings.

Record t : Type := {
  apiKey : option jsstring;   (* [null] is [None] *)
  language : jsstring;
  mode : jsstring;
  model : jsstring;
  lastUpdate : Z
}.

(** What [chrome.storage.local.get] hands back: a key that is not stored is
    [undefined]. *)
Record Stored : Type := {
  geminiApiKey : option jsstring;
  ocrLanguage : option jsstring;
  ocrMode : option jsstring;
  geminiModel : option jsstring
}.

(** [v || d] on a string that may be [undefined] *)
Definition orElse (v : option jsstring) (d : jsstring) : jsstring :=
  match v with
  | Some s => if isEmpty s then d else s
  | None => d
  end.

(** [v || null] *)
Definition orNull (v : option jsstring) : option jsstring :=
  match v with
  | Some s => if isEmpty s then None else Some s
  | None => None
  end.

Definition truthy (v : option jsstring) : bool :=
  match v with
  | Some s => negb (isEmpty s)
  | None => false
  end.

(** The condition under which the cached record is returned. *)
Definition cacheIsFresh (cachedSettings : t) (now : Z) : bool :=
  negb (lastUpdate cachedSettings =? 0)%Z
  && (now - lastUpdate cachedSettings <? 30000)%Z
  && truthy (apiKey cachedSettings).

Definition defaults (now : Z) : t :=
  {| apiKey := None; language := js "ja"; mode := js "accurate";
     model := js "gemini-2.0-flash"; lastUpdate := now |}.

(** The record built from what the storage holds. *)
Definition fromStorage (stored : Stored) (now : Z) : t :=
  {| apiKey := orNull (geminiApiKey stored);
     language := orElse (ocrLanguage stored) (js "ja");
     mode := orElse (ocrMode stored) (js "accurate");
     model := orElse (geminiModel stored) (js "gemini-2.0-flash");
     lastUpdate := now |}.

(** [loadSettings()]: the record returned and the new value of the global
    [cachedSettings].  [storage] is the outcome of the read of the local
    storage area, which may throw. *)
Definition loadSettings (cachedSettings : t) (now : Z)
    (storage : result jsstring Stored) : t * t :=
  if cacheIsFresh cachedSettings now then (cachedSettings, cachedSettings)
  else
    match storage with
    | Ok stored =>
        let fresh := fromStorage stored now in
        (fresh, fresh)
    | Throw _ => (defaults now, cachedSettings)
    end.

(** A record that names a language, a mode and a model, with an API key
    that is [null] or not empty. *)
Definition wellFormed (s : t) : Prop :=
  apiKey s <> Some [] /\ language s <> [] /\ mode s <> [] /\ model s <> [].

(** The assignment [cachedSettings.lastUpdate = 0] of the storage listener. *)
Definition invalidate (cachedSettings : t) : t :=
  {| apiKey := apiKey cachedSettings; language := language cachedSettings;
     mode := mode cachedSettings; model := model cachedSettings;
     lastUpdate := 0 |}.

(** The global [cachedSettings] as the storage listener leaves it: its
    [lastUpdate] is the one of the background state. *)
Definition seenBy (cachedSettings : t) (st : BackgroundState) : t :=
  {| apiKey := apiKey cachedSettings; language := language cachedSettings;
     mode := mode cachedSettings; model := model cachedSettings;
     lastUpdate := Z.of_N (settingsLastUpdate st) |}.

End Settings.

(** ** The readable error messages *)

Module Readable.

Definition NO_ERROR : jsstring := Eval vm_compute in js "エラーが発生しました".
Definition CONNECTION : jsstring := Eval vm_compute in
  js "Service Workerとの接続に失敗しました。拡張機能を再読み込みしてください。".
Definition NO_RECEIVER : jsstring := Eval vm_compute in
  js "Background scriptが応答しません。拡張機能を再読み込みするか、ブラウザを再起動してください。".
Definition CONTEXT_INVALID : jsstring := Eval vm_compute in
  js "拡張機能のコンテキストが無効になりました。ページを再読み込みしてください。".
Definition CONGESTED : jsstring := Eval vm_compute in
  js "Google Gemini APIが混雑しています。しばらく待ってから再試行してください。".
Definition RATE_LIMIT : jsstring := Eval vm_compute in
  js "APIの利用制限に達しました。しばらく待ってから再試行してください。".
Definition BAD_KEY : jsstring := Eval vm_compute in
  js "APIキーが無効です。設定から正しいGemini APIキーを入力してください。".
Definition NETWORK : jsstring := Eval vm_compute in
  js "ネットワークエラーが発生しました。インターネット接続を確認してください。".
Definition CONTENT_SCRIPT : jsstring := Eval vm_compute in
  js "Content scriptとの通信に失敗しました。ページを再読み込みしてください。".
Definition NO_TAB : jsstring := Eval vm_compute in
  js "アクティブなタブが見つかりません。ブラウザでWebページを開いてから再試行してください。".

(** An error value: its [message], what [toString()] gives, and its [code]
    when one was attached. *)
Record ErrorValue : Type := {
  message : jsstring;
  printed : jsstring;
  code : option jsstring
}.

(** [new Error(message)] *)
Definition newError (message : jsstring) : ErrorValue :=
  {| message := message;
     printed := if isEmpty message then js "Error" else js "Error: " ++ message;
     code := None |}.

(** [getReadableErrorMessage(error)], [None] standing for an absent error. *)
Definition getReadableErrorMessage (error : option ErrorValue) : jsstring :=
  match error with
  | None => NO_ERROR
  | Some e =>
      let errorMessage := if isEmpty (message e) then printed e else message e in
      if includes (js "Could not establish connection") errorMessage
      then CONNECTION
      else if includes (js "Receiving end does not exist") errorMessage
      then NO_RECEIVER
      else if includes (js "Extension context invalidated") errorMessage
      then CONTEXT_INVALID
      else if includes (js "overloaded") errorMessage
              || includes (js "一時的なAPI制限") errorMessage
      then CONGESTED
      else if includes (js "rate limit") errorMessage then RATE_LIMIT
      else if includes (js "invalid API key") errorMessage
              || includes (js "APIキーが設定されていません") errorMessage
      then BAD_KEY
      else if includes (js "network") errorMessage
              || includes (js "timeout") errorMessage
      then NETWORK
      else if includes (js "Content script") errorMessage then CONTENT_SCRIPT
      else if includes (js "アクティブなタブが見つかりません") errorMessage
      then NO_TAB
      else js "エラー: " ++ errorMessage
  end.

End Readable.

(** ** limitCacheSize *)

(** The [for] loop of [limitCacheSize]: [i] counts the iterations, and the
    bound [imageCache.size - maxEntries] is read again at every test.  The
    key iterator is live: after the deletion of the keys it has yielded, its
    next key is the oldest key left.  [fuel] bounds the iterations of the
    model. *)
Fixpoint limitLoop (fuel i maxEntries : nat) (imageCache : Cache.t) : Cache.t :=
  match fuel with
  | O => imageCache
  | S fuel' =>
      if i <? Cache.size imageCache - maxEntries then
        match Cache.oldestKey imageCache with
        | Some key =>
            limitLoop fuel' (S i) maxEntries (Cache.delete key imageCache)
        | None => limitLoop fuel' (S i) maxEntries imageCache
        end
      else imageCache
  end.

Definition limitCacheSize (maxEntries : nat) (imageCache : Cache.t) : Cache.t :=
  if Cache.size imageCache <=? maxEntries then imageCache
  else limitLoop (Cache.size imageCache) 0 maxEntries imageCache.

(** ** The size preparation of extractTextWithGemini *)

Inductive PrepareError : Type :=
| InvalidData                          (* '無効な画像データです' *)
| CompressionError (cause : SizeError) (* '画像圧縮エラー: ' + the cause's message *)
| SizeCheckError (cause : SizeError).  (* the size error, thrown again *)

(** Does the message of a size error hold '画像サイズが大きすぎます'? *)
Definition saysTooLarge (e : SizeError) : bool :=
  match e with
  | Oversize _ => true
  | _ => false
  end.

Section Prepare.

Variable optimize : jsstring -> OptimizeOptions -> result SizeError jsstring.

(** The argument check and the [try] block that sets [processedImageData];
    [None] is an absent argument. *)
Definition prepareImage (imageData : option jsstring)
    : result PrepareError jsstring :=
  match imageData with
  | None => Throw InvalidData
  | Some imageData =>
      if isEmpty imageData || negb (startsWith (js "data:image/") imageData)
      then Throw InvalidData
      else
        match checkImageSize imageData with
        | Ok _ => Ok imageData
        | Throw sizeError =>
            if saysTooLarge sizeError then
              match snd (compressImageToSize optimize imageData (10 # 1)) with
              | Ok processedImageData =>
                  match checkImageSize processedImageData with
                  | Ok _ => Ok processedImageData
                  | Throw compressionError =>
                      Throw (CompressionError compressionError)
                  end
              | Throw compressionError =>
                  Throw (CompressionError compressionError)
              end
            else Throw (SizeCheckError sizeError)
        end
  end.

End Prepare.

(** ** The OCR pipeline of the image handler *)

(** The field type a [field] string selects in the [switch] of the
    post-processor. *)
Definition fieldTypeOf (field : option jsstring) : FieldType :=
  match field with
  | Some f =>
      if streqb f (js "phone-number") then PhoneNumber
      else if streqb f (js "payee-name") then PayeeName
      else if streqb f (js "phonetic") then Phonetic
      else if streqb f (js "clipboard") then Clipboard
      else Freeform
  | None => Freeform
  end.

Module Pipeline.

Import Readable.

(** What the OCR backend returns. *)
Record OcrResult : Type := {
  text : jsstring;          (* empty also stands for an absent text *)
  confidence : Q;
  imageCompressed : bool
}.

(** The options of [processImageForOCR]. *)
Record Options : Type := {
  language : option jsstring;
  mode : option jsstring;
  fieldType : option jsstring;
  maxDimension : option Z;
  quality : option Q;
  rotation : option Z;
  isQuarterRotated : bool
}.

(** The options handed to [hybridOCRManager.extractText]. *)
Record ExtractOptions : Type := {
  extractLanguage : jsstring;
  extractMode : jsstring;
  extractFieldType : option jsstring
}.

(** [options.mode === 'accurate'] *)
Definition isAccurate (mode : option jsstring) : bool :=
  match mode with
  | Some m => streqb m (js "accurate")
  | None => false
  end.

Definition NO_PHONE : jsstring := Eval vm_compute in js "電話番号を認識できませんでした".
Definition NO_PAYEE : jsstring := Eval vm_compute in js "支払先名を認識できませんでした".
Definition NO_TEXT : jsstring := Eval vm_compute in js "テキストを認識できませんでした".

Definition emptyResultError (fieldType : option jsstring) : ErrorValue :=
  let errorMessage :=
    match fieldType with
    | Some f =>
        if streqb f (js "phone-number") then NO_PHONE
        else if streqb f (js "payee-name") then NO_PAYEE
        else NO_TEXT
    | None => NO_TEXT
    end in
  {| message := errorMessage; printed := js "Error: " ++ errorMessage;
     code := Some (js "EMPTY_RESULT") |}.

Section Process.

(** [optimizeImage] returns a value and never throws; the OCR backend returns
    a result or throws. *)
Variable optimizeImage : jsstring -> OptimizeOptions -> Value.
Variable extractText : Value -> ExtractOptions -> result ErrorValue OcrResult.

Definition processImageForOCR (imageData : jsstring) (options : Options)
    : result ErrorValue OcrResult :=
  let optimizedImage :=
    optimizeImage imageData
      (Build_OptimizeOptions
         (quality options)
         (Some match maxDimension options with
               | Some d => if (d =? 0)%Z then 1600%Z else d
               | None => 1600%Z
               end)
         (isAccurate (mode options))
         (Some (if isAccurate (mode options) then 13 # 10 else 11 # 10)%Q)
         (rotation options)
         (isQuarterRotated options)) in
  ocrResult <- extractText optimizedImage
                 {| extractLanguage := Settings.orElse (language options) (js "ja");
                    extractMode := Settings.orElse (mode options) (js "accurate");
                    extractFieldType := fieldType options |} ;;
  if isEmpty (text ocrResult) || isEmpty (trim (text ocrResult))
  then Throw (emptyResultError (fieldType options))
  else Ok ocrResult.

End Process.

(** The message of the image handler. *)
Record Request : Type := {
  imageData : option jsstring;
  field : option jsstring
}.

Inductive TabMessage : Type :=
| ShowProcessing (message : jsstring)
| HideProcessing
| ShowError (error : jsstring).

(** [chrome.tabs.sendMessage(tabId, message)] *)
Inductive Effect : Type :=
| SendMessage (tabId : N) (message : TabMessage).

(** What one run of the handler leaves behind: the value returned or the
    error thrown, the cache, and the messages sent, in order. *)
Record Outcome : Type := {
  returned : result ErrorValue jsstring;
  cacheAfter : Cache.t;
  effects : list Effect
}.

(** [if (tabId) chrome.tabs.sendMessage(tabId, m)] *)
Definition toTab (tabId : option N) (m : TabMessage) : list Effect :=
  match tabId with
  | Some t => if (t =? 0)%N then [] else [SendMessage t m]
  | None => []
  end.

Definition OPTIMIZING : jsstring := Eval vm_compute in
  js "画像を最適化してOCR処理中...".
Definition INVALID_IMAGE : jsstring := Eval vm_compute in js "無効な画像データです".

Section Handle.

Variable normalizeNFC : jsstring -> jsstring.
(** SHA-256 of the UTF-8 encoding, written in hexadecimal: platform code. *)
Variable sha256hex : jsstring -> jsstring.
Variable optimizeImage : jsstring -> OptimizeOptions -> Value.
Variable extractText : Value -> ExtractOptions -> result ErrorValue OcrResult.

(** [cacheKeySimple]; [settings] is what its call of [loadSettings] returns. *)
Definition cacheKeySimple (imageData : jsstring) (fieldType : option jsstring)
    (settings : Settings.t) : Cache.key :=
  let sampleData :=
    firstn 100 imageData
    ++ match fieldType with Some f => f | None => [] end
    ++ Settings.language settings
    ++ Settings.mode settings
    ++ Settings.model settings in
  sha256hex sampleData.

(** [handleImageProcessing(request, tabId)].  [settings] and [keySettings]
    are what the two calls of [loadSettings] return, the second one made
    inside [cacheKeySimple]. *)
Definition handleImageProcessing (request : Request) (tabId : option N)
    (settings keySettings : Settings.t) (imageCache : Cache.t) : Outcome :=
  let failed (sent : list Effect) (error : ErrorValue) :=
    {| returned := Throw error;
       cacheAfter := imageCache;
       effects := sent ++ toTab tabId HideProcessing
                  ++ toTab tabId (ShowError (getReadableErrorMessage (Some error))) |} in
  match imageData request with
  | None => failed [] (newError INVALID_IMAGE)
  | Some image =>
      if isEmpty image || negb (startsWith (js "data:image/") image)
      then failed [] (newError INVALID_IMAGE)
      else
        let cacheKey := cacheKeySimple image (field request) keySettings in
        let cachedResult := Cache.get cacheKey imageCache in
        if Settings.truthy cachedResult then
          {| returned := Ok match cachedResult with Some t => t | None => [] end;
             cacheAfter := imageCache;
             effects := [] |}
        else
          let sent := toTab tabId (ShowProcessing OPTIMIZING) in
          match processImageForOCR optimizeImage extractText image
                  {| language := Some (Settings.orElse
                                         (Some (Settings.language settings)) (js "ja"));
                     mode := Some (Settings.orElse
                                     (Some (Settings.mode settings)) (js "accurate"));
                     fieldType := Settings.orNull (field request);
                     maxDimension := None; quality := None; rotation := None;
                     isQuarterRotated := false |} with
          | Throw error => failed sent error
          | Ok ocrResult =>
              let processedText :=
                postProcessOcrResult normalizeNFC (text ocrResult)
                  (fieldTypeOf (field request)) in
              {| returned := Ok processedText;
                 cacheAfter := cacheStore cacheKey processedText imageCache;
                 effects := sent ++ toTab tabId HideProcessing |}
          end
  end.

End Handle.

End Pipeline.

(** Sample values for the pipeline: a PNG data URL of 100 code units followed
    by [rest], a backend that reads a phone number, and one that is down. *)
Definition sampleImage (rest : jsstring) : jsstring :=
  js "data:image/png;base64," ++ repeat 65%N 78 ++ rest.


Definition backendDown (_ : Value) (_ : Pipeline.ExtractOptions)
    : result Readable.ErrorValue Pipeline.OcrResult :=
  Throw (Readable.newError (js "Failed to fetch")).

Definition sampleRequest (rest : jsstring) : Pipeline.Request :=
  {| Pipeline.imageData := Some (sampleImage rest);
     Pipeline.field := Some (js "phone-number") |}.

(** ** The request queue: settlements and wake-ups *)

(** In the log, newest first, every start that follows a settlement comes at
    least [d] after it. *)
Fixpoint rested (d : N) (evs : list Queue.Event) : Prop :=
  match evs with
  | [] => True
  | Queue.Started _ t :: evs' =>
      match evs' with
      | Queue.Settled _ _ t' :: _ => (t' + d <= t)%N /\ rested d evs'
      | _ => rested d evs'
      end
  | Queue.Settled _ _ _ :: evs' => rested d evs'
  end.

(** What the queue keeps besides its spacing: the time of the newest
    settlement is [lastRequest], the pending timers are due 50 ms after it
    at the latest, and a queue that holds a call while none is in progress
    has a timer pending. *)
Record Awake (s : Queue.State) : Prop := {
  awake_rested : rested Queue.minInterval (Queue.events s);
  awake_last :
    match Queue.events s with
    | Queue.Settled _ _ t :: _ => Queue.lastRequest s = t
    | _ => True
    end;
  awake_due :
    Forall (fun due => (due <= Queue.lastRequest s + 50)%N) (Queue.timers s);
  awake_timer :
    Queue.processing s = false -> Queue.queue s <> [] -> Queue.timers s <> []
}.

(** A sample run of the queue: a call is submitted at time 1000 and
    resolves at once, a second call is submitted, waits for its spacing and
    starts at time 1500. *)
Definition sampleRun : Queue.State :=
  Queue.wake 1 1500
    (Queue.advance 500
       (Queue.execute
          (Queue.finish 0 Queue.Resolved (Queue.execute (Queue.initial 1000))))).

(** ** The hybrid OCR manager (lib/enhanced-hybrid-ocr-manager.js) *)

Module Hybrid.

Record Manager : Type := {
  useLocalLLM : bool;
  localLLMReady : bool;
  fallbackToGemini : bool
}.

(** [new EnhancedHybridOCRManager()] *)
Definition constructed : Manager :=
  {| useLocalLLM := true; localLLMReady := false; fallbackToGemini := true |}.

(** [/[\d\-\+\(\)]/] *)
Definition isPhoneMark (c : N) : bool :=
  isDigit c || (c =? cu "-")%N || (c =? cu "+")%N || (c =? cu "(")%N
  || (c =? cu ")")%N.

(** The class of [/^[0-9\-\+\(\)\s]+$/] *)
Definition isNumberMark (c : N) : bool := isPhoneMark c || isSpace c.

(** [isValidResult(text, options)]; [None] is a text that is absent or not a
    string. *)
Definition isValidResult (text : option jsstring) (fieldType : option jsstring)
    : bool :=
  match text with
  | None => false
  | Some text =>
      if isEmpty text || (length (trim text) =? 0) then false
      else
        match fieldType with
        | Some f =>
            if streqb f (js "phone-number") then existsb isPhoneMark text
            else if streqb f (js "payee-name") then
              (2 <=? length (trim text))
              && negb (negb (isEmpty text) && forallb isNumberMark text)
            else 1 <=? length (trim text)
        | None => 1 <=? length (trim text)
        end
  end.

Inductive Method : Type := LocalLLM | GeminiAPI.

Inductive Call : Type := CallLocal | CallGemini.

(** The object returned: the text, and [usedMethod]. *)
Record Final : Type := {
  text : option jsstring;
  usedMethod : Method
}.

Definition ALL_FAILED : jsstring := Eval vm_compute in
  js "すべてのOCR方法が失敗しました".

(** [extractText(imageData, options)].  [local] and [gemini] are what the two
    engines yield on this image when they are called: the text of the
    result, or the error thrown.  The text of the local engine may be absent
    or not a string; [extractTextWithGemini] returns a string.  The first
    component lists the engines called, in order. *)
Definition extractText (m : Manager) (fieldType : option jsstring)
    (local : result Readable.ErrorValue (option jsstring))
    (gemini : result Readable.ErrorValue jsstring)
    : list Call * result Readable.ErrorValue Final :=
  let tried := useLocalLLM m && localLLMReady m in
  let finalResult :=
    if tried then
      match local with
      | Ok text =>
          if isValidResult text fieldType
          then Some {| text := text; usedMethod := LocalLLM |}
          else None
      | Throw _ => None
      end
    else None in
  let calls := if tried then [CallLocal] else [] in
  match finalResult with
  | Some r => (calls, Ok r)
  | None =>
      if fallbackToGemini m then
        match gemini with
        | Ok text =>
            (calls ++ [CallGemini],
             Ok {| text := Some text; usedMethod := GeminiAPI |})
        | Throw error => (calls ++ [CallGemini], Throw error)
        end
      else (calls, Throw (Readable.newError ALL_FAILED))
  end.

(** One entry of the usage statistics. *)
Record Stat : Type := {
  timestamp : Z;
  method : Method;
  processingTime : Z
}.

(** The callback of [updateUsageStats]: what is written back to the session
    storage, given what it held. *)
Definition updateUsageStats (stats : Stat) (currentStats : list Stat) : list Stat :=
  let currentStats := currentStats ++ [stats] in
  if 100 <? length currentStats
  then skipn (length currentStats - 100) currentStats
  else currentStats.

End Hybrid.

(** ** The popup: sending a message to the background script *)

Module Popup.

Section Send.

Variable Response : Type.

(** What one attempt runs into. *)
Inductive Attempt : Type :=
| NoRuntime                       (* [chrome.runtime.sendMessage] is missing *)
| PingFails                       (* the ping is rejected *)
| SendFails (message : jsstring)  (* the send is rejected with this message *)
| Responds (response : Response).

Inductive Action : Type :=
| Ping
| Send
| Wait (ms : N).

Inductive Result : Type :=
| Returned (response : Response)
| Thrown (message : jsstring)
| ReturnedUndefined.              (* the loop ended without an attempt *)

Definition NO_API : jsstring := Eval vm_compute in js "Chrome拡張APIが利用できません".
Definition CANNOT_CONNECT : jsstring := Eval vm_compute in
  js "Background Scriptに接続できません。拡張機能を再読み込みしてください。".
Definition CONNECTION_FAILED : jsstring := Eval vm_compute in
  js "Background scriptとの接続に失敗しました。拡張機能を再読み込みしてください。".
Definition NO_ANSWER : jsstring := Eval vm_compute in
  js "Background scriptが応答しません。拡張機能を再読み込みするか、ブラウザを再起動してください。".

(** [userFriendlyMessage] of the last attempt *)
Definition userFriendlyMessage (message : jsstring) : jsstring :=
  if includes (js "Could not establish connection") message
  then CONNECTION_FAILED
  else if includes (js "Receiving end does not exist") message
  then NO_ANSWER
  else message.

(** The [for] loop from [attempt] on, with [remaining] iterations left;
    [env] gives what the n-th attempt runs into. *)
Fixpoint attempts (remaining attempt retryCount : nat) (env : nat -> Attempt)
    : list Action * Result :=
  match remaining with
  | O => ([], ReturnedUndefined)
  | S remaining' =>
      let next := attempts remaining' (S attempt) retryCount env in
      let failed (done : list Action) (message : jsstring) :=
        if attempt =? retryCount
        then (done, Thrown (userFriendlyMessage message))
        else (done ++ Wait (1000 * 2 ^ N.of_nat (attempt - 1)) :: fst next,
              snd next) in
      match env attempt with
      | NoRuntime => failed [] NO_API
      | PingFails =>
          if attempt <? retryCount
          then (Ping :: Wait (1000 * N.of_nat attempt) :: fst next, snd next)
          else failed [Ping] CANNOT_CONNECT
      | SendFails message => failed [Ping; Send] message
      | Responds response => ([Ping; Send], Returned response)
      end
  end.

(** [sendMessageSafely(message, timeoutMs, retryCount)] *)
Definition sendMessageSafely (retryCount : nat) (env : nat -> Attempt)
    : list Action * Result :=
  attempts retryCount 1 retryCount env.

Definition isSend (a : Action) : bool :=
  match a with Send => true | _ => false end.

Definition waited (a : Action) : N :=
  match a with Wait ms => ms | _ => 0%N end.

(** The time the run spends in its waits. *)
Definition totalWait (acts : list Action) : N :=
  fold_right (fun a acc => (waited a + acc)%N) 0%N acts.

(** The message of the error an attempt ends with, if it fails. *)
Definition failure (a : Attempt) : option jsstring :=
  match a with
  | NoRuntime => Some NO_API
  | PingFails => Some CANNOT_CONNECT
  | SendFails message => Some message
  | Responds _ => None
  end.

End Send.

Arguments NoRuntime {Response}.
Arguments PingFails {Response}.
Arguments SendFails {Response} message.
Arguments Responds {Response} response.
Arguments Returned {Response} response.
Arguments Thrown {Response} message.
Arguments ReturnedUndefined {Response}.

(** [Math.pow(2, attempt - 1)] *)
Definition backoff (attempt : nat) : N := (2 ^ N.of_nat (attempt - 1))%N.

(** [ErrorTracker.addError]: the list of entries after the call. *)
Definition maxErrors : nat := 50.

Definition addError {Entry : Type} (errorEntry : Entry) (errors : list Entry)
    : list Entry :=
  let errors := errorEntry :: errors in
  if maxErrors <? length errors then firstn maxErrors errors else errors.

End Popup.

(** Sample attempts: the ping fails twice, the third attempt is answered. *)
Definition sampleAttempts (n : nat) : Popup.Attempt N :=
  if n <? 3 then Popup.PingFails else Popup.Responds 7%N.

(** ** The prompts *)

Module Prompt.

(** [language === 'ja' ? '日本語' : language === 'en' ? '英語' : '複数言語'] *)
Definition languageName (language : option jsstring) : jsstring :=
  match language with
  | Some l =>
      if streqb l (js "ja") then js "日本語"
      else if streqb l (js "en") then js "英語"
      else js "複数言語"
  | None => js "複数言語"
  end.

Definition isAccurate := Pipeline.isAccurate.

(** The fifteen templates, by model branch (gemini-2.5-flash,
    gemini-2.0-flash-light, gemini-1.5-flash, gemini-2.0-flash, any other
    model) and by field (phone number, payee name, any other field). *)

Definition P25_PHONE : jsstring := Eval vm_compute in
  join [LF]
    [js "画像に含まれる電話番号を正確に抽出してください。以下の要件に従ってください：";
     js "- 数字、ハイフン、カンマのみを返してください（例: 03-1234-5678）";
     js "- 複数の電話番号があればカンマで区切って全て抽出してください";
     js "- Tで始まる13桁の事業者番号は無視してください";
     js "- 国際的な標準形式（+81）も適切に処理してください";
     js "- 余計な説明や文字は不要です"].

Definition P25_PAYEE : jsstring := Eval vm_compute in
  join [LF]
    [js "画像から以下を抽出してください:";
     js "1. 会社名: 法人格(株式会社など)と支店名を除いた正確な名称。ひらがな・カタカナ・漢字などを正確に区別し、複数ある場合はカンマ区切り。";
     js "2. 電話番号: ハイフン含む完全な番号。複数ある場合はカンマ区切り。T始まりの13桁事業者番号は除外。";
     [];
     js "形式:";
     js "会社名: [抽出結果]";
     js "電話番号: [抽出結果]";
     [];
     js "画像の解像度が低くても最大限正確に読み取ってください。検出できない項目は空欄にしてください。"].

Definition P25_TEXT (language mode : option jsstring) : jsstring :=
  js "以下の画像に含まれるテキストを抽出してください。言語は" ++ languageName language ++ join [LF]
    [js "です。";
     []]
  ++ (if isAccurate mode then js "文字の形や特徴を細かく観察し、文脈を考慮して正確に認識してください。特に小さな文字や低コントラストの文字も注意深く認識してください。似た文字（例：「り」と「リ」、「0」と「O」、「l」と「1」など）は文脈から判断して区別してください。" else [])
  ++ join [LF]
    [[];
     js "レイアウトは無視して純粋なテキストのみを出力してください。"].

Definition LIGHT_PHONE : jsstring := Eval vm_compute in
  join [LF]
    [js "画像内の電話番号を正確に抽出してください。数字、ハイフン、カンマのみを返してください。例: 03-1234-5678。";
     js "複数の電話番号があれば、カンマで区切って全て抽出してください。";
     js "余計な説明や文字は不要です。Tで始まる13桁の事業者番号は無視してください。";
     js "国際的な標準形式（+81）も適切に処理してください。"].

Definition LIGHT_PAYEE : jsstring := Eval vm_compute in
  join [LF]
    [js "画像から以下を抽出してください:";
     js "1. 会社名: 法人格(株式会社など)と支店名を除いた正確な名称。ひらがな・カタカナ・漢字などを正確に区別し、複数ある場合はカンマ区切り。";
     js "2. 電話番号: ハイフン含む完全な番号。複数ある場合はカンマ区切り。T始まりの13桁事業者番号は除外。";
     [];
     js "形式:";
     js "会社名: [抽出結果]";
     js "電話番号: [抽出結果]";
     [];
     js "画像の解像度が低くても最大限正確に読み取ってください。検出できない項目は空欄にしてください。"].

Definition LIGHT_TEXT (language mode : option jsstring) : jsstring :=
  js "以下の画像に含まれるテキストを抽出してください。言語は" ++ languageName language ++ join [LF]
    [js "です。";
     js "文字の形や特徴を細かく観察し、文脈を考慮して正確に認識してください。特に小さな文字や低コントラストの文字も注意深く認識してください。";
     js "似た文字（例：「り」と「リ」、「0」と「O」、「l」と「1」など）は文脈から判断して区別してください。";
     js "レイアウトは無視して純粋なテキストのみを出力してください。"].

Definition P15_PHONE : jsstring := Eval vm_compute in
  join [LF]
    [js "画像内の電話番号を正確に抽出してください。数字、ハイフン、カンマのみを返してください。例: 03-1234-5678。";
     js "複数の電話番号があれば、カンマで区切って全て抽出してください。";
     js "余計な説明や文字は不要です。Tで始まる13桁の事業者番号は無視してください。";
     js "国際的な標準形式（+81）も適切に処理してください。"].

Definition P15_PAYEE : jsstring := Eval vm_compute in
  join [LF]
    [js "画像から以下を抽出してください:";
     js "1. 会社名: 法人格(株式会社など)と支店名を除いた正確な名称。ひらがな・カタカナ・漢字などを正確に区別し、複数ある場合はカンマ区切り。";
     js "2. 電話番号: ハイフン含む完全な番号。複数ある場合はカンマ区切り。T始まりの13桁事業者番号は除外。";
     [];
     js "形式:";
     js "会社名: [抽出結果]";
     js "電話番号: [抽出結果]";
     [];
     js "画像の解像度が低くても最大限正確に読み取ってください。検出できない項目は空欄にしてください。"].

Definition P15_TEXT (language mode : option jsstring) : jsstring :=
  js "以下の画像に含まれるテキストを抽出してください。言語は" ++ languageName language ++ join [LF]
    [js "です。";
     js "文字の形や特徴を細かく観察し、文脈を考慮して正確に認識してください。特に小さな文字や低コントラストの文字も注意深く認識してください。";
     js "似た文字（例：「り」と「リ」、「0」と「O」、「l」と「1」など）は文脈から判断して区別してください。";
     js "レイアウトは無視して純粋なテキストのみを出力してください。"].

Definition P20_PHONE : jsstring := Eval vm_compute in
  js "画像に含まれる電話番号のみを正確に抽出し、複数候補があるときはカンマで区切り、数字、ハイフン、カンマのみを返してください。例: 03-1234-5678。それ以外の文字や説明は不要です。Tで始まる13桁の事業者番号は無視してください。".

Definition P20_PAYEE : jsstring := Eval vm_compute in
  join [LF]
    [js "画像から以下を抽出してください:";
     js "1. 会社名: 法人格(株式会社など)と支店名を除いた正確な名称。ひらがな・カタカナ・漢字などを正確に区別し、複数ある場合はカンマ区切り。";
     js "2. 電話番号: ハイフン含む完全な番号。複数ある場合はカンマ区切り。T始まりの13桁事業者番号は除外。";
     [];
     js "形式:";
     js "会社名: [抽出結果]";
     js "電話番号: [抽出結果]";
     [];
     js "検出できない項目は空欄にしてください。"].

Definition P20_TEXT (language mode : option jsstring) : jsstring :=
  js "以下の画像に含まれるテキストを抽出してください。言語は" ++ languageName language ++ join [LF]
    [js "です。";
     []]
  ++ (if isAccurate mode then js "文字の形や特徴を細かく観察し、文脈を考慮して正確に認識してください。特に似た文字（例：「り」と「リ」、「0」と「O」）を区別してください。" else [])
  ++ join [LF]
    [[];
     js "レイアウトは無視して純粋なテキストのみを出力してください。"].

Definition OTHER_PHONE : jsstring := Eval vm_compute in
  js "画像に含まれる電話番号のみを正確に抽出し、複数候補があるときはカンマで区切り、数字、ハイフン、カンマのみを返してください。例: 03-1234-5678。それ以外の文字や説明は不要です。Tで始まる13桁の事業者番号は無視してください。".

Definition OTHER_PAYEE : jsstring := Eval vm_compute in
  join [LF]
    [js "画像から以下を抽出してください:";
     js "1. 会社名: 法人格(株式会社など)と支店名を除いた正確な名称。複数ある場合はカンマ区切り。";
     js "2. 電話番号: ハイフン含む完全な番号。複数ある場合はカンマ区切り。T始まりの13桁事業者番号は除外。";
     [];
     js "形式:";
     js "会社名: [抽出結果]";
     js "電話番号: [抽出結果]";
     [];
     js "検出できない項目は空欄にしてください。"].

Definition OTHER_TEXT (language mode : option jsstring) : jsstring :=
  js "以下の画像に含まれるテキストを抽出してください。言語は" ++ languageName language ++ join [LF]
    [js "です。";
     []]
  ++ (if isAccurate mode then js "文字の形や特徴を細かく観察し、文脈を考慮して正確に認識してください。特に似た文字（例：「り」と「リ」、「0」と「O」）を区別してください。" else [])
  ++ join [LF]
    [[];
     js "純粋に認識されたテキストのみを出力し、余計な説明は不要です。"].

(** [fieldType === name] *)
Definition isField (fieldType : option jsstring) (name : jsstring) : bool :=
  match fieldType with
  | Some f => streqb f name
  | None => false
  end.

Definition getPromptForModel (model : jsstring)
    (language mode fieldType : option jsstring) : jsstring :=
  let phone := isField fieldType (js "phone-number") in
  let payee := isField fieldType (js "payee-name") in
  if streqb model (js "gemini-2.5-flash") then
    if phone then P25_PHONE else if payee then P25_PAYEE
    else P25_TEXT language mode
  else if streqb model (js "gemini-2.0-flash-light") then
    if phone then LIGHT_PHONE else if payee then LIGHT_PAYEE
    else LIGHT_TEXT language mode
  else if streqb model (js "gemini-1.5-flash") then
    if phone then P15_PHONE else if payee then P15_PAYEE
    else P15_TEXT language mode
  else if streqb model (js "gemini-2.0-flash") then
    if phone then P20_PHONE else if payee then P20_PAYEE
    else P20_TEXT language mode
  else
    if phone then OTHER_PHONE else if payee then OTHER_PAYEE
    else OTHER_TEXT language mode.

(** The two lines of the answer format, as the payee-name prompts give
    them. *)
Definition FORMAT_LINES : jsstring := Eval vm_compute in
  join [LF] [js "会社名: [抽出結果]"; js "電話番号: [抽出結果]"].

End Prompt.

(** ** The phone-number candidates of the streamed handler *)

(** [/[,、;]/] *)
Definition isCandidateSeparator (c : N) : bool :=
  ((c =? COMMA) || (c =? IDEO_COMMA) || (c =? cu ";"))%N.

(** The list [phoneNumbers] that [processPhoneNumber] offers in the
    dropdown; no list is built for an empty text. *)
Definition phoneCandidates (phoneText : jsstring) : list jsstring :=
  if isEmpty phoneText then []
  else if existsb isCandidateSeparator phoneText then
    filter (fun num => negb (isEmpty num) && existsb isDigit num)
           (map trim (split isCandidateSeparator phoneText))
  else [phoneText].

(** ** Pixel and size helpers *)

Local Open Scope Q_scope.

(** [clamp(value)] on a finite number: [Math.round] rounds half up. *)
Definition clamp (value : Q) : Z :=
  Z.max 0 (Z.min 255 (Qfloor (value + (1 # 2)))).

(** [getDataSize(dataUrl)] *)
Definition getDataSize (dataUrl : jsstring) : Q :=
  if isEmpty dataUrl then 0 else estimateMB dataUrl.

Local Close Scope Q_scope.

(** A backend that returns a blank text. *)
Definition blankBackend (_ : Value) (_ : Pipeline.ExtractOptions)
    : result Readable.ErrorValue Pipeline.OcrResult :=
  Ok {| Pipeline.text := js "  ";
        Pipeline.confidence := (95 # 100)%Q;
        Pipeline.imageCompressed := false |}.

Definition phoneOptions : Pipeline.Options :=
  {| Pipeline.language := Some (js "ja"); Pipeline.mode := Some (js "accurate");
     Pipeline.fieldType := Some (js "phone-number");
     Pipeline.maxDimension := None; Pipeline.quality := None;
     Pipeline.rotation := None; Pipeline.isQuarterRotated := false |}.

(** * Properties *)

Example js_literal : js "会社名:" = [20250; 31038; 21517; 58]%N.
Proof. reflexivity. Qed.

Example fmt_tokyo : formatPhoneNumber (js "0312345678") = js "03-1234-5678".
Proof. reflexivity. Qed.
Example fmt_mobile : formatPhoneNumber (js "09012345678") = js "090-1234-5678".
Proof. reflexivity. Qed.
Example fmt_twelve : formatPhoneNumber (js "123456789012") = [].
Proof. reflexivity. Qed.
Example fmt_free : formatPhoneNumber (js "0120123456") = js "0120-12-3456".
Proof. reflexivity. Qed.
Example fmt_pass : formatPhoneNumber (js "0901-234-5678") = js "0901-234-5678".
Proof. reflexivity. Qed.

(** ** Facts about the string primitives *)

Lemma takeWhile_dropWhile (f : N -> bool) (s : jsstring) :
  takeWhile f s ++ dropWhile f s = s.
Proof.
  induction s as [|c s IH]; simpl; [reflexivity|].
  destruct (f c); simpl; [now rewrite IH | reflexivity].
Qed.

Lemma takeWhile_forallb (f : N -> bool) (s : jsstring) :
  forallb f (takeWhile f s) = true.
Proof.
  induction s as [|c s IH]; simpl; [reflexivity|].
  destruct (f c) eqn:E; simpl; [now rewrite E | reflexivity].
Qed.

Lemma takeWhile_app_stop (f : N -> bool) (a : jsstring) (c : N) (r : jsstring) :
  forallb f a = true -> f c = false ->
  takeWhile f (a ++ c :: r) = a /\ dropWhile f (a ++ c :: r) = c :: r.
Proof.
  intros Ha Hc. induction a as [|x a IH]; simpl in *.
  - now rewrite Hc.
  - apply andb_true_iff in Ha as [Hx Ha]. rewrite Hx.
    destruct (IH Ha) as [-> ->]. now split.
Qed.

Lemma takeWhile_all (f : N -> bool) (a : jsstring) :
  forallb f a = true -> takeWhile f a = a /\ dropWhile f a = [].
Proof.
  induction a as [|x a IH]; simpl; [now split|].
  intros H. apply andb_true_iff in H as [Hx Ha]. rewrite Hx.
  destruct (IH Ha) as [-> ->]. now split.
Qed.

Lemma filter_all (f : N -> bool) (a : jsstring) :
  forallb f a = true -> filter f a = a.
Proof.
  induction a as [|x a IH]; simpl; [reflexivity|].
  intros H. apply andb_true_iff in H as [Hx Ha]. now rewrite Hx, IH.
Qed.

Lemma forallb_filter (f : N -> bool) (s : jsstring) :
  forallb f (filter f s) = true.
Proof.
  induction s as [|c s IH]; simpl; [reflexivity|].
  destruct (f c) eqn:E; simpl; [now rewrite E | assumption].
Qed.

Lemma includes_char (c : N) (s : jsstring) :
  includes [c] s = existsb (N.eqb c) s.
Proof.
  induction s as [|x s IH]; simpl; [reflexivity|].
  now rewrite IH, andb_true_r.
Qed.

Lemma HYPHEN_not_digit : isDigit HYPHEN = false.
Proof. reflexivity. Qed.

Lemma filter_digit_no_hyphen (s : jsstring) :
  filter isDigit (filter (fun c => negb (c =? HYPHEN)%N) s) = filter isDigit s.
Proof.
  induction s as [|c s IH]; simpl; [reflexivity|].
  destruct (N.eqb_spec c HYPHEN) as [->|Hne]; simpl.
  - now rewrite IH.
  - now rewrite IH.
Qed.

(** The digits that [formatPhoneNumber] works on once the hyphenated shape
    has been ruled out. *)
Lemma formatPhoneNumber_digits (s : jsstring) :
  s <> [] ->
  length (filter isDigit s) <= 11 ->
  includes [HYPHEN] s && testHyphenated s = false ->
  formatPhoneNumber s = formatByLength (filter isDigit s).
Proof.
  intros Hne Hlen Hshape. unfold formatPhoneNumber.
  destruct s as [|c s]; [congruence|]. cbn [isEmpty].
  replace (11 <? length (filter isDigit (c :: s))) with false
    by (symmetry; apply Nat.ltb_ge; exact Hlen).
  rewrite Hshape.
  destruct (includes [HYPHEN] (c :: s));
    [now rewrite filter_digit_no_hyphen | reflexivity].
Qed.

(** What the test for the hyphenated shape accepts. *)
Lemma testHyphenated_shape (s : jsstring) :
  testHyphenated s = true ->
  exists a b c,
    s = a ++ HYPHEN :: b ++ HYPHEN :: c /\
    forallb isDigit a = true /\ forallb isDigit b = true /\
    forallb isDigit c = true /\
    2 <= length a <= 4 /\ 2 <= length b <= 4 /\ length c = 4.
Proof.
  unfold testHyphenated, digitRun. intros H.
  destruct ((2 <=? length (takeWhile isDigit s)) &&
            (length (takeWhile isDigit s) <=? 4)) eqn:E1; [|discriminate].
  destruct (dropWhile isDigit s) as [|c1 r1] eqn:D1; [discriminate|].
  apply andb_true_iff in H as [Hc1 H]. apply N.eqb_eq in Hc1. subst c1.
  destruct ((2 <=? length (takeWhile isDigit r1)) &&
            (length (takeWhile isDigit r1) <=? 4)) eqn:E2; [|discriminate].
  destruct (dropWhile isDigit r1) as [|c2 r2] eqn:D2; [discriminate|].
  apply andb_true_iff in H as [Hc2 H]. apply N.eqb_eq in Hc2. subst c2.
  destruct ((4 <=? length (takeWhile isDigit r2)) &&
            (length (takeWhile isDigit r2) <=? 4)) eqn:E3; [|discriminate].
  destruct (dropWhile isDigit r2) as [|] eqn:D3; [|discriminate].
  exists (takeWhile isDigit s), (takeWhile isDigit r1), (takeWhile isDigit r2).
  apply andb_true_iff in E1 as [E1a E1b], E2 as [E2a E2b], E3 as [E3a E3b].
  apply Nat.leb_le in E1a, E1b, E2a, E2b, E3a, E3b.
  repeat split; try apply takeWhile_forallb; try lia.
  rewrite <- (takeWhile_dropWhile isDigit s) at 1. rewrite D1. f_equal. f_equal.
  rewrite <- (takeWhile_dropWhile isDigit r1) at 1. rewrite D2. f_equal. f_equal.
  rewrite <- (takeWhile_dropWhile isDigit r2) at 1. now rewrite D3, app_nil_r.
Qed.

Lemma testHyphenated_build (a b c : jsstring) :
  forallb isDigit a = true -> forallb isDigit b = true ->
  forallb isDigit c = true ->
  2 <= length a <= 4 -> 2 <= length b <= 4 -> length c = 4 ->
  testHyphenated (a ++ HYPHEN :: b ++ HYPHEN :: c) = true.
Proof.
  intros Ha Hb Hc La Lb Lc. unfold testHyphenated, digitRun.
  destruct (takeWhile_app_stop isDigit a HYPHEN (b ++ HYPHEN :: c) Ha HYPHEN_not_digit)
    as [-> ->].
  replace ((2 <=? length a) && (length a <=? 4)) with true
    by (symmetry; apply andb_true_iff; split; apply Nat.leb_le; lia).
  rewrite N.eqb_refl. cbn [andb].
  destruct (takeWhile_app_stop isDigit b HYPHEN c Hb HYPHEN_not_digit) as [-> ->].
  replace ((2 <=? length b) && (length b <=? 4)) with true
    by (symmetry; apply andb_true_iff; split; apply Nat.leb_le; lia).
  rewrite N.eqb_refl. cbn [andb].
  destruct (takeWhile_all isDigit c Hc) as [-> ->].
  now rewrite Lc.
Qed.

Lemma filter_digit_app_hyphen (a r : jsstring) :
  filter isDigit (a ++ HYPHEN :: r) = filter isDigit a ++ filter isDigit r.
Proof. now rewrite filter_app. Qed.

Lemma testHyphenated_digits (s : jsstring) :
  testHyphenated s = true -> 8 <= length (filter isDigit s).
Proof.
  intros H. destruct (testHyphenated_shape s H)
    as (a & b & c & -> & Ha & Hb & Hc & La & Lb & Lc).
  rewrite !filter_digit_app_hyphen, !length_app, !filter_all by assumption. lia.
Qed.

Lemma replace3_digits (i j k : nat) (d : jsstring) :
  forallb isDigit d = true -> length d = i + j + k ->
  replace3 i j k d = hyphenate3 i j d.
Proof.
  intros Hd Hl. unfold replace3. rewrite Hd, Hl, Nat.eqb_refl. reflexivity.
Qed.

Lemma replace2_digits (i j : nat) (d : jsstring) :
  forallb isDigit d = true -> length d = i + j ->
  replace2 i j d = hyphenate2 i d.
Proof.
  intros Hd Hl. unfold replace2. rewrite Hd, Hl, Nat.eqb_refl. reflexivity.
Qed.

Lemma testTenEleven_digits (d : jsstring) :
  forallb isDigit d = true ->
  testTenEleven d = (10 <=? length d) && (length d <=? 11).
Proof. intros Hd. unfold testTenEleven. now rewrite Hd. Qed.

(** The prefix table of the 10-digit branch, with the formats written out. *)
Lemma formatByLength_10 (d : jsstring) :
  forallb isDigit d = true -> length d = 10 ->
  formatByLength d =
    if startsWith (js "03") d || startsWith (js "06") d || startsWith (js "04") d
    then hyphenate3 2 4 d
    else if startsWith (js "052") d || startsWith (js "072") d
            || startsWith (js "075") d || startsWith (js "078") d
            || startsWith (js "082") d || startsWith (js "092") d
    then hyphenate3 3 3 d
    else if startsWith (js "0120") d then hyphenate3 4 2 d
    else if startsWith (js "0") d then
      if testZeroFourToNine d then hyphenate3 3 3 d else hyphenate3 2 4 d
    else hyphenate3 3 3 d.
Proof.
  intros Hd Hl. unfold formatByLength.
  rewrite (testTenEleven_digits d Hd), Hl. cbn [Nat.leb Nat.eqb andb].
  rewrite !(replace3_digits 2 4 4 d Hd), !(replace3_digits 3 3 4 d Hd),
    !(replace3_digits 4 2 4 d Hd) by (rewrite Hl; reflexivity).
  destruct (startsWith (js "03") d), (startsWith (js "06") d),
    (startsWith (js "04") d); reflexivity.
Qed.

Lemma formatByLength_11 (d : jsstring) :
  forallb isDigit d = true -> length d = 11 ->
  formatByLength d = hyphenate3 3 4 d.
Proof.
  intros Hd Hl. unfold formatByLength.
  rewrite (testTenEleven_digits d Hd), Hl. cbn [Nat.leb Nat.eqb andb].
  rewrite (replace3_digits 3 4 4 d Hd) by (rewrite Hl; reflexivity).
  now destruct (startsWith (js "0") d).
Qed.

Lemma formatByLength_8 (d : jsstring) :
  forallb isDigit d = true -> length d = 8 ->
  formatByLength d = hyphenate2 4 d.
Proof.
  intros Hd Hl. unfold formatByLength.
  rewrite (testTenEleven_digits d Hd), Hl. cbn [Nat.leb Nat.eqb andb].
  now rewrite (replace2_digits 4 4 d Hd) by (rewrite Hl; reflexivity).
Qed.

Lemma formatByLength_9 (d : jsstring) :
  forallb isDigit d = true -> length d = 9 ->
  formatByLength d = hyphenate3 3 3 d.
Proof.
  intros Hd Hl. unfold formatByLength.
  rewrite (testTenEleven_digits d Hd), Hl. cbn [Nat.leb Nat.eqb andb].
  now rewrite (replace3_digits 3 3 3 d Hd) by (rewrite Hl; reflexivity).
Qed.

Lemma formatByLength_other (d : jsstring) :
  forallb isDigit d = true -> length d <= 7 \/ 12 <= length d ->
  formatByLength d = d.
Proof.
  intros Hd Hl. unfold formatByLength.
  rewrite (testTenEleven_digits d Hd).
  destruct (Nat.leb_spec 10 (length d)), (Nat.leb_spec (length d) 11);
    cbn [andb]; try lia;
  destruct (Nat.eqb_spec (length d) 8), (Nat.eqb_spec (length d) 9);
    try lia; reflexivity.
Qed.

Lemma formatPhoneNumber_too_long (s : jsstring) :
  11 < length (filter isDigit s) -> formatPhoneNumber s = [].
Proof.
  intros H. unfold formatPhoneNumber. destruct s as [|c s]; [reflexivity|].
  cbn [isEmpty]. apply Nat.ltb_lt in H. now rewrite H.
Qed.

Lemma formatPhoneNumber_pass (s : jsstring) :
  length (filter isDigit s) <= 11 ->
  includes [HYPHEN] s && testHyphenated s = true ->
  formatPhoneNumber s = s.
Proof.
  intros Hl H. unfold formatPhoneNumber. destruct s as [|c s]; [reflexivity|].
  cbn [isEmpty]. apply Nat.ltb_ge in Hl. now rewrite Hl, H.
Qed.

Lemma formatPhoneNumber_reformat (s : jsstring) :
  length (filter isDigit s) <= 11 ->
  includes [HYPHEN] s && testHyphenated s = false ->
  formatPhoneNumber s = formatByLength (filter isDigit s).
Proof.
  intros Hl H. destruct s as [|c s]; [reflexivity|].
  apply formatPhoneNumber_digits; [discriminate | assumption | assumption].
Qed.

Lemma hyphenate3_nonempty (i j : nat) (d : jsstring) : hyphenate3 i j d <> [].
Proof. unfold hyphenate3. now destruct (firstn i d). Qed.

Lemma hyphenate2_nonempty (i : nat) (d : jsstring) : hyphenate2 i d <> [].
Proof. unfold hyphenate2. now destruct (firstn i d). Qed.

Lemma formatByLength_nonempty (d : jsstring) :
  forallb isDigit d = true -> d <> [] -> formatByLength d <> [].
Proof.
  intros Hd Hne.
  assert (C : length d <= 7 \/ length d = 8 \/ length d = 9 \/ length d = 10
              \/ length d = 11 \/ 12 <= length d) by lia.
  destruct C as [C|[C|[C|[C|[C|C]]]]].
  - now rewrite formatByLength_other by auto.
  - rewrite formatByLength_8 by auto. apply hyphenate2_nonempty.
  - rewrite formatByLength_9 by auto. apply hyphenate3_nonempty.
  - rewrite formatByLength_10 by auto.
    repeat match goal with
           | |- context [if ?b then _ else _] => destruct b
           end; apply hyphenate3_nonempty.
  - rewrite formatByLength_11 by auto. apply hyphenate3_nonempty.
  - now rewrite formatByLength_other by auto.
Qed.

Lemma digits_no_hyphen (s : jsstring) :
  includes [HYPHEN] (filter isDigit s) = false.
Proof.
  rewrite includes_char.
  induction s as [|c s IH]; [reflexivity|]. cbn [filter].
  destruct (isDigit c) eqn:D; [|exact IH]. cbn [existsb]. rewrite IH.
  destruct (N.eqb_spec HYPHEN c) as [<-|]; [discriminate | reflexivity].
Qed.

(** Which inputs come back as the empty string. *)
Lemma formatPhoneNumber_empty_iff (s : jsstring) :
  formatPhoneNumber s = [] <->
  filter isDigit s = [] \/ 11 < length (filter isDigit s).
Proof.
  split.
  - intros H.
    destruct (Nat.le_gt_cases (length (filter isDigit s)) 11) as [Hl|Hl];
      [left | now right].
    destruct (includes [HYPHEN] s && testHyphenated s) eqn:E.
    + rewrite formatPhoneNumber_pass in H by assumption. now subst s.
    + rewrite formatPhoneNumber_reformat in H by assumption.
      destruct (filter isDigit s) as [|c d] eqn:F; [reflexivity|].
      exfalso. revert H. apply formatByLength_nonempty; [|discriminate].
      rewrite <- F. apply forallb_filter.
  - intros [H|H]; [|now apply formatPhoneNumber_too_long].
    destruct (includes [HYPHEN] s && testHyphenated s) eqn:E.
    + apply andb_true_iff in E as [_ E]. apply testHyphenated_digits in E.
      rewrite H in E. simpl in E. lia.
    + rewrite formatPhoneNumber_reformat, H;
        [reflexivity | rewrite H; simpl; lia | assumption].
Qed.

(** C10: an input with at most seven digits comes back as its digit string,
    with no hyphen inserted; the result is empty only when the input holds no
    digit, and an input that holds a digit is answered by the empty string
    only when it has more than eleven of them. *)
Theorem formatPhoneNumber_short (s : jsstring) :
  length (filter isDigit s) <= 7 ->
  formatPhoneNumber s = filter isDigit s /\
  includes [HYPHEN] (formatPhoneNumber s) = false /\
  (filter isDigit s <> [] -> formatPhoneNumber s <> []) /\
  (forall t : jsstring, filter isDigit t <> [] ->
     (formatPhoneNumber t = [] <-> 11 < length (filter isDigit t))).
Proof.
  intros Hl.
  assert (E : includes [HYPHEN] s && testHyphenated s = false).
  { destruct (testHyphenated s) eqn:T; [|apply andb_false_r].
    apply testHyphenated_digits in T. lia. }
  assert (R : formatPhoneNumber s = filter isDigit s).
  { rewrite formatPhoneNumber_reformat by (assumption || lia).
    apply formatByLength_other; [apply forallb_filter | now left]. }
  split; [exact R|]. split; [|split].
  - rewrite R. apply digits_no_hyphen.
  - now rewrite R.
  - intros t Ht. rewrite formatPhoneNumber_empty_iff. tauto.
Qed.

Lemma formatPhoneNumber_short_witness :
  length (filter isDigit (js "12-345")) <= 7 /\
  formatPhoneNumber (js "12-345") = js "12345".
Proof.
  assert (H : length (filter isDigit (js "12-345")) <= 7) by (vm_compute; lia).
  split; [exact H|].
  exact (proj1 (formatPhoneNumber_short (js "12-345") H)).
Defined.

Lemma startsWith_incompatible (p q d : jsstring) :
  startsWith p q = false -> startsWith q p = false ->
  startsWith p d = true -> startsWith q d = false.
Proof.
  revert q d. induction p as [|a p IH]; intros q d Hpq Hqp Hp;
    [discriminate|].
  destruct q as [|b q]; [discriminate|].
  destruct d as [|c d]; [reflexivity|]. simpl in *.
  apply andb_true_iff in Hp as [Hac Hp]. apply N.eqb_eq in Hac. subst c.
  destruct (N.eqb_spec a b) as [->|Hne].
  - rewrite N.eqb_refl in *. simpl in *. now apply IH.
  - replace (b =? a)%N with false by (symmetry; apply N.eqb_neq; congruence).
    reflexivity.
Qed.

(** A string that does not start with [q] starts with no extension of [q]. *)
Lemma startsWith_extends (p q d : jsstring) :
  startsWith q p = true -> startsWith q d = false -> startsWith p d = false.
Proof.
  revert p d. induction q as [|b q IH]; intros p d Hqp Hq; [discriminate|].
  destruct p as [|a p]; [discriminate|].
  destruct d as [|c d]; [reflexivity|]. simpl in *.
  apply andb_true_iff in Hqp as [Hba Hqp]. apply N.eqb_eq in Hba. subst a.
  destruct (b =? c)%N; [|reflexivity]. simpl in *. now apply IH.
Qed.

Ltac prefix_clash Hp :=
  repeat match goal with
         | |- context [startsWith ?q ?d] =>
             lazymatch type of Hp with
             | startsWith ?p d = true =>
                 rewrite (startsWith_incompatible p q d eq_refl eq_refl Hp)
             end
         end.

(** C1, as stated, fails on an input that already has the hyphenated shape:
    eleven digits written 4-3-4 come back as they are, not split 3-4-4. *)
Lemma formatPhoneNumber_eleven_not_344 :
  length (filter isDigit (js "0901-234-5678")) = 11 /\
  formatPhoneNumber (js "0901-234-5678") = js "0901-234-5678" /\
  formatPhoneNumber (js "0901-234-5678")
    <> hyphenate3 3 4 (filter isDigit (js "0901-234-5678")).
Proof. vm_compute. repeat split; discriminate. Qed.

(** C1 (amended): more than eleven digits give the empty string; an input of
    at most eleven digits that already has the shape
    [\d{2,4}-\d{2,4}-\d{4}] is returned unchanged; every other input is
    formatted from its digit string by digit count: ten digits by the prefix
    table, eleven digits 3-4-4, eight digits 4-4, nine digits 3-3-3. *)
Theorem formatPhoneNumber_by_digit_count (s : jsstring) :
  let d := filter isDigit s in
  (11 < length d -> formatPhoneNumber s = []) /\
  (length d <= 11 -> inShape s = true -> formatPhoneNumber s = s) /\
  (inShape s = false ->
     (length d = 10 ->
        (startsWith (js "03") d = true \/ startsWith (js "06") d = true
         \/ startsWith (js "04") d = true ->
           formatPhoneNumber s = hyphenate3 2 4 d) /\
        (startsWith (js "052") d = true \/ startsWith (js "072") d = true
         \/ startsWith (js "075") d = true \/ startsWith (js "078") d = true
         \/ startsWith (js "082") d = true \/ startsWith (js "092") d = true ->
           formatPhoneNumber s = hyphenate3 3 3 d) /\
        (startsWith (js "0120") d = true ->
           formatPhoneNumber s = hyphenate3 4 2 d) /\
        (startsWith (js "0") d = false ->
           formatPhoneNumber s = hyphenate3 3 3 d) /\
        (startsWith (js "0") d = true ->
         existsb (fun p => startsWith p d) tablePrefixes = false ->
           formatPhoneNumber s =
             if testZeroFourToNine d then hyphenate3 3 3 d
             else hyphenate3 2 4 d)) /\
     (length d = 11 -> formatPhoneNumber s = hyphenate3 3 4 d) /\
     (length d = 8 -> formatPhoneNumber s = hyphenate2 4 d) /\
     (length d = 9 -> formatPhoneNumber s = hyphenate3 3 3 d)) /\
  formatPhoneNumber (js "0312345678") = js "03-1234-5678" /\
  formatPhoneNumber (js "09012345678") = js "090-1234-5678" /\
  formatPhoneNumber (js "123456789012") = [].
Proof.
  intros d. subst d. split; [apply formatPhoneNumber_too_long|].
  split; [apply formatPhoneNumber_pass|].
  split; [|repeat split; reflexivity].
  intros Hs.
  assert (Hd : forallb isDigit (filter isDigit s) = true) by apply forallb_filter.
  set (d := filter isDigit s) in *.
  split; [intros Hl; split; [|split; [|split; [|split]]]
        | split; [|split]; intros Hl].
  - intros Hp. unfold d.
    rewrite formatPhoneNumber_reformat by (fold d; assumption || lia). fold d.
    rewrite formatByLength_10 by assumption.
    destruct Hp as [Hp|[Hp|Hp]]; rewrite Hp; now rewrite ?orb_true_r.
  - intros Hp. unfold d.
    rewrite formatPhoneNumber_reformat by (fold d; assumption || lia). fold d.
    rewrite formatByLength_10 by assumption.
    assert (E : startsWith (js "03") d = false /\ startsWith (js "06") d = false
                /\ startsWith (js "04") d = false).
    { repeat match type of Hp with
             | _ \/ _ => destruct Hp as [Hp|Hp]
             end;
        repeat split;
        (eapply startsWith_incompatible; [| |exact Hp]; reflexivity). }
    destruct E as (-> & -> & ->). cbn [orb].
    repeat match type of Hp with
           | _ \/ _ => destruct Hp as [Hp|Hp]
           end; rewrite Hp; now rewrite ?orb_true_r.
  - intros Hp. unfold d.
    rewrite formatPhoneNumber_reformat by (fold d; assumption || lia). fold d.
    rewrite formatByLength_10 by assumption.
    prefix_clash Hp. rewrite Hp. reflexivity.
  - intros Hp. unfold d.
    rewrite formatPhoneNumber_reformat by (fold d; assumption || lia). fold d.
    rewrite formatByLength_10 by assumption.
    repeat match goal with
           | |- context [startsWith ?p d] =>
               rewrite (startsWith_extends p (js "0") d eq_refl Hp)
           end.
    reflexivity.
  - intros H0 Hp. unfold d.
    rewrite formatPhoneNumber_reformat by (fold d; assumption || lia). fold d.
    rewrite formatByLength_10 by assumption.
    cbn [existsb tablePrefixes map] in Hp.
    repeat (apply orb_false_iff in Hp as [? Hp]).
    repeat match goal with
           | H : startsWith _ d = _ |- _ => rewrite H; clear H
           end.
    reflexivity.
  - unfold d.
    rewrite formatPhoneNumber_reformat by (fold d; assumption || lia). fold d.
    now apply formatByLength_11.
  - unfold d.
    rewrite formatPhoneNumber_reformat by (fold d; assumption || lia). fold d.
    now apply formatByLength_8.
  - unfold d.
    rewrite formatPhoneNumber_reformat by (fold d; assumption || lia). fold d.
    now apply formatByLength_9.
Qed.

(** ** The post-processor on the inputs the specification names *)

Example pp_denylist :
  postProcessOcrResult nfcKana (js "株式会社テスト, 支店") PayeeName = js "テスト".
Proof. vm_compute. reflexivity. Qed.

Example pp_halfwidth_voiced :
  postProcessOcrResult nfcKana (js "ｶﾞ") Freeform = js "ガ".
Proof. vm_compute. reflexivity. Qed.

Example pp_two_phones :
  postProcessOcrResult nfcKana (js "03-1234-5678, 090-1111-2222") PhoneNumber
  = js "03-1234-5678,090-1111-2222".
Proof. vm_compute. reflexivity. Qed.

Example pp_phonetic :
  postProcessOcrResult nfcKana (js "ｶﾀｶﾅ ヤマダ") Phonetic = js "かたかな やまだ".
Proof. vm_compute. reflexivity. Qed.

Example parse_both_lines :
  parseMultiFieldResult nfcKana
    (js "会社名: 株式会社テスト" ++ [LF] ++ js "電話番号: 0312345678")
  = {| payee_name := js "テスト"; phone_number := js "03-1234-5678" |}.
Proof. vm_compute. reflexivity. Qed.

Example pp_nested_denylist :
  postProcessOcrResult nfcKana (js "株式株式会社会社テスト") PayeeName
    = js "株式会社テスト" /\
  postProcessOcrResult nfcKana (js "株式会社テスト") PayeeName = js "テスト".
Proof. vm_compute. split; reflexivity. Qed.

(** ** The size guard *)

Lemma estimateMB_nonneg (dataUrl : jsstring) : (0 <= estimateMB dataUrl)%Q.
Proof.
  unfold estimateMB, Qdiv. apply Qmult_le_0_compat; [|discriminate].
  apply Qmult_le_0_compat; [|discriminate].
  unfold Qle; simpl. lia.
Qed.

(** The size the code estimates is the size of the specification: the part
    of the data URL that the code measures is its base64 payload. *)
Lemma split_head (sep : N -> bool) (s : jsstring) :
  nth 0 (split sep s) [] = takeWhile (fun c => negb (sep c)) s.
Proof.
  induction s as [|c s IH]; [reflexivity|]. cbn [split takeWhile].
  destruct (sep c); [reflexivity|]. cbn [negb]. rewrite <- IH.
  now destruct (split sep s).
Qed.

Lemma base64Part_payload (dataUrl : jsstring) :
  base64Part dataUrl = specPayload dataUrl.
Proof.
  unfold base64Part, specPayload.
  induction dataUrl as [|c s IH]; [reflexivity|].
  cbn [split dropWhile].
  replace (notComma c) with (negb (c =? COMMA)%N) by reflexivity.
  destruct (c =? COMMA)%N; cbn [negb tl nth].
  - exact (split_head (fun c => (c =? COMMA)%N) s).
  - rewrite <- IH. now destruct (split (fun c => (c =? COMMA)%N) s).
Qed.

Lemma specPayload_data_url (header body : jsstring) :
  forallb notComma header = true -> forallb notComma body = true ->
  specPayload (header ++ COMMA :: body) = body.
Proof.
  intros Hh Hb. unfold specPayload. induction header as [|c header IH].
  - cbn [app dropWhile]. replace (notComma COMMA) with false by reflexivity.
    cbn [tl]. now destruct (takeWhile_all notComma body Hb).
  - cbn [forallb] in Hh. apply andb_true_iff in Hh as [Hc Hh].
    cbn [app dropWhile]. rewrite Hc. exact (IH Hh).
Qed.

Lemma estimateMB_spec (dataUrl : jsstring) :
  (estimateMB dataUrl == specSizeMB (length (specPayload dataUrl)))%Q.
Proof.
  unfold estimateMB, specSizeMB. rewrite base64Part_payload.
  apply Qdiv_comp; [|reflexivity]. apply Qmult_comp; reflexivity.
Qed.

(** C7: a data URL is a header, a comma and a base64 payload, neither of
    which holds a comma.  When [(base64Length * 0.75) / (1024 * 1024)], with
    the length of the payload for [base64Length], is at most 15, the check
    returns that number (hence a value within 1% of it); when it is above 15
    the check throws the oversize error, which carries that number. *)
Theorem checkImageSize_estimate (header body : jsstring) :
  forallb notComma header = true -> forallb notComma body = true ->
  let dataUrl := header ++ COMMA :: body in
  let exact :=
    ((inject_Z (Z.of_nat (length body)) * (75 # 100))
     / inject_Z (1024 * 1024))%Q in
  ((exact <= 15 # 1)%Q ->
     exists sizeInMB,
       checkImageSize dataUrl = Ok sizeInMB /\
       (sizeInMB == exact)%Q /\
       (Qabs (sizeInMB - exact) <= (1 # 100) * exact)%Q) /\
  ((15 # 1 < exact)%Q ->
     exists sizeInMB,
       checkImageSize dataUrl = Throw (Oversize sizeInMB) /\
       (sizeInMB == exact)%Q).
Proof.
  intros Hh Hb dataUrl exact.
  assert (E : (estimateMB dataUrl == exact)%Q).
  { rewrite estimateMB_spec. unfold dataUrl.
    rewrite (specPayload_data_url header body Hh Hb). reflexivity. }
  assert (Hne : isEmpty dataUrl = false).
  { unfold dataUrl. now destruct header. }
  unfold checkImageSize. rewrite Hne. split; intros H.
  - exists (estimateMB dataUrl). split; [|split; [exact E|]].
    + replace (Qle_bool (estimateMB dataUrl) MAX_SIZE_MB) with true; [reflexivity|].
      symmetry. apply Qle_bool_iff. rewrite E. exact H.
    + rewrite E. setoid_replace (exact - exact)%Q with 0%Q by ring.
      simpl. apply Qmult_le_0_compat; [discriminate|].
      rewrite <- E. apply estimateMB_nonneg.
  - exists (estimateMB dataUrl). split; [|exact E].
    destruct (Qle_bool (estimateMB dataUrl) MAX_SIZE_MB) eqn:B; [|reflexivity].
    apply Qle_bool_iff in B. rewrite E in B. unfold MAX_SIZE_MB in B.
    exfalso. apply (Qlt_not_le _ _ H B).
Qed.

Lemma checkImageSize_estimate_witness :
  exists sizeInMB,
    checkImageSize (js "data:image/png;base64" ++ COMMA :: js "AAAA")
      = Ok sizeInMB /\
    (sizeInMB == 3 # 1048576)%Q.
Proof.
  destruct (proj1 (@checkImageSize_estimate (js "data:image/png;base64")
                     (js "AAAA") eq_refl eq_refl)) as (v & Hv & He & _).
  - vm_compute. discriminate.
  - exists v. split; [exact Hv|]. rewrite He. vm_compute. reflexivity.
Defined.

(** ** The compression ladder *)

Section LadderFacts.

Variable optimize : jsstring -> OptimizeOptions -> result SizeError jsstring.
Variable imageData : jsstring.
Variable targetSizeMB : Q.

Let optionsOf (steps : list (Q * Z)) : list OptimizeOptions :=
  map (fun p => ladderOptions (fst p) (snd p)) steps.

Lemma ladder_spec (steps : list (Q * Z)) :
  match snd (ladder optimize steps imageData targetSizeMB) with
  | Ok compressedImage =>
      exists k,
        k < length steps /\
        fst (ladder optimize steps imageData targetSizeMB)
          = firstn (S k) (optionsOf steps) /\
        (forall j, j < k ->
           forall o, nth_error (optionsOf steps) j = Some o ->
             stepMeets optimize imageData targetSizeMB o = false) /\
        (exists o, nth_error (optionsOf steps) k = Some o /\
                   optimize imageData o = Ok compressedImage) /\
        Qle_bool (estimateMB compressedImage) targetSizeMB = true
  | Throw e =>
      e = CompressionExhausted /\
      fst (ladder optimize steps imageData targetSizeMB) = optionsOf steps /\
      (forall o, In o (optionsOf steps) ->
         stepMeets optimize imageData targetSizeMB o = false)
  end.
Proof.
  induction steps as [|[q dim] rest IH].
  - simpl. repeat split. intros o [].
  - cbn [ladder optionsOf map fst snd].
    destruct (optimize imageData (ladderOptions q dim)) as [img|e] eqn:O.
    + destruct (Qle_bool (estimateMB img) targetSizeMB) eqn:B.
      * cbn [fst snd]. exists 0. repeat split.
        -- simpl. lia.
        -- intros j Hj. lia.
        -- exists (ladderOptions q dim). split; [reflexivity | exact O].
        -- exact B.
      * cbn [fst snd].
        destruct (snd (ladder optimize rest imageData targetSizeMB)) as [img'|e'].
        -- destruct IH as (k & Hk & Hc & Hf & (o & Ho & Hopt) & Hm).
           exists (S k). repeat split.
           ++ simpl. lia.
           ++ rewrite Hc. reflexivity.
           ++ intros [|j] Hj o' Ho'.
              ** simpl in Ho'. injection Ho' as <-. unfold stepMeets.
                 now rewrite O.
              ** apply (Hf j); [lia | exact Ho'].
           ++ exists o. split; [exact Ho | exact Hopt].
           ++ exact Hm.
        -- destruct IH as (-> & Hc & Hf). repeat split.
           ++ now rewrite Hc.
           ++ intros o [<-|Hin]; [unfold stepMeets; now rewrite O | now apply Hf].
    + cbn [fst snd].
      destruct (snd (ladder optimize rest imageData targetSizeMB)) as [img'|e'].
      * destruct IH as (k & Hk & Hc & Hf & (o & Ho & Hopt) & Hm).
        exists (S k). repeat split.
        -- simpl. lia.
        -- rewrite Hc. reflexivity.
        -- intros [|j] Hj o' Ho'.
           ++ simpl in Ho'. injection Ho' as <-. unfold stepMeets. now rewrite O.
           ++ apply (Hf j); [lia | exact Ho'].
        -- exists o. split; [exact Ho | exact Hopt].
        -- exact Hm.
      * destruct IH as (-> & Hc & Hf). repeat split.
        -- now rewrite Hc.
        -- intros o [<-|Hin]; [unfold stepMeets; now rewrite O | now apply Hf].
Qed.

End LadderFacts.

Lemma stepMeets_false_misses
    (optimize : jsstring -> OptimizeOptions -> result SizeError jsstring)
    (imageData : jsstring) (o : OptimizeOptions) :
  stepMeets optimize imageData (10 # 1) o = false ->
  missesTarget (optimize imageData o).
Proof.
  unfold stepMeets, missesTarget.
  destruct (optimize imageData o) as [img|e]; [|trivial].
  intros B. rewrite <- (estimateMB_spec img). apply Qnot_le_lt.
  intros H. apply Qle_bool_iff in H. congruence.
Qed.

(** C4: whatever the optimizer does, [compressImageToSize] with target 10
    calls it with the (quality, maxDimension) pairs (0.8,1400), (0.6,1200),
    (0.4,1000), (0.3,800), in that order and no further than the first step
    that meets the target; it returns the image of that step, whose base64
    payload times 0.75 is at most 10 MB, and throws the exhaustion error
    exactly when all four steps have been tried and each one threw or gave
    an image above 10 MB. *)
Theorem compressImageToSize_ladder
    (optimize : jsstring -> OptimizeOptions -> result SizeError jsstring)
    (imageData : jsstring) :
  let calls := fst (compressImageToSize optimize imageData (10 # 1)) in
  match snd (compressImageToSize optimize imageData (10 # 1)) with
  | Ok compressedImage =>
      exists k,
        k < 4 /\ map stepOf calls = firstn (S k) specLadder /\
        (forall j o, j < k -> nth_error calls j = Some o ->
           missesTarget (optimize imageData o)) /\
        (exists o, nth_error calls k = Some o /\
                   optimize imageData o = Ok compressedImage) /\
        (specSizeMB (length (specPayload compressedImage)) <= 10 # 1)%Q
  | Throw e =>
      e = CompressionExhausted /\ map stepOf calls = specLadder /\
      (forall o, In o calls -> missesTarget (optimize imageData o))
  end.
Proof.
  intros calls. subst calls. unfold compressImageToSize.
  pose proof (ladder_spec optimize imageData (10 # 1)
                (combine qualityLevels dimensionLimits)) as H.
  destruct (snd (ladder optimize (combine qualityLevels dimensionLimits)
                   imageData (10 # 1))) as [img|e].
  - destruct H as (k & Hk & Hc & Hf & (o & Hn & Ho) & Hm).
    change (length (combine qualityLevels dimensionLimits)) with 4 in Hk.
    change (map (fun p => ladderOptions (fst p) (snd p))
                (combine qualityLevels dimensionLimits)) with theLadder in *.
    exists k. split; [exact Hk|]. rewrite Hc. split; [|split; [|split]].
    + rewrite <- firstn_map. reflexivity.
    + intros j o' Hj Hn'. apply stepMeets_false_misses. apply (Hf j Hj o').
      rewrite nth_error_firstn in Hn'.
      destruct (Nat.ltb_spec j (S k)); [exact Hn' | lia].
    + exists o. split; [|exact Ho].
      rewrite nth_error_firstn.
      destruct (Nat.ltb_spec k (S k)); [exact Hn | lia].
    + apply Qle_bool_iff in Hm. now rewrite <- (estimateMB_spec img).
  - destruct H as (-> & Hc & Hf).
    change (map (fun p => ladderOptions (fst p) (snd p))
                (combine qualityLevels dimensionLimits)) with theLadder in *.
    split; [reflexivity|]. rewrite Hc. split; [reflexivity|].
    intros o Hin. apply stepMeets_false_misses. now apply Hf.
Qed.

Lemma compressImageToSize_ladder_witness :
  map stepOf
    (fst (compressImageToSize sampleOptimizer (js "data:image/png;base64,AAAA")
            (10 # 1)))
  = [(Some (8 # 10)%Q, Some 1400%Z); (Some (6 # 10)%Q, Some 1200%Z)] /\
  snd (compressImageToSize sampleOptimizer (js "data:image/png;base64,AAAA")
         (10 # 1))
  = Ok (js "data:image/jpeg;base64,AAAA").
Proof.
  pose proof (compressImageToSize_ladder sampleOptimizer
                (js "data:image/png;base64,AAAA")) as H.
  cbv zeta in H.
  destruct (compressImageToSize sampleOptimizer
              (js "data:image/png;base64,AAAA") (10 # 1))
    as [calls [img|e]] eqn:E; cbn [fst snd] in H |- *.
  - destruct H as (k & Hk & Hc & _ & (o & Hn & Ho) & _).
    vm_compute in E. injection E as <- <-. split; reflexivity.
  - vm_compute in E. discriminate E.
Defined.

(** ** The image optimizer *)

Section OptimizerFacts.

Variables Blob Bitmap Canvas : Type.
Variable fetchBlob : jsstring -> result jsstring Blob.
Variable createImageBitmap : Blob -> result jsstring Bitmap.
Variable draw : Bitmap -> OptimizeOptions -> result jsstring Canvas.
Variable canvasArea : Canvas -> Z.
Variable convertToBlob : Canvas -> Q -> result jsstring Blob.
Variable readAsDataURL : Blob -> result jsstring Value.

Let body := optimizeBody fetchBlob createImageBitmap draw canvasArea
              convertToBlob readAsDataURL.
Let optimize := optimizeImage fetchBlob createImageBitmap draw canvasArea
                  convertToBlob readAsDataURL.

(** The [try] block throws exactly when one of the browser calls throws. *)
Lemma optimizeBody_throws (s : jsstring) (options : OptimizeOptions) (e : jsstring) :
  body (Str s) options = Throw e ->
  fetchBlob s = Throw e
  \/ (exists blob, fetchBlob s = Ok blob /\ createImageBitmap blob = Throw e)
  \/ (exists img, draw img options = Throw e)
  \/ (exists canvas q, convertToBlob canvas q = Throw e)
  \/ (exists blob, readAsDataURL blob = Throw e).
Proof.
  unfold body, optimizeBody.
  destruct (isEmpty s || negb (startsWith (js "data:image/") s)); [discriminate|].
  destruct (fetchBlob s) as [blob|e1] eqn:F; cbn [bind];
    [|intros [= ->]; now left].
  destruct (createImageBitmap blob) as [img|e2] eqn:C; cbn [bind];
    [|intros [= ->]; right; left; now exists blob].
  destruct (draw img options) as [canvas|e3] eqn:D; cbn [bind];
    [|intros [= ->]; right; right; left; now exists img].
  match goal with
  | |- context [convertToBlob canvas ?q] =>
      destruct (convertToBlob canvas q) as [rb|e4] eqn:B; cbn [bind];
        [|intros [= ->]; right; right; right; left; now exists canvas, q]
  end.
  intros H. right; right; right; right. now exists rb.
Qed.

(** The optimizer never throws.  It hands back its argument when that is
    not a string or not a [data:image/] URL, and whenever the fetch, the
    decoding, the drawing, the encoding or the read of the result throws. *)
Lemma optimizeImage_never_throws (imageData : Value) (options : OptimizeOptions) :
  (exists v, optimize imageData options = Ok v) /\
  (forall e, body imageData options = Throw e ->
     optimize imageData options = Ok imageData) /\
  (forall tag, imageData = NotAString tag ->
     optimize imageData options = Ok imageData) /\
  (forall s, imageData = Str s -> startsWith (js "data:image/") s = false ->
     optimize imageData options = Ok imageData) /\
  (forall s, imageData = Str s ->
     (forall e, fetchBlob s = Throw e -> optimize imageData options = Ok imageData) /\
     (forall blob e, fetchBlob s = Ok blob -> createImageBitmap blob = Throw e ->
        optimize imageData options = Ok imageData) /\
     (forall blob img e, fetchBlob s = Ok blob -> createImageBitmap blob = Ok img ->
        draw img options = Throw e -> optimize imageData options = Ok imageData) /\
     (forall blob img canvas e, fetchBlob s = Ok blob ->
        createImageBitmap blob = Ok img -> draw img options = Ok canvas ->
        (forall q, convertToBlob canvas q = Throw e) ->
        optimize imageData options = Ok imageData)).
Proof.
  unfold optimize, optimizeImage. fold body.
  split; [|split; [|split; [|split]]].
  - destruct (body imageData options) as [v|e]; cbn [tryCatch]; eauto.
  - intros e ->. reflexivity.
  - intros tag ->. reflexivity.
  - intros s -> Hs. unfold body, optimizeBody. rewrite Hs, orb_true_r. reflexivity.
  - intros s ->. unfold body, optimizeBody.
    destruct (isEmpty s || negb (startsWith (js "data:image/") s));
      [repeat split; intros; reflexivity|].
    repeat split.
    + intros e H1. rewrite H1. reflexivity.
    + intros blob e H1 H2. rewrite H1. cbn [bind]. rewrite H2. reflexivity.
    + intros blob img e H1 H2 H3. rewrite H1. cbn [bind]. rewrite H2.
      cbn [bind]. rewrite H3. reflexivity.
    + intros blob img canvas e H1 H2 H3 H4. rewrite H1. cbn [bind].
      rewrite H2. cbn [bind]. rewrite H3. cbn [bind]. rewrite H4. reflexivity.
Qed.


End OptimizerFacts.

(** ** The result cache *)

Lemma key_eqb_eq (a b : Cache.key) : Cache.key_eqb a b = true <-> a = b.
Proof.
  unfold Cache.key_eqb. destruct (list_eq_dec N.eq_dec a b); split;
    congruence.
Qed.

Lemma key_eqb_refl (a : Cache.key) : Cache.key_eqb a a = true.
Proof. now apply key_eqb_eq. Qed.

Lemma cache_get_none (k : Cache.key) (m : Cache.t) :
  Cache.get k m = None <-> ~ In k (Cache.keys m).
Proof.
  induction m as [|[k' v] m IH]; simpl; [tauto|].
  destruct (Cache.key_eqb k' k) eqn:E.
  - apply key_eqb_eq in E. subst. split; [discriminate | tauto].
  - rewrite IH. split; [|tauto].
    intros H [->|H']; [|tauto]. now rewrite key_eqb_refl in E.
Qed.

Lemma cache_update_keys (k : Cache.key) (v : jsstring) (m : Cache.t) :
  Cache.keys (Cache.update k v m) = Cache.keys m.
Proof.
  induction m as [|[k' v'] m IH]; simpl; [reflexivity|].
  destruct (Cache.key_eqb k' k); simpl; [reflexivity | now rewrite IH].
Qed.

Lemma cache_set_keys (k : Cache.key) (v : jsstring) (m : Cache.t) :
  Cache.keys (Cache.set k v m)
  = if Cache.has k m then Cache.keys m else Cache.keys m ++ [k].
Proof.
  unfold Cache.set. destruct (Cache.has k m).
  - apply cache_update_keys.
  - unfold Cache.keys. now rewrite map_app.
Qed.

Lemma cache_has_in (k : Cache.key) (m : Cache.t) :
  Cache.has k m = true <-> In k (Cache.keys m).
Proof.
  unfold Cache.has. destruct (Cache.get k m) eqn:G.
  - split; [|reflexivity]. intros _.
    destruct (in_dec (list_eq_dec N.eq_dec) k (Cache.keys m)) as [H|H]; [exact H|].
    apply cache_get_none in H. congruence.
  - apply cache_get_none in G. split; [discriminate | tauto].
Qed.

Lemma cache_set_nodup (k : Cache.key) (v : jsstring) (m : Cache.t) :
  NoDup (Cache.keys m) -> NoDup (Cache.keys (Cache.set k v m)).
Proof.
  intros H. rewrite cache_set_keys. destruct (Cache.has k m) eqn:E; [exact H|].
  assert (~ In k (Cache.keys m)).
  { intros Hin. apply cache_has_in in Hin. congruence. }
  apply NoDup_app; [exact H | repeat constructor; intros [] | ].
  intros x Hx [<-|[]]. contradiction.
Qed.

Lemma cache_set_size (k : Cache.key) (v : jsstring) (m : Cache.t) :
  Cache.size (Cache.set k v m)
  = if Cache.has k m then Cache.size m else S (Cache.size m).
Proof.
  unfold Cache.size. rewrite <- !(length_map fst). fold (Cache.keys m).
  fold (Cache.keys (Cache.set k v m)). rewrite cache_set_keys.
  destruct (Cache.has k m); [reflexivity|]. rewrite length_app. simpl. lia.
Qed.

(** What storing does, case by case. *)
Lemma cacheStore_cases (k : Cache.key) (v : jsstring) (m : Cache.t) :
  Cache.size m <= 30 ->
  (Cache.has k m = true -> cacheStore k v m = Cache.update k v m) /\
  (Cache.has k m = false -> Cache.size m < 30 -> cacheStore k v m = m ++ [(k, v)]) /\
  (Cache.has k m = false -> Cache.size m = 30 ->
     cacheStore k v m = tl m ++ [(k, v)]).
Proof.
  intros Hs. unfold cacheStore.
  pose proof (cache_set_size k v m) as Hz. repeat split; intros Hh.
  - rewrite Hh in Hz. replace (30 <? _) with false
      by (symmetry; apply Nat.ltb_ge; lia).
    unfold Cache.set. now rewrite Hh.
  - intros Hl. rewrite Hh in Hz. replace (30 <? _) with false
      by (symmetry; apply Nat.ltb_ge; lia).
    unfold Cache.set. now rewrite Hh.
  - intros Hl. rewrite Hh in Hz. replace (30 <? _) with true
      by (symmetry; apply Nat.ltb_lt; lia).
    unfold Cache.set. rewrite Hh.
    destruct m as [|[k0 v0] m']; [discriminate Hl|].
    simpl. now rewrite key_eqb_refl.
Qed.

Lemma cacheStore_invariant (k : Cache.key) (v : jsstring) (m : Cache.t) :
  Cache.size m <= 30 /\ NoDup (Cache.keys m) ->
  Cache.size (cacheStore k v m) <= 30 /\ NoDup (Cache.keys (cacheStore k v m)).
Proof.
  intros [Hs Hn].
  destruct (cacheStore_cases k v m Hs) as (Hu & Ha & He).
  destruct (Cache.has k m) eqn:Hh.
  - rewrite (Hu eq_refl). split.
    + pose proof (cache_set_size k v m) as Hz. unfold Cache.set in Hz.
      rewrite Hh in Hz. lia.
    + now rewrite cache_update_keys.
  - assert (Hnew : NoDup (Cache.keys (m ++ [(k, v)]))).
    { pose proof (cache_set_nodup k v m Hn) as H. unfold Cache.set in H.
      now rewrite Hh in H. }
    destruct (Nat.eq_dec (Cache.size m) 30) as [E|E].
    + rewrite (He eq_refl E). destruct m as [|p m']; [discriminate E|].
      simpl in *. split.
      * unfold Cache.size in *. rewrite length_app. simpl in *. lia.
      * now inversion Hnew.
    + rewrite (Ha eq_refl) by lia. split; [|exact Hnew].
      unfold Cache.size in *. rewrite length_app. simpl. lia.
Qed.

Lemma run_snoc (ops : list CacheOp) (op : CacheOp) :
  run (ops ++ [op]) = applyOp (run ops) op.
Proof. unfold run. now rewrite fold_left_app. Qed.

Lemma run_invariant (ops : list CacheOp) :
  Cache.size (imageCache (run ops)) <= 30 /\
  NoDup (Cache.keys (imageCache (run ops))).
Proof.
  induction ops as [|op ops IH] using rev_ind.
  - simpl. split; [lia | constructor].
  - rewrite run_snoc. destruct op as [k v|changes ns|]; simpl.
    + now apply cacheStore_invariant.
    + unfold onStorageChanged. destruct ns; try exact IH.
      destruct (existsb affectsOcr changes); [|exact IH]. simpl.
      destruct (0 <? Cache.size (imageCache (run ops))); [|exact IH].
      simpl. split; [lia | constructor].
    + split; [lia | constructor].
Qed.

Lemma onStorageChanged_clears (changes : list SettingKey) (st : BackgroundState)
    (k : Cache.key) :
  existsb affectsOcr changes = true ->
  Cache.get k (imageCache (onStorageChanged changes AreaLocal st)) = None.
Proof.
  intros Hc. unfold onStorageChanged. rewrite Hc. cbn [imageCache].
  destruct (imageCache st) as [|p m]; reflexivity.
Qed.

(** C3: in every run of the background script the cache holds at most 30
    entries; storing a new key into a full cache drops the entry that was
    inserted first and nothing else; storing a key that is present keeps the
    keys and their order; and a change of the API key, the language, the mode
    or the model in the local storage area leaves no entry behind. *)
Theorem cache_bounded_fifo (ops : list CacheOp) :
  let m := imageCache (run ops) in
  Cache.size m <= 30 /\
  (forall k v, Cache.has k m = false -> Cache.size m = 30 ->
     cacheStore k v m = tl m ++ [(k, v)] /\
     Cache.oldestKey m <> None /\
     forall k', Cache.oldestKey m = Some k' ->
       Cache.get k' (cacheStore k v m) = None /\
       (forall k'', k'' <> k' -> k'' <> k ->
          Cache.get k'' (cacheStore k v m) = Cache.get k'' m)) /\
  (forall k v, Cache.has k m = false -> Cache.size m < 30 ->
     cacheStore k v m = m ++ [(k, v)]) /\
  (forall k v, Cache.has k m = true ->
     Cache.keys (cacheStore k v m) = Cache.keys m) /\
  (forall changes k,
     existsb affectsOcr changes = true ->
     Cache.get k (imageCache (onStorageChanged changes AreaLocal (run ops)))
       = None).
Proof.
  intros m. destruct (run_invariant ops) as [Hs Hn]. fold m in Hs, Hn.
  split; [exact Hs|]. split; [|split; [|split]].
  - intros k v Hh Hl.
    destruct (cacheStore_cases k v m Hs) as (_ & _ & He).
    rewrite (He Hh Hl). split; [reflexivity|].
    destruct m as [|[k0 v0] m']; [discriminate Hl|].
    split; [discriminate|].
    intros k' [= <-]. cbn [tl].
    assert (Hk0 : ~ In k0 (Cache.keys m')) by (now inversion Hn).
    assert (Hne : k <> k0).
    { intros ->. unfold Cache.has in Hh. simpl in Hh.
      now rewrite key_eqb_refl in Hh. }
    split.
    + apply cache_get_none. unfold Cache.keys. rewrite map_app, in_app_iff.
      intros [H|[H|[]]]; [now apply Hk0 | simpl in H; congruence].
    + intros k'' H1 H2. simpl.
      replace (Cache.key_eqb k0 k'') with false
        by (symmetry; destruct (Cache.key_eqb k0 k'') eqn:E; [|reflexivity];
            apply key_eqb_eq in E; congruence).
      clear -H2. induction m' as [|[a b] m' IH]; simpl.
      * replace (Cache.key_eqb k k'') with false; [reflexivity|].
        symmetry. destruct (Cache.key_eqb k k'') eqn:E; [|reflexivity].
        apply key_eqb_eq in E. congruence.
      * now rewrite IH.
  - intros k v Hh Hl.
    destruct (cacheStore_cases k v m Hs) as (_ & Ha & _). now apply Ha.
  - intros k v Hh.
    destruct (cacheStore_cases k v m Hs) as (Hu & _ & _).
    rewrite (Hu Hh). apply cache_update_keys.
  - intros changes k Hc. apply onStorageChanged_clears. exact Hc.
Qed.

(** ** The retry loop *)

Lemma includes_app_r (p a b : jsstring) :
  includes p b = true -> includes p (a ++ b) = true.
Proof.
  intros H. induction a as [|c a IH]; simpl; [exact H|].
  rewrite IH. apply orb_true_r.
Qed.

Lemma startsWith_app (p b : jsstring) : startsWith p (p ++ b) = true.
Proof.
  induction p as [|c p IH]; simpl; [reflexivity|].
  now rewrite N.eqb_refl, IH.
Qed.

Lemma includes_prefix (p b : jsstring) : includes p (p ++ b) = true.
Proof.
  destruct (p ++ b) as [|c r] eqn:E; simpl.
  - destruct p; [reflexivity | discriminate E].
  - rewrite <- E, startsWith_app. reflexivity.
Qed.

Import Retry.

Lemma temporary_limit_message (m : jsstring) :
  isTemporaryError (js "一時的なAPI制限: " ++ m) = true.
Proof.
  unfold isTemporaryError.
  replace (js "一時的なAPI制限: ") with (TEMPORARY_LIMIT ++ js ": ") by reflexivity.
  rewrite <- app_assoc, includes_prefix. reflexivity.
Qed.

(** The retry delay is 1000 ms times 1.5 to the number of the failed
    attempt. *)
Lemma retryDelay_value (attempt : nat) :
  (retryDelay (S attempt) == (1000 # 1) * Qpower (3 # 2) (Z.of_nat attempt))%Q.
Proof.
  unfold retryDelay. replace (Z.of_nat (S attempt) - 1)%Z with (Z.of_nat attempt) by lia.
  reflexivity.
Qed.

(** One run of the loop, by the outcome of the first request. *)
Lemma callWithRetry_cases (env : nat -> Outcome) :
  callWithRetry env =
    match attemptOnce (env 0) with
    | Ok text => ([Request 0], Returned text)
    | Throw message =>
        if isTemporaryError message then
          ([Request 0; Sleep (retryDelay 1); Request 1],
           match attemptOnce (env 1) with
           | Ok text => Returned text
           | Throw message' => Thrown message'
           end)
        else ([Request 0], Thrown message)
    end.
Proof.
  unfold callWithRetry. cbn [retryLoop MAX_RETRIES Nat.leb Nat.ltb].
  destruct (attemptOnce (env 0)) as [text|message]; [reflexivity|].
  destruct (isTemporaryError message); cbn [andb]; [|reflexivity].
  destruct (attemptOnce (env 1)) as [text'|message']; cbn [fst snd].
  - reflexivity.
  - rewrite andb_false_r. reflexivity.
Qed.

(** C5, as stated, fails: a 400 response whose message holds "try again",
    "server error" or the words for a temporary API limit has neither status
    429 nor a 5xx status, and no overload, rate-limit or timeout marker, yet
    the request is sent a second time. *)
Lemma retry_on_try_again :
  (specTemporary
     (HttpError 400 (ErrorMessage (js "Backend busy, please try again later")))
     = false /\
   fst (callWithRetry
          (fun _ => HttpError 400
                      (ErrorMessage (js "Backend busy, please try again later"))))
     = [Request 0; Sleep (retryDelay 1); Request 1]) /\
  (specTemporary (HttpError 400 (ErrorMessage (js "internal server error")))
     = false /\
   fst (callWithRetry
          (fun _ => HttpError 400 (ErrorMessage (js "internal server error"))))
     = [Request 0; Sleep (retryDelay 1); Request 1]) /\
  (specTemporary (HttpError 400 (ErrorMessage TEMPORARY_LIMIT)) = false /\
   fst (callWithRetry (fun _ => HttpError 400 (ErrorMessage TEMPORARY_LIMIT)))
     = [Request 0; Sleep (retryDelay 1); Request 1]).
Proof. vm_compute. repeat split; reflexivity. Qed.

(** A permanent failure is thrown at once. *)
Example retry_not_on_bad_key :
  callWithRetry (fun _ => HttpError 400 (ErrorMessage (js "API key not valid")))
  = ([Request 0], Thrown (js "API エラー: API key not valid")).
Proof. vm_compute. reflexivity. Qed.

(** A defect, outside the retry policy: when the body of a 503 response
    cannot be read as JSON, [response.json()] throws before the test
    [response.status >= 500] is reached, and the loop sees the error of the
    read only. *)
Example unreadable_body_defect :
  callWithRetry
    (fun _ => HttpError 503 (ErrorUnreadable (js "Unexpected end of JSON input")))
  = ([Request 0], Thrown (js "Unexpected end of JSON input")).
Proof. vm_compute. reflexivity. Qed.

Lemma includes_nonempty (p m : jsstring) :
  p <> [] -> includes p m = true -> isEmpty m = false.
Proof.
  intros Hp H. destruct m as [|c m]; [|reflexivity].
  destruct p as [|a p]; [congruence | discriminate H].
Qed.

(** The test of the [catch] block is the test for the general markers. *)
Lemma isTemporaryError_markers (message : jsstring) :
  isTemporaryError message = hasMarker generalMarkers message.
Proof.
  destruct message as [|c m]; [reflexivity|].
  unfold isTemporaryError, hasMarker, generalMarkers.
  cbn [isEmpty negb andb existsb].
  now rewrite orb_false_r, !orb_assoc.
Qed.

(** The prefix of a permanent HTTP error holds no marker and completes
    none. *)
Lemma prefixed_markers (errorMessage : jsstring) :
  hasMarker generalMarkers (js "API エラー: " ++ errorMessage)
  = hasMarker generalMarkers errorMessage.
Proof. reflexivity. Qed.

(** Outside the case left out, the loop classifies a failure as the amended
    claim does. *)
Lemma classification_exact (o : Outcome) (message : jsstring) :
  attemptOnce o = Throw message -> bodyLost o = false ->
  isTemporaryError message = amendedTemporary o.
Proof.
  intros H L. cbv beta iota delta [attemptOnce] in H.
  destruct o as [m0| |status [m0|e]|[m0|text]].
  - injection H as <-. apply isTemporaryError_markers.
  - injection H as <-. vm_compute. reflexivity.
  - injection H as <-. cbn [bodyLost] in L. cbn [amendedTemporary].
    rewrite L. apply isTemporaryError_markers.
  - cbn [amendedTemporary].
    unfold temporaryStatus, hasMarker at 1, responseMarkers. cbn [existsb].
    match type of H with
    | (if ?c then _ else _) = _ => destruct c eqn:T
    end.
    + replace message with (js "一時的なAPI制限: " ++ e)
        by (injection H; intros X; exact X).
      rewrite temporary_limit_message. symmetry.
      unfold hasMarker, generalMarkers. cbn [existsb].
      repeat (apply orb_true_iff in T as [T|T]); rewrite T;
        repeat match goal with
               | |- context [includes ?a e] => destruct (includes a e)
               | |- context [(status =? 429)%N] => destruct (status =? 429)%N
               | |- context [(500 <=? status)%N] => destruct (500 <=? status)%N
               end; reflexivity.
    + replace message with (js "API エラー: " ++ e)
        by (injection H; intros X; exact X).
      rewrite isTemporaryError_markers, prefixed_markers.
      apply orb_false_iff in T as [T S5]. apply orb_false_iff in T as [T S4].
      apply orb_false_iff in T as [T Ta]. apply orb_false_iff in T as [T Se].
      now rewrite S4, S5, Se, Ta.
  - injection H as <-. apply isTemporaryError_markers.
  - destruct text as [|c text]; [|discriminate H]. injection H as <-.
    vm_compute. reflexivity.
Qed.

Lemma not_temporary_not_lost (o : Outcome) :
  amendedTemporary o = false -> bodyLost o = false.
Proof.
  destruct o as [m0| |status [m0|e]|[m0|text]]; try reflexivity.
  cbn [amendedTemporary bodyLost]. intros H.
  now apply orb_false_iff in H as [H _].
Qed.

(** C5 (amended): the loop sends the request once more, after
    [1000 * 1.5^0 = 1000] ms, when the failure of the first request is
    temporary, and then returns or throws whatever the second request
    yields; a failure that is not temporary is thrown at once.  A failure is
    temporary when it is an HTTP error response with status 429 or at least
    500 or with "server error" or "try again" in its message, or when its
    error message holds "overloaded", "rate limit", "timeout", the Japanese
    word for timeout or the words for a temporary API limit.  Nothing is
    said of an HTTP error response with status 429 or at least 500 whose
    body could not be read. *)
Theorem retry_policy (env : nat -> Outcome) :
  (forall text, attemptOnce (env 0) = Ok text ->
     callWithRetry env = ([Request 0], Returned text)) /\
  (forall message,
     attemptOnce (env 0) = Throw message ->
     amendedTemporary (env 0) = true -> bodyLost (env 0) = false ->
     fst (callWithRetry env) = [Request 0; Sleep (retryDelay 1); Request 1] /\
     (retryDelay 1 == 1000 # 1)%Q /\
     snd (callWithRetry env) =
       match attemptOnce (env 1) with
       | Ok text => Returned text
       | Throw message' => Thrown message'
       end) /\
  (forall message,
     attemptOnce (env 0) = Throw message ->
     amendedTemporary (env 0) = false ->
     callWithRetry env = ([Request 0], Thrown message)).
Proof.
  pose proof (callWithRetry_cases env) as C.
  split; [|split].
  - intros text H. now rewrite C, H.
  - intros message H T L.
    rewrite <- (classification_exact (env 0) H L) in T.
    rewrite C, H, T. cbn [fst snd].
    split; [reflexivity|]. split; reflexivity.
  - intros message H T.
    rewrite <- (classification_exact (env 0) H (not_temporary_not_lost _ T)) in T.
    now rewrite C, H, T.
Qed.

Lemma retry_policy_witness :
  fst (callWithRetry
         (fun n => match n with
                   | O => HttpError 503 (ErrorMessage (js "The model is overloaded"))
                   | _ => HttpOk (OkText (js "03-1234-5678"))
                   end))
    = [Request 0; Sleep (retryDelay 1); Request 1] /\
  snd (callWithRetry
         (fun n => match n with
                   | O => HttpError 503 (ErrorMessage (js "The model is overloaded"))
                   | _ => HttpOk (OkText (js "03-1234-5678"))
                   end))
    = Returned (js "03-1234-5678").
Proof.
  destruct (proj1 (proj2 (retry_policy
              (fun n => match n with
                        | O => HttpError 503
                                 (ErrorMessage (js "The model is overloaded"))
                        | _ => HttpOk (OkText (js "03-1234-5678"))
                        end)))
              (js "一時的なAPI制限: The model is overloaded"))
    as (A & _ & B).
  - vm_compute. reflexivity.
  - vm_compute. reflexivity.
  - reflexivity.
  - split; [exact A | exact B].
Defined.

(** ** The request queue *)

Module QueueFacts.

Import Queue.
Local Open Scope N_scope.

Ltac fields :=
  cbn [queue processing lastRequest now submitted activations timers events].

Lemma spaced_snoc (d L t : N) (ts : list N) :
  spaced d ts -> Forall (fun x => x <= L) ts -> L + d <= t ->
  spaced d (ts ++ [t]).
Proof.
  intros Hs Hf Ht. induction ts as [|a ts IH]; [exact I|].
  inversion Hf as [|? ? Ha Hf']; subst.
  destruct ts as [|b ts'].
  - simpl. split; [lia | exact I].
  - destruct Hs as [Hab Hs]. specialize (IH Hs Hf').
    change ((a :: b :: ts') ++ [t])%list with (a :: (b :: ts') ++ [t])%list.
    cbn [spaced]. change ((b :: ts') ++ [t])%list with (b :: ts' ++ [t])%list in *.
    split; [exact Hab | exact IH].
Qed.

Lemma startTimes_bound (evs : list Event) (n : N) :
  Forall (fun e => eventTime e <= n) evs ->
  Forall (fun t => t <= n) (startTimes evs).
Proof.
  induction 1 as [|e evs He _ IH]; [constructor|].
  destruct e; simpl; [|exact IH].
  apply Forall_app. split; [exact IH | repeat constructor; exact He].
Qed.

Lemma Forall_le_trans (ts : list N) (a b : N) :
  a <= b -> Forall (fun t => t <= a) ts -> Forall (fun t => t <= b) ts.
Proof.
  intros Hab H. eapply Forall_impl; [|exact H]. simpl. intros; lia.
Qed.

Lemma events_le_trans (evs : list Event) (a b : N) :
  a <= b -> Forall (fun e => eventTime e <= a) evs ->
  Forall (fun e => eventTime e <= b) evs.
Proof.
  intros Hab H. eapply Forall_impl; [|exact H]. simpl. intros; lia.
Qed.

Lemma serial_start (c : nat) (t : N) (evs : list Event) :
  closed evs -> serial evs -> serial (Started c t :: evs).
Proof.
  intros Hc Hs. destruct evs as [|[c' t'|c' h t'] evs]; simpl in *; tauto.
Qed.

Lemma initial_inv (t0 : N) : Inv (initial t0).
Proof.
  constructor; simpl; try lia; auto.
Qed.

Lemma processQueue_inv (s : State) : Inv s -> Inv (processQueue s).
Proof.
  destruct s as [q p l n sub acts tm evs].
  intros HI. pose proof HI as [Hl Ht Hsp Hse Hf Hsh]. cbn -[N.sub N.add N.ltb N.le minInterval] in *.
  unfold processQueue. cbn -[N.sub N.add N.ltb N.le minInterval].
  destruct p; [exact HI|].
  destruct q as [|call rest]; [exact HI|].
  destruct acts as [|[c w|c] [|a acts]];
    try (exfalso; exact Hsh);
    try (destruct Hsh as [Hp _]; discriminate Hp).
  destruct Hsh as (_ & Hc & Hb).
  destruct (N.ltb_spec (n - l) minInterval) as [E|E].
  - constructor; cbn -[N.sub N.add N.ltb N.le minInterval]; try assumption.
    repeat split; try assumption. unfold minInterval in *. lia.
  - constructor; cbn -[N.sub N.add N.ltb N.le minInterval]; try assumption.
    + constructor; [simpl; lia | exact Ht].
    + eapply spaced_snoc; [exact Hsp | exact Hb | unfold minInterval in *; lia].
    + now apply serial_start.
    + rewrite <- app_assoc. exact Hf.
    + split; [reflexivity|]. eauto.
Qed.

Lemma activation_eqb_refl (a : Activation) : activation_eqb a a = true.
Proof.
  destruct a; simpl; rewrite ?Nat.eqb_refl, ?N.eqb_refl; reflexivity.
Qed.

Lemma step_inv (s s' : State) : Inv s -> step s s' -> Inv s'.
Proof.
  intros HI Hstep.
  destruct Hstep as [s|s dt|s call w Hin Hw|s call how Hin|s due Hin Hd].
  - (* execute *)
    apply processQueue_inv. destruct HI as [Hl Ht Hsp Hse Hf Hsh].
    constructor; fields; try assumption.
    rewrite seq_S, <- Hf, <- !app_assoc. reflexivity.
  - (* advance *)
    destruct s as [q p l n sub acts tm evs].
    destruct HI as [Hl Ht Hsp Hse Hf Hsh]. cbn -[N.sub N.add N.ltb N.le minInterval] in *.
    constructor; cbn -[N.sub N.add N.ltb N.le minInterval]; try assumption; try lia.
    eapply events_le_trans; [|exact Ht]. lia.
  - (* wake *)
    destruct s as [q p l n sub acts tm evs].
    destruct HI as [Hl Ht Hsp Hse Hf Hsh]. cbn -[N.sub N.add N.ltb N.le minInterval] in *.
    destruct acts as [|[c w0|c] [|a acts]];
      try (exfalso; exact Hsh); try (now destruct Hin).
    destruct Hin as [[= <- <-]|[]].
    destruct Hsh as (Hp & Hc & Hb & Hwl).
    unfold wake. cbn -[N.sub N.add N.ltb N.le minInterval]. rewrite Nat.eqb_refl, N.eqb_refl.
    cbn -[N.sub N.add N.ltb N.le minInterval].
    constructor; cbn -[N.sub N.add N.ltb N.le minInterval]; try assumption.
    + constructor; [simpl; lia | exact Ht].
    + eapply spaced_snoc; [exact Hsp | exact Hb | lia].
    + now apply serial_start.
    + rewrite <- app_assoc. exact Hf.
    + split; [exact Hp|]. eauto.
  - (* finish *)
    destruct s as [q p l n sub acts tm evs].
    destruct HI as [Hl Ht Hsp Hse Hf Hsh]. cbn -[N.sub N.add N.ltb N.le minInterval] in *.
    destruct acts as [|[c w0|c] [|a acts]];
      try (exfalso; exact Hsh); try (now destruct Hin).
    destruct Hin as [[= <-]|[]].
    destruct Hsh as (Hp & t & evs' & He).
    unfold finish. cbn -[N.sub N.add N.ltb N.le minInterval]. rewrite Nat.eqb_refl.
    constructor; cbn -[N.sub N.add N.ltb N.le minInterval]; try assumption; try lia.
    + constructor; [simpl; lia | exact Ht].
    + rewrite He. rewrite He in Hse. split; [reflexivity | exact Hse].
    + repeat split. now apply startTimes_bound.
  - (* timer *)
    apply processQueue_inv. destruct HI as [Hl Ht Hsp Hse Hf Hsh].
    constructor; fields; assumption.
Qed.

Lemma reachable_inv (t0 : N) (s : State) : reachable t0 s -> Inv s.
Proof.
  induction 1 as [|s s' _ IH Hstep]; [apply initial_inv|].
  exact (step_inv IH Hstep).
Qed.

Unset Implicit Arguments.

Ltac simp := cbn -[N.sub N.add N.ltb N.le minInterval].
Ltac simp_all := cbn -[N.sub N.add N.ltb N.le minInterval] in *.

Lemma initial_awake (t0 : N) : Awake (initial t0).
Proof. constructor; simpl; auto. Qed.

(** [processQueue] leaves no call queued with nothing in progress, whatever
    the timers are. *)
Lemma processQueue_awake (s : State) :
  Inv s ->
  rested minInterval (events s) ->
  match events s with
  | Settled _ _ t :: _ => lastRequest s = t
  | _ => True
  end ->
  Forall (fun due => due <= lastRequest s + 50) (timers s) ->
  Awake (processQueue s).
Proof.
  destruct s as [q p l n sub acts tm evs].
  intros [Hl Ht Hsp Hse Hf Hsh] Hr Hla Hd. simp_all.
  unfold processQueue. simp.
  destruct p; [constructor; simp; try assumption; discriminate|].
  destruct q as [|call rest];
    [constructor; simp; try assumption; intros _ X; now destruct X|].
  destruct acts as [|[c w|c] [|a acts]];
    try (exfalso; exact Hsh);
    try (destruct Hsh as [Hp _]; discriminate Hp).
  destruct (N.ltb_spec (n - l) minInterval) as [E|E].
  - constructor; simp; try assumption. discriminate.
  - constructor; simp; try assumption; try discriminate; try exact I.
    destruct evs as [|[c' t'|c' h t'] evs]; try exact Hr.
    split; [|exact Hr]. subst l. lia.
Qed.

Lemma removeOne_Forall {A : Type} (eqb : A -> A -> bool) (P : A -> Prop)
    (x : A) (l : list A) :
  Forall P l -> Forall P (removeOne eqb x l).
Proof.
  induction 1 as [|y l Hy Hl IH]; simpl; [constructor|].
  destruct (eqb x y); [exact Hl | now constructor].
Qed.

Lemma step_awake (s s' : State) : Inv s -> Awake s -> step s s' -> Awake s'.
Proof.
  intros HI HA Hstep.
  destruct Hstep as [s|s dt|s call w Hin Hw|s call how Hin|s due Hin Hd].
  - (* execute *)
    destruct HA as [Hr Hla Hd Htm].
    apply processQueue_awake; fields; try assumption.
    destruct HI as [Hl Ht Hsp Hse Hf Hsh].
    constructor; fields; try assumption.
    rewrite seq_S, <- Hf, <- !app_assoc. reflexivity.
  - (* advance *)
    destruct HA as [Hr Hla Hd Htm]. constructor; assumption.
  - (* wake *)
    destruct s as [q p l n sub acts tm evs].
    destruct HI as [Hl Ht Hsp Hse Hf Hsh]. destruct HA as [Hr Hla Hd Htm].
    simp_all.
    destruct acts as [|[c w0|c] [|a acts]];
      try (exfalso; exact Hsh); try (now destruct Hin).
    destruct Hin as [[= <- <-]|[]].
    destruct Hsh as (Hp & Hc & Hb & Hwl).
    unfold wake. simp. constructor; simp; try assumption; try exact I.
    destruct evs as [|[c' t'|c' h t'] evs]; try exact Hr.
    split; [|exact Hr]. subst l. lia.
  - (* finish *)
    destruct s as [q p l n sub acts tm evs].
    destruct HI as [Hl Ht Hsp Hse Hf Hsh]. destruct HA as [Hr Hla Hd Htm].
    simp_all. unfold finish. simp.
    constructor; simp; try assumption; try reflexivity.
    + constructor; [lia|]. eapply Forall_impl; [|exact Hd]. simpl. intros; lia.
    + discriminate.
  - (* timer *)
    destruct HA as [Hr Hla Hd' Htm].
    apply processQueue_awake; fields; try assumption.
    + destruct HI as [Hl Ht Hsp Hse Hf Hsh].
      constructor; fields; assumption.
    + now apply removeOne_Forall.
Qed.

Lemma reachable_awake (t0 : N) (s : State) : reachable t0 s -> Inv s /\ Awake s.
Proof.
  induction 1 as [|s s' _ [HI HA] Hstep].
  - split; [apply initial_inv | apply initial_awake].
  - split; [exact (step_inv HI Hstep) | exact (step_awake s s' HI HA Hstep)].
Qed.

Lemma rested_pairs (d : N) (evs pre post : list Event) (c c' : nat)
    (how : Settlement) (t t' : N) :
  rested d evs ->
  evs = (pre ++ Started c t :: Settled c' how t' :: post)%list ->
  t' + d <= t.
Proof.
  revert evs. induction pre as [|e pre IH]; intros evs Hr ->.
  - simpl in Hr. tauto.
  - apply (IH (pre ++ Started c t :: Settled c' how t' :: post)%list);
      [|reflexivity].
    simpl in Hr. destruct e as [c0 t0|c0 h0 t0]; [|exact Hr].
    destruct (pre ++ Started c t :: Settled c' how t' :: post)%list
      as [|[c1 t1|c1 h1 t1] l]; tauto.
Qed.

(** *** Runs without new submissions *)

Lemma quiet_step (how : nat -> Settlement) (s s' : State) :
  quiet how s s' -> step s s'.
Proof.
  destruct 1;
    [apply step_advance | apply step_wake | apply step_finish | apply step_timer];
    assumption.
Qed.

Lemma drains_trans (how : nat -> Settlement) (s1 s2 s3 : State) :
  drains how s1 s2 -> drains how s2 s3 -> drains how s1 s3.
Proof.
  induction 1 as [|s s' s'' Hq _ IH]; [trivial|].
  intros H. eapply drains_step; [exact Hq | exact (IH H)].
Qed.

Lemma drains_inv (how : nat -> Settlement) (s s' : State) :
  drains how s s' -> Inv s -> Awake s -> Inv s' /\ Awake s'.
Proof.
  induction 1 as [|s s' s'' Hq _ IH]; [now split|].
  intros HI HA. apply quiet_step in Hq.
  apply IH; [exact (step_inv HI Hq) | exact (step_awake s s' HI HA Hq)].
Qed.

Lemma drained_after (how : nat -> Settlement) (s s1 s' : State) :
  drains how s s1 -> submitted s1 = submitted s -> drained how s1 s' ->
  drained how s s'.
Proof.
  intros H1 Hs (H2 & Hq & Ha & Hsub). repeat split; try assumption.
  - eapply drains_trans; eassumption.
  - congruence.
Qed.

Section Drain.

Variable how : nat -> Settlement.
Variable n : nat.

(** With [n] calls queued and none in progress the queue drains. *)
Hypothesis idle :
  forall s, Inv s -> Awake s -> activations s = [] -> length (queue s) = n ->
    exists s', drained how s s'.

Lemma calling_drains (s : State) (c : nat) :
  Inv s -> Awake s -> activations s = [Calling c] -> length (queue s) = n ->
  exists s', drained how s s'.
Proof.
  intros HI HA Hact Hlen.
  assert (Q : quiet how s (finish c (how c) s)).
  { apply quiet_finish. rewrite Hact. now left. }
  pose proof (quiet_step how _ _ Q) as St.
  destruct (idle (finish c (how c) s)) as (s' & D).
  - exact (step_inv HI St).
  - exact (step_awake _ _ HI HA St).
  - unfold finish. fields. rewrite Hact. cbn [removeOne activation_eqb].
    now rewrite Nat.eqb_refl.
  - exact Hlen.
  - exists s'.
    apply (drained_after how s (finish c (how c) s) s'); [|reflexivity | exact D].
    eapply drains_step; [exact Q | apply drains_refl].
Qed.

Lemma waiting_drains (s : State) (c : nat) (w : N) :
  Inv s -> Awake s -> activations s = [Waiting c w] -> length (queue s) = n ->
  exists s', drained how s s'.
Proof.
  intros HI HA Hact Hlen.
  set (s1 := advance (w - now s) s).
  assert (Q1 : quiet how s s1) by apply quiet_advance.
  assert (Q2 : quiet how s1 (wake c w s1)).
  { apply quiet_wake; unfold s1, advance; fields; [rewrite Hact; now left | lia]. }
  pose proof (quiet_step how _ _ Q1) as St1.
  pose proof (quiet_step how _ _ Q2) as St2.
  pose proof (step_inv HI St1) as HI1.
  pose proof (step_awake _ _ HI HA St1) as HA1.
  destruct (calling_drains (wake c w s1) c) as (s' & D).
  - exact (step_inv HI1 St2).
  - exact (step_awake _ _ HI1 HA1 St2).
  - unfold wake, s1, advance. fields. rewrite Hact.
    cbn [removeOne activation_eqb]. now rewrite Nat.eqb_refl, N.eqb_refl.
  - exact Hlen.
  - exists s'.
    apply (drained_after how s (wake c w s1) s'); [|reflexivity | exact D].
    eapply drains_step; [exact Q1|].
    eapply drains_step; [exact Q2 | apply drains_refl].
Qed.

End Drain.

Lemma idle_drains (how : nat -> Settlement) (n : nat) (s : State) :
  Inv s -> Awake s -> activations s = [] -> length (queue s) = n ->
  exists s', drained how s s'.
Proof.
  revert s. induction n as [|n IH]; intros s HI HA Hact Hlen.
  - exists s. repeat split; [apply drains_refl | | exact Hact].
    now destruct (queue s).
  - destruct (queue s) as [|c rest] eqn:Hq; [discriminate Hlen|].
    injection Hlen as Hlen.
    assert (Hp : processing s = false).
    { pose proof (inv_shape HI) as Sh. rewrite Hact in Sh. now destruct Sh. }
    assert (Ht : timers s <> []).
    { apply (awake_timer HA Hp). rewrite Hq. discriminate. }
    destruct (timers s) as [|due tm] eqn:Htm; [now destruct Ht|].
    set (s1 := advance (due - now s) s).
    set (s2 := fireTimer due s1).
    assert (Q1 : quiet how s s1) by apply quiet_advance.
    assert (Q2 : quiet how s1 s2).
    { apply quiet_timer; unfold s1, advance; fields;
        [rewrite Htm; now left | lia]. }
    pose proof (quiet_step how _ _ Q1) as St1.
    pose proof (quiet_step how _ _ Q2) as St2.
    pose proof (step_inv HI St1) as HI1.
    pose proof (step_awake _ _ HI HA St1) as HA1.
    pose proof (step_inv HI1 St2) as HI2.
    pose proof (step_awake _ _ HI1 HA1 St2) as HA2.
    assert (Shape : ((exists w, activations s2 = [Waiting c w])
                     \/ activations s2 = [Calling c])
                    /\ queue s2 = rest /\ submitted s2 = submitted s).
    { unfold s2, s1, fireTimer, advance, processQueue. fields.
      rewrite Hp, Hq, Hact.
      match goal with
      | |- context [if ?b then _ else _] => destruct b
      end; fields; repeat split; eauto. }
    destruct Shape as (Sh & Hq2 & Hsub2).
    assert (Hlen2 : length (queue s2) = n) by (rewrite Hq2; exact Hlen).
    assert (D : exists s', drained how s2 s').
    { destruct Sh as [[w Hw]|Hc].
      - exact (waiting_drains how n (IH) s2 c w HI2 HA2 Hw Hlen2).
      - exact (calling_drains how n (IH) s2 c HI2 HA2 Hc Hlen2). }
    destruct D as (s' & D). exists s'.
    apply (drained_after how s s2 s'); [|exact Hsub2 | exact D].
    eapply drains_step; [exact Q1|].
    eapply drains_step; [exact Q2 | apply drains_refl].
Qed.

(** Every submitted call starts: with no further submission, and whichever
    calls are rejected, the queue drains. *)
Lemma queue_drains (how : nat -> Settlement) (s : State) :
  Inv s -> Awake s ->
  exists s',
    drains how s s' /\ queue s' = [] /\ activations s' = [] /\
    startedCalls (events s') = List.seq 0 (submitted s) /\
    spaced minInterval (startTimes (events s')) /\ serial (events s').
Proof.
  intros HI HA.
  assert (D : exists s', drained how s s').
  { pose proof (inv_shape HI) as Sh.
    destruct (activations s) as [|[c w|c] [|a acts]] eqn:Hact;
      try (exfalso; exact Sh).
    - exact (idle_drains how (length (queue s)) s HI HA Hact eq_refl).
    - exact (waiting_drains how (length (queue s))
               (idle_drains how (length (queue s))) s c w HI HA Hact eq_refl).
    - exact (calling_drains how (length (queue s))
               (idle_drains how (length (queue s))) s c HI HA Hact eq_refl). }
  destruct D as (s' & Hd & Hq & Ha & Hsub). exists s'.
  destruct (drains_inv how s s' Hd HI HA) as [HI' _].
  split; [exact Hd|]. split; [exact Hq|]. split; [exact Ha|].
  split; [|split; [exact (inv_spaced HI') | exact (inv_serial HI')]].
  pose proof (inv_fifo HI') as F. rewrite Hq, Ha, Hsub in F.
  cbn [waitingCalls app] in F. now rewrite app_nil_r in F.
Qed.

(** After any settlement the next queued call starts once the spacing has
    elapsed and the 50 ms timer has run, with no further submission. *)
Lemma next_call_starts (how' : nat -> Settlement) (s : State) (c c' : nat)
    (rest : list nat) (how : Settlement) :
  In (Calling c) (activations s) -> queue s = c' :: rest ->
  exists s',
    drains how' (finish c how s) s' /\
    events s' = Started c' (now s + minInterval)
                :: Settled c how (now s) :: events s.
Proof.
  intros Hin Hq.
  exists (fireTimer (now s + 50) (advance minInterval (finish c how s))).
  split.
  - eapply drains_step; [apply quiet_advance|].
    eapply drains_step; [|apply drains_refl].
    apply quiet_timer; unfold advance, finish; fields;
      [now left | unfold minInterval; lia].
  - destruct s as [q p l n sub acts tm evs]. cbn [queue] in Hq. subst q.
    unfold fireTimer, advance, finish, processQueue. fields.
    replace (n + minInterval - n <? minInterval) with false; [reflexivity|].
    symmetry. apply N.ltb_ge. lia.
Qed.

(** C2: in every reachable state of the queue, successive call starts are at
    least [minInterval] = 500 ms apart; the calls run one at a time, each
    start but the newest being followed by the settlement of the same call;
    and the calls start in the order of their submission.  When a call
    settles, rejected or resolved, while another one is queued, the queued
    one starts after the spacing, with no further submission.  Every
    submitted call starts: whichever calls are rejected, the clock, the
    timers and the settlements alone lead to a state where all the calls
    submitted have started, in their order. *)
Theorem throttler_guarantees (t0 : N) (s : State) :
  reachable t0 s ->
  minInterval = 500 /\
  spaced minInterval (startTimes (events s)) /\
  serial (events s) /\
  (length (activations s) <= 1)%nat /\
  (exists pending,
     List.seq 0 (submitted s) = (startedCalls (events s) ++ pending)%list) /\
  (forall c c' rest how how',
     In (Calling c) (activations s) -> queue s = c' :: rest ->
     exists s',
       drains how' (finish c how s) s' /\
       events s' = Started c' (now s + minInterval)
                   :: Settled c how (now s) :: events s) /\
  (forall how,
     exists s',
       drains how s s' /\ queue s' = [] /\ activations s' = [] /\
       startedCalls (events s') = List.seq 0 (submitted s) /\
       spaced minInterval (startTimes (events s')) /\ serial (events s')).
Proof.
  intros Hr. destruct (reachable_awake t0 s Hr) as [HI HA].
  pose proof HI as [Hl Ht Hsp Hse Hf Hsh].
  split; [reflexivity|]. split; [exact Hsp|]. split; [exact Hse|].
  split; [|split; [|split]].
  - destruct (activations s) as [|a [|b acts]]; simpl; try lia.
    destruct a; contradiction.
  - eexists. symmetry. exact Hf.
  - intros c c' rest how how' Hin Hq.
    exact (next_call_starts how' s c c' rest how Hin Hq).
  - intros how. exact (queue_drains how s HI HA).
Qed.

Lemma rejectedRun_reachable : reachable 1000 rejectedRun.
Proof.
  unfold rejectedRun.
  eapply reach_step;
    [|apply step_wake; [vm_compute; now left | vm_compute; discriminate]].
  eapply reach_step; [|apply step_advance].
  eapply reach_step;
    [|apply step_timer; [vm_compute; now left | vm_compute; discriminate]].
  eapply reach_step; [|apply step_advance].
  eapply reach_step; [|apply step_finish; vm_compute; now left].
  eapply reach_step; [|apply step_execute].
  eapply reach_step; [apply reach_initial | apply step_execute].
Qed.

Lemma throttler_guarantees_witness :
  events rejectedRun
    = [Started 1 1500; Settled 0 Rejected 1000; Started 0 1000] /\
  spaced minInterval [1000; 1500] /\
  serial [Started 1 1500; Settled 0 Rejected 1000; Started 0 1000].
Proof.
  assert (E : events rejectedRun
              = [Started 1 1500; Settled 0 Rejected 1000; Started 0 1000])
    by (vm_compute; reflexivity).
  pose proof (throttler_guarantees 1000 rejectedRun rejectedRun_reachable)
    as (_ & Hsp & Hse & _).
  rewrite E in Hsp, Hse. split; [exact E|]. split; [exact Hsp | exact Hse].
Defined.

Set Implicit Arguments.

End QueueFacts.

(** ** formatPhoneNumber is idempotent *)

Lemma forallb_firstn (f : N -> bool) (n : nat) (s : jsstring) :
  forallb f s = true -> forallb f (firstn n s) = true.
Proof.
  revert n. induction s as [|c s IH]; intros [|n] H; simpl in *; try reflexivity.
  apply andb_true_iff in H as [Hc Hs]. now rewrite Hc, IH.
Qed.

Lemma forallb_skipn (f : N -> bool) (n : nat) (s : jsstring) :
  forallb f s = true -> forallb f (skipn n s) = true.
Proof.
  revert n. induction s as [|c s IH]; intros [|n] H; simpl in *; try reflexivity.
  - exact H.
  - apply andb_true_iff in H as [Hc Hs]. now apply IH.
Qed.

Lemma hyphenate3_digits (i j : nat) (d : jsstring) :
  forallb isDigit d = true -> filter isDigit (hyphenate3 i j d) = d.
Proof.
  intros Hd. unfold hyphenate3.
  rewrite !filter_digit_app_hyphen.
  rewrite !filter_all
    by auto using forallb_firstn, forallb_skipn.
  rewrite Nat.add_comm, <- skipn_skipn, firstn_skipn. apply firstn_skipn.
Qed.

Lemma hyphenate2_digits (i : nat) (d : jsstring) :
  forallb isDigit d = true -> filter isDigit (hyphenate2 i d) = d.
Proof.
  intros Hd. unfold hyphenate2. rewrite filter_digit_app_hyphen.
  rewrite !filter_all by auto using forallb_firstn, forallb_skipn.
  apply firstn_skipn.
Qed.

Lemma hyphenate3_shape (i j : nat) (d : jsstring) :
  forallb isDigit d = true ->
  2 <= i <= 4 -> 2 <= j <= 4 -> length d = i + j + 4 ->
  testHyphenated (hyphenate3 i j d) = true.
Proof.
  intros Hd Hi Hj Hl. unfold hyphenate3. apply testHyphenated_build;
    auto using forallb_firstn, forallb_skipn.
  - rewrite length_firstn. lia.
  - rewrite length_firstn, length_skipn. lia.
  - rewrite length_skipn. lia.
Qed.

Lemma hyphenate2_no_shape (d : jsstring) :
  forallb isDigit d = true -> length d = 8 ->
  testHyphenated (hyphenate2 4 d) = false.
Proof.
  intros Hd Hl. unfold hyphenate2, testHyphenated, digitRun.
  destruct (takeWhile_app_stop isDigit (firstn 4 d) HYPHEN (skipn 4 d)
              (forallb_firstn _ 4 d Hd) HYPHEN_not_digit) as [-> ->].
  rewrite length_firstn, Hl. cbn [Nat.min Nat.leb andb].
  rewrite N.eqb_refl. cbn [andb].
  destruct (takeWhile_all isDigit (skipn 4 d) (forallb_skipn _ 4 d Hd)) as [-> ->].
  rewrite length_skipn, Hl. reflexivity.
Qed.

Lemma hyphenate3_no_shape (d : jsstring) :
  forallb isDigit d = true -> length d = 9 ->
  testHyphenated (hyphenate3 3 3 d) = false.
Proof.
  intros Hd Hl. unfold hyphenate3, testHyphenated, digitRun.
  destruct (takeWhile_app_stop isDigit (firstn 3 d) HYPHEN
              (firstn 3 (skipn 3 d) ++ HYPHEN :: skipn (3 + 3) d)
              (forallb_firstn _ 3 d Hd) HYPHEN_not_digit) as [-> ->].
  rewrite length_firstn, Hl. cbn [Nat.min Nat.leb andb].
  rewrite N.eqb_refl. cbn [andb].
  destruct (takeWhile_app_stop isDigit (firstn 3 (skipn 3 d)) HYPHEN
              (skipn (3 + 3) d)
              (forallb_firstn _ 3 _ (forallb_skipn _ 3 d Hd)) HYPHEN_not_digit)
    as [-> ->].
  rewrite length_firstn, length_skipn, Hl. cbn [Nat.min Nat.sub Nat.leb andb].
  rewrite N.eqb_refl. cbn [andb].
  destruct (takeWhile_all isDigit (skipn (3 + 3) d) (forallb_skipn _ _ d Hd))
    as [-> ->].
  rewrite length_skipn, Hl. reflexivity.
Qed.

Lemma formatByLength_form (d : jsstring) :
  forallb isDigit d = true -> PhoneForm d (formatByLength d).
Proof.
  intros Hd.
  assert (C : length d <= 7 \/ length d = 8 \/ length d = 9 \/ length d = 10
              \/ length d = 11 \/ 12 <= length d) by lia.
  destruct C as [C|[C|[C|[C|[C|C]]]]].
  - rewrite formatByLength_other by auto. constructor. now left.
  - rewrite formatByLength_8 by auto. now constructor.
  - rewrite formatByLength_9 by auto. now constructor.
  - rewrite formatByLength_10 by auto.
    repeat match goal with
           | |- context [if ?b then _ else _] => destruct b
           end; (apply form_10; [assumption | reflexivity | lia]).
  - rewrite formatByLength_11 by auto. now constructor.
  - rewrite formatByLength_other by auto. constructor. now right.
Qed.

Lemma includes_hyphen_app (a r : jsstring) :
  includes [HYPHEN] (a ++ HYPHEN :: r) = true.
Proof.
  rewrite includes_char, existsb_app. cbn [existsb]. rewrite N.eqb_refl.
  apply orb_true_r.
Qed.

Lemma PhoneForm_fixed (d r : jsstring) :
  forallb isDigit d = true -> length d <= 11 -> PhoneForm d r ->
  formatPhoneNumber r = r.
Proof.
  intros Hd Hl F. destruct F as [C|C|C|i j C Hij Hi|C].
  - destruct d as [|c d]; [reflexivity|].
    rewrite formatPhoneNumber_reformat.
    + rewrite filter_all by exact Hd. apply formatByLength_other; [exact Hd|].
      left. lia.
    + rewrite filter_all by exact Hd. exact Hl.
    + rewrite <- (filter_all isDigit (c :: d) Hd) at 1.
      now rewrite digits_no_hyphen.
  - rewrite formatPhoneNumber_reformat.
    + rewrite hyphenate2_digits by exact Hd. now apply formatByLength_8.
    + rewrite hyphenate2_digits by exact Hd. exact Hl.
    + rewrite hyphenate2_no_shape by assumption. apply andb_false_r.
  - rewrite formatPhoneNumber_reformat.
    + rewrite hyphenate3_digits by exact Hd. now apply formatByLength_9.
    + rewrite hyphenate3_digits by exact Hd. exact Hl.
    + rewrite hyphenate3_no_shape by assumption. apply andb_false_r.
  - apply formatPhoneNumber_pass.
    + rewrite hyphenate3_digits by exact Hd. exact Hl.
    + rewrite hyphenate3_shape by (assumption || lia).
      unfold hyphenate3. now rewrite includes_hyphen_app.
  - apply formatPhoneNumber_pass.
    + rewrite hyphenate3_digits by exact Hd. exact Hl.
    + rewrite hyphenate3_shape by (assumption || lia).
      unfold hyphenate3. now rewrite includes_hyphen_app.
Qed.

Lemma formatPhoneNumber_idempotent (s : jsstring) :
  formatPhoneNumber (formatPhoneNumber s) = formatPhoneNumber s.
Proof.
  destruct (Nat.le_gt_cases (length (filter isDigit s)) 11) as [Hl|Hl].
  - destruct (includes [HYPHEN] s && testHyphenated s) eqn:E.
    + rewrite (formatPhoneNumber_pass s Hl E).
      exact (formatPhoneNumber_pass s Hl E).
    + rewrite (formatPhoneNumber_reformat s Hl E).
      eapply PhoneForm_fixed; [apply forallb_filter | exact Hl |].
      apply formatByLength_form, forallb_filter.
  - rewrite (formatPhoneNumber_too_long s Hl). reflexivity.
Qed.

(** ** The post-processor on phone numbers *)

Lemma isPhoneText_enum (c : N) :
  isPhoneText c = true ->
  In c [44; 45; 48; 49; 50; 51; 52; 53; 54; 55; 56; 57]%N.
Proof.
  unfold isPhoneText, digitOrHyphen, isDigit, HYPHEN, COMMA. intros H.
  assert (C : (c = 44 \/ c = 45 \/ (48 <= c /\ c <= 57))%N).
  { apply orb_true_iff in H as [H|H]; [|apply N.eqb_eq in H; now left].
    apply orb_true_iff in H as [H|H]; [|apply N.eqb_eq in H; right; now left].
    apply andb_true_iff in H as [H1 H2].
    apply N.leb_le in H1, H2. right; right. lia. }
  simpl. lia.
Qed.

(** A property of code units that holds on the twelve code units of the
    phone alphabet holds on every phone text. *)
Ltac by_enum H :=
  apply isPhoneText_enum in H; simpl in H;
  repeat (destruct H as [H|H]; [subst; reflexivity|]); destruct H.

Lemma phoneText_noSpace (c : N) : isPhoneText c = true -> isSpace c = false.
Proof. intros H. by_enum H. Qed.

Lemma phoneText_ascii (c : N) : isPhoneText c = true -> (c <? 128)%N = true.
Proof. intros H. by_enum H. Qed.

Lemma phoneText_halfwidth (c : N) :
  isPhoneText c = true -> isFullwidthAlnum c = false.
Proof. intros H. by_enum H. Qed.

Lemma phoneText_symbols (c : N) :
  isPhoneText c = true ->
  (c =? MIDDLE_DOT)%N = false /\ (c =? FULL_STOP)%N = false.
Proof. intros H. split; by_enum H. Qed.

Lemma phoneText_kana (c : N) :
  isPhoneText c = true ->
  inClass dakutenBases c = false /\ inClass handakutenBases c = false
  /\ inClass halfKatakana c = false.
Proof. intros H. repeat split; by_enum H. Qed.

Lemma digitOrHyphen_phoneChar (c : N) :
  digitOrHyphen c = true -> isPhoneChar c = true.
Proof.
  unfold digitOrHyphen, isPhoneChar. intros H. now rewrite H.
Qed.

Lemma digitOrHyphen_phoneText (c : N) :
  digitOrHyphen c = true -> isPhoneText c = true.
Proof. unfold isPhoneText. intros ->. reflexivity. Qed.

Lemma digitOrHyphen_enum (c : N) :
  digitOrHyphen c = true ->
  In c [45; 48; 49; 50; 51; 52; 53; 54; 55; 56; 57]%N.
Proof.
  unfold digitOrHyphen, isDigit, HYPHEN. intros H.
  assert (C : (c = 45 \/ (48 <= c /\ c <= 57))%N).
  { apply orb_true_iff in H as [H|H]; [|apply N.eqb_eq in H; now left].
    apply andb_true_iff in H as [H1 H2].
    apply N.leb_le in H1, H2. right. lia. }
  simpl. lia.
Qed.

Lemma digitOrHyphen_noSeparator (c : N) :
  digitOrHyphen c = true -> isListSeparator c = false.
Proof.
  intros H. apply digitOrHyphen_enum in H; simpl in H.
  repeat (destruct H as [H|H]; [subst; reflexivity|]); destruct H.
Qed.

Lemma forallb_impl (f g : N -> bool) (s : jsstring) :
  (forall c, f c = true -> g c = true) ->
  forallb f s = true -> forallb g s = true.
Proof.
  intros Hfg. induction s as [|c s IH]; simpl; [reflexivity|].
  intros H. apply andb_true_iff in H as [Hc Hs]. now rewrite (Hfg c Hc), IH.
Qed.

Lemma dropWhile_none (f : N -> bool) (s : jsstring) :
  forallb (fun c => negb (f c)) s = true -> dropWhile f s = s.
Proof.
  destruct s as [|c s]; simpl; [reflexivity|].
  intros H. apply andb_true_iff in H as [Hc _].
  now destruct (f c).
Qed.

Lemma trim_none (s : jsstring) :
  forallb (fun c => negb (isSpace c)) s = true -> trim s = s.
Proof.
  intros H. unfold trim, trimStart, trimEnd.
  rewrite (dropWhile_none isSpace s H).
  rewrite dropWhile_none; [apply rev_involutive|].
  apply forallb_forall. intros c Hc. apply in_rev in Hc.
  now apply (proj1 (forallb_forall _ s) H).
Qed.

Lemma map_fixed (f : N -> N) (s : jsstring) :
  (forall c, In c s -> f c = c) -> map f s = s.
Proof.
  induction s as [|c s IH]; simpl; [reflexivity|].
  intros H. rewrite (H c) by now left. rewrite IH; [reflexivity|].
  intros x Hx. apply H. now right.
Qed.

Lemma replaceMarked_none (bases : jsstring) (mark : N) (fn : N -> jsstring)
    (s : jsstring) :
  forallb (fun c => negb (inClass bases c)) s = true ->
  replaceMarked bases mark fn s = s.
Proof.
  induction s as [|c rest IH]; [reflexivity|].
  intros H. cbn [forallb] in H. apply andb_true_iff in H as [Hc Hr].
  cbn [replaceMarked]. destruct rest as [|m rest']; [reflexivity|].
  apply negb_true_iff in Hc. rewrite Hc. cbn [andb].
  now rewrite (IH Hr).
Qed.

Lemma phoneText_forall (P : N -> bool) (s : jsstring) :
  (forall c, isPhoneText c = true -> P c = true) ->
  forallb isPhoneText s = true -> forallb P s = true.
Proof. apply forallb_impl. Qed.

(** The conversions that precede the field-specific part leave a phone text
    as it is. *)
Lemma phoneText_conversions (s : jsstring) :
  forallb isPhoneText s = true ->
  trim s = s /\ toHalfwidth s = s /\ convertSymbols s = s
  /\ convertKatakana s = s.
Proof.
  intros H. pose proof (proj1 (forallb_forall _ s) H) as Hin.
  split; [|split; [|split]].
  - apply trim_none. eapply forallb_impl; [|exact H].
    intros c Hc. now rewrite (phoneText_noSpace c Hc).
  - apply map_fixed. intros c Hc.
    now rewrite (phoneText_halfwidth c (Hin c Hc)).
  - apply map_fixed. intros c Hc.
    destruct (phoneText_symbols c (Hin c Hc)) as [-> ->]. reflexivity.
  - unfold convertKatakana.
    rewrite (replaceMarked_none dakutenBases).
    + rewrite (replaceMarked_none handakutenBases).
      * apply map_fixed. intros c Hc.
        destruct (phoneText_kana c (Hin c Hc)) as (_ & _ & ->). reflexivity.
      * eapply forallb_impl; [|exact H]. intros c Hc.
        destruct (phoneText_kana c Hc) as (_ & -> & _). reflexivity.
    + eapply forallb_impl; [|exact H]. intros c Hc.
      destruct (phoneText_kana c Hc) as (-> & _ & _). reflexivity.
Qed.

Lemma PhoneForm_alphabet (d r : jsstring) :
  forallb isDigit d = true -> PhoneForm d r -> forallb digitOrHyphen r = true.
Proof.
  intros Hd F.
  assert (D : forall x, forallb isDigit x = true -> forallb digitOrHyphen x = true).
  { intros x. apply forallb_impl. intros c Hc. unfold digitOrHyphen.
    now rewrite Hc. }
  assert (Hh : digitOrHyphen HYPHEN = true) by reflexivity.
  destruct F; unfold hyphenate2, hyphenate3;
    rewrite ?forallb_app; cbn [forallb]; rewrite ?forallb_app; cbn [forallb];
    rewrite ?Hh, ?D by auto using forallb_firstn, forallb_skipn; reflexivity.
Qed.

Lemma formatPhoneNumber_alphabet (s : jsstring) :
  forallb digitOrHyphen (formatPhoneNumber s) = true.
Proof.
  destruct (Nat.le_gt_cases (length (filter isDigit s)) 11) as [Hl|Hl].
  - destruct (includes [HYPHEN] s && testHyphenated s) eqn:E.
    + rewrite (formatPhoneNumber_pass s Hl E).
      apply andb_true_iff in E as [_ E].
      destruct (testHyphenated_shape s E) as (a & b & c & -> & Ha & Hb & Hc & _).
      assert (D : forall x, forallb isDigit x = true ->
                            forallb digitOrHyphen x = true).
      { intros x. apply forallb_impl. intros y Hy. unfold digitOrHyphen.
        now rewrite Hy. }
      rewrite forallb_app. cbn [forallb]. rewrite forallb_app. cbn [forallb].
      now rewrite !D by assumption.
    + rewrite (formatPhoneNumber_reformat s Hl E).
      eapply PhoneForm_alphabet; [apply forallb_filter|].
      apply formatByLength_form, forallb_filter.
  - now rewrite formatPhoneNumber_too_long.
Qed.

(** *** Splitting and joining *)

Lemma split_nonempty (sep : N -> bool) (s : jsstring) : split sep s <> [].
Proof.
  induction s as [|c s IH]; simpl; [discriminate|].
  destruct (sep c); [discriminate|]. now destruct (split sep s).
Qed.

Lemma split_no_separator (sep : N -> bool) (s : jsstring) :
  forallb (fun c => negb (sep c)) s = true -> split sep s = [s].
Proof.
  induction s as [|c s IH]; simpl; [reflexivity|].
  intros H. apply andb_true_iff in H as [Hc Hs].
  apply negb_true_iff in Hc. now rewrite Hc, (IH Hs).
Qed.

Lemma split_app_separator (sep : N -> bool) (a : jsstring) (c : N) (r : jsstring) :
  forallb (fun x => negb (sep x)) a = true -> sep c = true ->
  split sep (a ++ c :: r) = a :: split sep r.
Proof.
  intros Ha Hc. induction a as [|x a IH]; simpl.
  - now rewrite Hc.
  - simpl in Ha. apply andb_true_iff in Ha as [Hx Ha].
    apply negb_true_iff in Hx. now rewrite Hx, (IH Ha).
Qed.

Lemma split_join (sep : N -> bool) (c : N) (items : list jsstring) :
  sep c = true -> items <> [] ->
  Forall (fun it => forallb (fun x => negb (sep x)) it = true) items ->
  split sep (join [c] items) = items.
Proof.
  intros Hc Hne Hall. revert Hne.
  induction Hall as [|x items Hx Hall IH]; intros Hne; [now destruct Hne|].
  destruct items as [|y rest].
  - simpl. now apply split_no_separator.
  - change (join [c] (x :: y :: rest)) with (x ++ c :: join [c] (y :: rest)).
    rewrite split_app_separator by assumption.
    rewrite IH by discriminate. reflexivity.
Qed.

Lemma hasListSeparator_exists (s : jsstring) :
  hasListSeparator s = existsb isListSeparator s.
Proof.
  unfold hasListSeparator. rewrite !includes_char.
  induction s as [|c s IH]; [reflexivity|]. cbn [existsb]. rewrite <- IH.
  unfold isListSeparator. rewrite (N.eqb_sym COMMA), (N.eqb_sym IDEO_COMMA).
  destruct (c =? COMMA)%N, (c =? IDEO_COMMA)%N,
    (existsb (N.eqb COMMA) s), (existsb (N.eqb IDEO_COMMA) s); reflexivity.
Qed.

Lemma split_two (s : jsstring) :
  hasListSeparator s = true ->
  exists a b rest, split isListSeparator s = a :: b :: rest.
Proof.
  rewrite hasListSeparator_exists.
  induction s as [|c s IH]; [discriminate|]. cbn [existsb split]. intros H.
  destruct (isListSeparator c) eqn:S.
  - destruct (split isListSeparator s) as [|b rest] eqn:E;
      [now apply split_nonempty in E|]. now exists [], b, rest.
  - destruct (IH H) as (a & b & rest & ->).
    now exists (c :: a), b, rest.
Qed.

Lemma join_has_separator (x y : jsstring) (rest : list jsstring) :
  hasListSeparator (join [COMMA] (x :: y :: rest)) = true.
Proof.
  change (join [COMMA] (x :: y :: rest))
    with (x ++ COMMA :: join [COMMA] (y :: rest)).
  rewrite hasListSeparator_exists, existsb_app. cbn [existsb].
  replace (isListSeparator COMMA) with true by reflexivity.
  now rewrite orb_true_r.
Qed.

Lemma join_alphabet (items : list jsstring) :
  Forall (fun it => forallb digitOrHyphen it = true) items ->
  forallb isPhoneText (join [COMMA] items) = true.
Proof.
  induction 1 as [|x items Hx Hall IH]; [reflexivity|].
  assert (Hx' : forallb isPhoneText x = true).
  { eapply forallb_impl; [|exact Hx]. apply digitOrHyphen_phoneText. }
  destruct items as [|y rest]; [exact Hx'|].
  change (join [COMMA] (x :: y :: rest))
    with (x ++ COMMA :: join [COMMA] (y :: rest)).
  rewrite forallb_app. cbn [forallb]. now rewrite Hx', IH.
Qed.

Lemma no_separator_in_phone (s : jsstring) :
  forallb digitOrHyphen s = true -> hasListSeparator s = false.
Proof.
  intros H. rewrite hasListSeparator_exists.
  induction s as [|c s IH]; [reflexivity|]. cbn [existsb forallb] in *.
  apply andb_true_iff in H as [Hc Hs]. rewrite (IH Hs), orb_false_r.
  now apply digitOrHyphen_noSeparator.
Qed.

Lemma phone_item_fixed (z : jsstring) :
  formatPhoneNumber (filter isPhoneChar (trim (formatPhoneNumber z)))
  = formatPhoneNumber z.
Proof.
  pose proof (formatPhoneNumber_alphabet z) as A.
  assert (T : forallb isPhoneText (formatPhoneNumber z) = true).
  { eapply forallb_impl; [|exact A]. apply digitOrHyphen_phoneText. }
  destruct (phoneText_conversions _ T) as (-> & _).
  rewrite filter_all.
  - apply formatPhoneNumber_idempotent.
  - eapply forallb_impl; [|exact A]. apply digitOrHyphen_phoneChar.
Qed.

Section PhoneIdempotence.

Variable normalizeNFC : jsstring -> jsstring.

(** Canonical composition leaves a string of ASCII code units as it is. *)
Hypothesis normalizeNFC_ascii :
  forall s, forallb (fun c => (c <? 128)%N) s = true -> normalizeNFC s = s.

Let formatItem : jsstring -> jsstring :=
  fun num => formatPhoneNumber (filter isPhoneChar (trim num)).

(** The post-processor on a text that is already a phone text. *)
Lemma postProcess_phone_text (r : jsstring) :
  forallb isPhoneText r = true ->
  postProcessOcrResult normalizeNFC r PhoneNumber =
    if isEmpty r then r
    else if hasListSeparator r
         then join [COMMA] (map formatItem (split isListSeparator r))
         else formatPhoneNumber (filter isPhoneChar r).
Proof.
  intros H. unfold postProcessOcrResult.
  destruct (isEmpty r); [reflexivity|].
  rewrite normalizeNFC_ascii
    by (eapply forallb_impl; [|exact H]; apply phoneText_ascii).
  destruct (phoneText_conversions r H) as (-> & -> & -> & ->).
  reflexivity.
Qed.

Lemma postProcess_phone_single (z : jsstring) :
  postProcessOcrResult normalizeNFC (formatPhoneNumber z) PhoneNumber
  = formatPhoneNumber z.
Proof.
  pose proof (formatPhoneNumber_alphabet z) as A.
  rewrite postProcess_phone_text
    by (eapply forallb_impl; [|exact A]; apply digitOrHyphen_phoneText).
  destruct (isEmpty (formatPhoneNumber z)) eqn:E; [reflexivity|].
  rewrite (no_separator_in_phone _ A).
  rewrite filter_all
    by (eapply forallb_impl; [|exact A]; apply digitOrHyphen_phoneChar).
  apply formatPhoneNumber_idempotent.
Qed.

Lemma postProcess_phone_list (a b : jsstring) (rest : list jsstring) :
  let r := join [COMMA] (map formatItem (a :: b :: rest)) in
  postProcessOcrResult normalizeNFC r PhoneNumber = r.
Proof.
  intros r.
  assert (Items : Forall (fun it => forallb digitOrHyphen it = true)
                    (map formatItem (a :: b :: rest))).
  { apply Forall_forall. intros it Hit. apply in_map_iff in Hit as (z & <- & _).
    apply formatPhoneNumber_alphabet. }
  rewrite postProcess_phone_text by (apply join_alphabet; exact Items).
  assert (Hsep : hasListSeparator r = true) by apply join_has_separator.
  assert (Hne : isEmpty r = false).
  { destruct r; [discriminate Hsep | reflexivity]. }
  rewrite Hne, Hsep. unfold r at 1.
  rewrite split_join.
  - unfold r. f_equal. rewrite map_map. apply map_ext.
    intros z. unfold formatItem at 1 2. apply phone_item_fixed.
  - reflexivity.
  - discriminate.
  - eapply Forall_impl; [|exact Items]. intros it Hit.
    eapply forallb_impl; [|exact Hit]. intros c Hc.
    now rewrite (digitOrHyphen_noSeparator c Hc).
Qed.

Lemma postProcess_phone_twice (x : jsstring) :
  postProcessOcrResult normalizeNFC
    (postProcessOcrResult normalizeNFC x PhoneNumber) PhoneNumber
  = postProcessOcrResult normalizeNFC x PhoneNumber.
Proof.
  unfold postProcessOcrResult at 2 3.
  destruct (isEmpty x) eqn:E.
  - destruct x; [reflexivity | discriminate E].
  - set (t := convertKatakana _).
    destruct (hasListSeparator t) eqn:S.
    + destruct (split_two t S) as (a & b & rest & ->).
      apply postProcess_phone_list.
    + apply postProcess_phone_single.
Qed.

End PhoneIdempotence.

(** ** Idempotence of the post-processor *)

Lemma nfcCompose_ascii (c m : N) : (m <? 128)%N = true -> nfcCompose c m = None.
Proof.
  intros H. apply N.ltb_lt in H. unfold nfcCompose.
  replace (m =? COMBINING_VOICED)%N with false
    by (symmetry; apply N.eqb_neq; unfold COMBINING_VOICED; lia).
  replace (m =? COMBINING_SEMI_VOICED)%N with false
    by (symmetry; apply N.eqb_neq; unfold COMBINING_SEMI_VOICED; lia).
  reflexivity.
Qed.

Lemma nfcKana_ascii (s : jsstring) :
  forallb (fun c => (c <? 128)%N) s = true -> nfcKana s = s.
Proof.
  induction s as [|c rest IH]; [reflexivity|].
  intros H. cbn [forallb] in H. apply andb_true_iff in H as [Hc Hr].
  cbn [nfcKana]. destruct rest as [|m rest']; [reflexivity|].
  assert (Hm : (m <? 128)%N = true).
  { cbn [forallb] in Hr. now apply andb_true_iff in Hr as [Hm _]. }
  rewrite (nfcCompose_ascii c m Hm). now rewrite (IH Hr).
Qed.

(** C8, as stated, fails.  For a payee name, dropping a denylist word can
    join its neighbours into another denylist word, which the second pass
    drops.  For a phonetic field, the shift by 0x60 sends the katakana VE to
    the combining voiced mark, which the normalisation of the second pass
    composes with the kana before it; for the other fields a half-width kana
    before that mark becomes a full-width one, with the same effect. *)
Lemma postProcess_not_idempotent :
  postProcessOcrResult nfcKana
    (postProcessOcrResult nfcKana (js "株式株式会社会社テスト") PayeeName) PayeeName
    <> postProcessOcrResult nfcKana (js "株式株式会社会社テスト") PayeeName /\
  postProcessOcrResult nfcKana
    (postProcessOcrResult nfcKana (js "カヹ") Phonetic) Phonetic
    <> postProcessOcrResult nfcKana (js "カヹ") Phonetic /\
  postProcessOcrResult nfcKana
    (postProcessOcrResult nfcKana (js "ｶ" ++ [COMBINING_VOICED]) Freeform) Freeform
    <> postProcessOcrResult nfcKana (js "ｶ" ++ [COMBINING_VOICED]) Freeform.
Proof. vm_compute. repeat split; discriminate. Qed.

(** The failure on payee names does not depend on the normalisation: it
    needs only that the two strings involved are left as they are. *)
Lemma postProcess_payee_not_idempotent (normalizeNFC : jsstring -> jsstring) :
  normalizeNFC (js "株式株式会社会社テスト") = js "株式株式会社会社テスト" ->
  normalizeNFC (js "株式会社テスト") = js "株式会社テスト" ->
  postProcessOcrResult normalizeNFC
    (postProcessOcrResult normalizeNFC (js "株式株式会社会社テスト") PayeeName)
    PayeeName
  <> postProcessOcrResult normalizeNFC (js "株式株式会社会社テスト") PayeeName.
Proof.
  intros H1 H2.
  assert (E1 : postProcessOcrResult normalizeNFC (js "株式株式会社会社テスト") PayeeName
               = js "株式会社テスト").
  { unfold postProcessOcrResult. cbn [isEmpty js]. 
    change (isEmpty (js "株式株式会社会社テスト")) with false. cbv iota.
    rewrite H1. vm_compute. reflexivity. }
  rewrite E1.
  assert (E2 : postProcessOcrResult normalizeNFC (js "株式会社テスト") PayeeName
               = js "テスト").
  { unfold postProcessOcrResult.
    change (isEmpty (js "株式会社テスト")) with false. cbv iota.
    rewrite H2. vm_compute. reflexivity. }
  rewrite E2. vm_compute. discriminate.
Qed.

(** C8 (amended): for the phone-number field the post-processor is
    idempotent on every input, whatever the normalisation does to non-ASCII
    text; for the other field types it is idempotent on the representative
    inputs: a company name with denylist words, half-width katakana for a
    phonetic field, full-width letters and a voiced half-width kana. *)
Theorem postProcess_phone_idempotent (normalizeNFC : jsstring -> jsstring) :
  (forall s, forallb (fun c => (c <? 128)%N) s = true -> normalizeNFC s = s) ->
  (forall x : jsstring,
     postProcessOcrResult normalizeNFC
       (postProcessOcrResult normalizeNFC x PhoneNumber) PhoneNumber
     = postProcessOcrResult normalizeNFC x PhoneNumber) /\
  (forall p : jsstring * FieldType,
     In p [(js "株式会社テスト, 支店", PayeeName);
           (js "ｶﾀｶﾅ ヤマダ", Phonetic);
           (js "ＡＢＣ１２３・ｶﾞ", Clipboard);
           (js "ＡＢＣ１２３・ｶﾞ", Freeform)] ->
     postProcessOcrResult nfcKana
       (postProcessOcrResult nfcKana (fst p) (snd p)) (snd p)
     = postProcessOcrResult nfcKana (fst p) (snd p)).
Proof.
  intros H. split; [intros x; now apply postProcess_phone_twice|].
  intros p Hp. simpl in Hp.
  repeat (destruct Hp as [<-|Hp]; [vm_compute; reflexivity|]).
  destruct Hp.
Qed.

Lemma postProcess_phone_idempotent_witness :
  (forall s, forallb (fun c => (c <? 128)%N) s = true -> nfcKana s = s) /\
  postProcessOcrResult nfcKana
    (postProcessOcrResult nfcKana (js "０３１２３４５６７８、090 1111 2222") PhoneNumber)
    PhoneNumber
  = postProcessOcrResult nfcKana (js "０３１２３４５６７８、090 1111 2222") PhoneNumber.
Proof.
  split; [exact nfcKana_ascii|].
  exact (proj1 (postProcess_phone_idempotent nfcKana nfcKana_ascii)
           (js "０３１２３４５６７８、090 1111 2222")).
Defined.

Example pp_fullwidth_phones :
  postProcessOcrResult nfcKana (js "０３１２３４５６７８、090 1111 2222") PhoneNumber
  = js "03-1234-5678,090-1111-2222".
Proof. vm_compute. reflexivity. Qed.

(** ** The dual-field parser *)

Lemma matchLabeled_absent (label text : jsstring) :
  includes label text = false -> matchLabeled label text = None.
Proof.
  induction text as [|c text IH]; simpl; intros H.
  - apply orb_false_iff in H as [H _]. now rewrite H.
  - apply orb_false_iff in H as [H1 H2]. rewrite H1. now apply IH.
Qed.

(** The capture of a labelled line: after the label and a run of white
    space, the group takes the text up to the next line feed or the end.  The
    run of white space may hold line feeds: a blank labelled line hands over
    the line that follows it. *)
Lemma captureLine_value (value rest : jsstring) :
  forallb (fun c => negb (isLineTerminator c)) value = true ->
  rest = [] \/ (exists rest', rest = LF :: rest') ->
  captureLine (value ++ rest) = Some value.
Proof.
  intros Hv Hr. unfold captureLine.
  destruct Hr as [->|[rest' ->]].
  - rewrite app_nil_r.
    destruct (takeWhile_all (fun c => negb (isLineTerminator c)) value Hv)
      as [-> ->]. reflexivity.
  - destruct (takeWhile_app_stop (fun c => negb (isLineTerminator c))
                value LF rest' Hv eq_refl) as [-> ->].
    reflexivity.
Qed.

Lemma afterLabel_value (ws value rest : jsstring) (v0 : N) (value' : jsstring) :
  forallb (fun c => isSpace c || (c =? IDEO_SPACE)%N) ws = true ->
  value = v0 :: value' ->
  isSpace v0 || (v0 =? IDEO_SPACE)%N = false ->
  forallb (fun c => negb (isLineTerminator c)) value = true ->
  rest = [] \/ (exists rest', rest = LF :: rest') ->
  afterLabel (ws ++ value ++ rest) = Some value.
Proof.
  intros Hws Hv H0 Hl Hr. induction ws as [|c ws IH].
  - subst value. cbn [app afterLabel]. rewrite H0.
    change (v0 :: value' ++ rest) with ((v0 :: value') ++ rest).
    now apply captureLine_value.
  - cbn [forallb] in Hws. apply andb_true_iff in Hws as [Hc Hws].
    change ((c :: ws) ++ value ++ rest) with (c :: (ws ++ value ++ rest)).
    cbn [afterLabel]. rewrite Hc. now rewrite (IH Hws).
Qed.

Lemma startsWith_skipn (p s : jsstring) : skipn (length p) (p ++ s) = s.
Proof. induction p as [|c p IH]; [reflexivity | exact IH]. Qed.

Lemma matchLabeled_unfold (label text : jsstring) :
  matchLabeled label text =
    match (if startsWith label text
           then afterLabel (skipn (length label) text) else None) with
    | Some cap => Some cap
    | None =>
        match text with
        | [] => None
        | _ :: rest => matchLabeled label rest
        end
    end.
Proof. destruct text; reflexivity. Qed.

Lemma matchLabeled_line (label ws value rest : jsstring) (v0 : N)
    (value' : jsstring) :
  forallb (fun c => isSpace c || (c =? IDEO_SPACE)%N) ws = true ->
  value = v0 :: value' ->
  isSpace v0 || (v0 =? IDEO_SPACE)%N = false ->
  forallb (fun c => negb (isLineTerminator c)) value = true ->
  rest = [] \/ (exists rest', rest = LF :: rest') ->
  matchLabeled label (label ++ ws ++ value ++ rest) = Some value.
Proof.
  intros Hws Hv H0 Hl Hr.
  assert (A : afterLabel (skipn (length label) (label ++ ws ++ value ++ rest))
              = Some value).
  { rewrite startsWith_skipn. eapply afterLabel_value; eassumption. }
  rewrite matchLabeled_unfold, startsWith_app, A. reflexivity.
Qed.

Section ParserFacts.

Variable normalizeNFC : jsstring -> jsstring.

(** Without the company label the company field is empty, and without the
    phone label the phone field is empty. *)
Lemma parse_absent_labels (text : jsstring) :
  (includes COMPANY_LABEL text = false ->
     payee_name (parseMultiFieldResult normalizeNFC text) = []) /\
  (includes PHONE_LABEL text = false ->
     phone_number (parseMultiFieldResult normalizeNFC text) = []).
Proof.
  split; intros H; unfold parseMultiFieldResult;
    rewrite (matchLabeled_absent _ _ H); reflexivity.
Qed.

End ParserFacts.

(** C9: the answer format of the prompt with a blank company line.  The
    white-space class after the label runs over the line feed, so the company
    field is taken from the line labelled as the phone number; with two
    phone candidates on that line the list filter drops them and the
    company field is empty. *)
Theorem parse_blank_company_line :
  parseMultiFieldResult nfcKana
    (js "会社名: " ++ [LF] ++ js "電話番号: 03-1234-5678")
  = {| payee_name := js "電話番号: 03-1234-5678";
       phone_number := js "03-1234-5678" |} /\
  parseMultiFieldResult nfcKana
    (js "会社名: " ++ [LF] ++ js "電話番号: 03-1234-5678, 090-1111-2222")
  = {| payee_name := [];
       phone_number := js "03-1234-5678,090-1111-2222" |} /\
  matchLabeled COMPANY_LABEL
    (js "会社名: " ++ [LF] ++ js "電話番号: 03-1234-5678")
  = Some (js "電話番号: 03-1234-5678").
Proof. vm_compute. repeat split; reflexivity. Qed.

(** ** Instances of the theorems stated with hypotheses *)

Lemma formatPhoneNumber_by_digit_count_witness :
  inShape (js "(052) 123 4567") = false /\
  length (filter isDigit (js "(052) 123 4567")) = 10 /\
  formatPhoneNumber (js "(052) 123 4567") = js "052-123-4567".
Proof.
  assert (H1 : inShape (js "(052) 123 4567") = false) by (vm_compute; reflexivity).
  assert (H2 : length (filter isDigit (js "(052) 123 4567")) = 10)
    by (vm_compute; reflexivity).
  split; [exact H1|]. split; [exact H2|].
  destruct (formatPhoneNumber_by_digit_count (js "(052) 123 4567"))
    as (_ & _ & H & _).
  destruct (H H1) as (H10 & _).
  destruct (H10 H2) as (_ & H052 & _).
  rewrite H052; [vm_compute; reflexivity|].
  left. vm_compute. reflexivity.
Defined.

Lemma optimizeImage_fetch_failure :
  optimizeImage (fun _ : jsstring => Throw (js "TypeError: Failed to fetch"))
    (fun b : unit => Ok b) (fun (b : unit) _ => Ok b) (fun _ : unit => 0%Z)
    (fun (c : unit) _ => Ok c) (fun _ : unit => Ok (Str (js "data:image/jpeg;base64,AAAA")))
    (Str (js "data:image/png;base64,AAAA"))
    (ladderOptions (8 # 10) 1400)
  = Ok (Str (js "data:image/png;base64,AAAA")).
Proof.
  refine (proj1 (proj2 (proj2 (proj2 (proj2
    (optimizeImage_never_throws
       (fun _ : jsstring => Throw (js "TypeError: Failed to fetch"))
       (fun b : unit => Ok b) (fun (b : unit) _ => Ok b) (fun _ : unit => 0%Z)
       (fun (c : unit) _ => Ok c)
       (fun _ : unit => Ok (Str (js "data:image/jpeg;base64,AAAA")))
       (Str (js "data:image/png;base64,AAAA"))
       (ladderOptions (8 # 10) 1400)))))
    (js "data:image/png;base64,AAAA") eq_refl) (js "TypeError: Failed to fetch") eq_refl).
Defined.


Lemma cache_bounded_fifo_witness :
  Cache.get (js "ab12")
    (imageCache (onStorageChanged [GeminiModel] AreaLocal
                   (run [OpStore (js "ab12") (js "03-1234-5678")])))
  = None.
Proof.
  refine (proj2 (proj2 (proj2 (proj2
    (cache_bounded_fifo [OpStore (js "ab12") (js "03-1234-5678")]))))
    [GeminiModel] (js "ab12") eq_refl).
Defined.

(** * Further properties of the background script *)

Unset Implicit Arguments.

(** ** The phone formatter *)

(** X1: formatting a formatted number changes nothing. *)
Theorem formatPhoneNumber_twice (s : jsstring) :
  formatPhoneNumber (formatPhoneNumber s) = formatPhoneNumber s.
Proof. apply formatPhoneNumber_idempotent. Qed.

Lemma PhoneForm_digits (d r : jsstring) :
  forallb isDigit d = true -> PhoneForm d r -> filter isDigit r = d.
Proof.
  intros Hd F. destruct F.
  - now apply filter_all.
  - now apply hyphenate2_digits.
  - now apply hyphenate3_digits.
  - now apply hyphenate3_digits.
  - now apply hyphenate3_digits.
Qed.

(** X2: the formatter only inserts or removes separators: with at most
    eleven digits in the input, the result holds the digits of the input, in
    their order, and apart from them only hyphens. *)
Theorem formatPhoneNumber_keeps_digits (s : jsstring) :
  length (filter isDigit s) <= 11 ->
  filter isDigit (formatPhoneNumber s) = filter isDigit s /\
  forallb digitOrHyphen (formatPhoneNumber s) = true.
Proof.
  intros Hl. split; [|apply formatPhoneNumber_alphabet].
  destruct (includes [HYPHEN] s && testHyphenated s) eqn:E.
  - now rewrite (formatPhoneNumber_pass s Hl E).
  - rewrite (formatPhoneNumber_reformat s Hl E).
    apply PhoneForm_digits; [apply forallb_filter|].
    apply formatByLength_form, forallb_filter.
Qed.

Lemma formatPhoneNumber_keeps_digits_witness :
  length (filter isDigit (js "TEL (03) 1234 5678")) <= 11 /\
  filter isDigit (formatPhoneNumber (js "TEL (03) 1234 5678")) = js "0312345678".
Proof.
  assert (H : length (filter isDigit (js "TEL (03) 1234 5678")) <= 11)
    by (vm_compute; lia).
  split; [exact H|].
  rewrite (proj1 (formatPhoneNumber_keeps_digits (js "TEL (03) 1234 5678") H)).
  vm_compute. reflexivity.
Defined.

(** X3: an input with ten or eleven digits always comes back in the shape
    [\d{2,4}-\d{2,4}-\d{4}], whatever separators it was written with. *)
Theorem formatPhoneNumber_canonical_shape (s : jsstring) :
  length (filter isDigit s) = 10 \/ length (filter isDigit s) = 11 ->
  testHyphenated (formatPhoneNumber s) = true /\
  includes [HYPHEN] (formatPhoneNumber s) = true.
Proof.
  intros Hn. assert (Hl : length (filter isDigit s) <= 11) by lia.
  destruct (includes [HYPHEN] s && testHyphenated s) eqn:E.
  - rewrite (formatPhoneNumber_pass s Hl E).
    apply andb_true_iff in E as [E1 E2]. now split.
  - rewrite (formatPhoneNumber_reformat s Hl E).
    pose proof (forallb_filter isDigit s) as Hd.
    pose proof (formatByLength_form (filter isDigit s) Hd) as F.
    destruct F as [C|C|C|i j C Hij Hi|C]; try lia.
    + split; [apply hyphenate3_shape; (assumption || lia)|].
      unfold hyphenate3. apply includes_hyphen_app.
    + split; [apply hyphenate3_shape; (assumption || lia)|].
      unfold hyphenate3. apply includes_hyphen_app.
Qed.

Lemma formatPhoneNumber_canonical_shape_witness :
  (length (filter isDigit (js "090.1234.5678")) = 10
   \/ length (filter isDigit (js "090.1234.5678")) = 11) /\
  testHyphenated (formatPhoneNumber (js "090.1234.5678")) = true.
Proof.
  assert (H : length (filter isDigit (js "090.1234.5678")) = 10
              \/ length (filter isDigit (js "090.1234.5678")) = 11)
    by (right; vm_compute; reflexivity).
  split; [exact H|].
  exact (proj1 (formatPhoneNumber_canonical_shape (js "090.1234.5678") H)).
Defined.

(** ** The post-processor *)

Lemma postProcess_phone_chars (normalizeNFC : jsstring -> jsstring)
    (x : jsstring) :
  forallb isPhoneText (postProcessOcrResult normalizeNFC x PhoneNumber) = true.
Proof.
  unfold postProcessOcrResult.
  destruct (isEmpty x) eqn:E; [destruct x; [reflexivity | discriminate E]|].
  set (t := convertKatakana _).
  destruct (hasListSeparator t).
  - apply join_alphabet. apply Forall_forall. intros it Hit.
    apply in_map_iff in Hit as (z & <- & _). apply formatPhoneNumber_alphabet.
  - eapply forallb_impl; [|apply formatPhoneNumber_alphabet].
    apply digitOrHyphen_phoneText.
Qed.

(** X4: for the phone-number field the result holds digits, hyphens and
    commas only, whatever the input and whatever the normalisation. *)
Theorem postProcess_phone_alphabet (normalizeNFC : jsstring -> jsstring)
    (x : jsstring) :
  forallb isPhoneText (postProcessOcrResult normalizeNFC x PhoneNumber) = true.
Proof. apply postProcess_phone_chars. Qed.

(** *** No convertible code unit is left *)

Lemma lookup_in (m : list (N * N)) (k v : N) :
  lookup m k = Some v -> In v (map snd m).
Proof.
  induction m as [|[k' v'] m IH]; simpl; [discriminate|].
  destruct (k' =? k)%N; [intros [= ->]; now left | right; now apply IH].
Qed.

Lemma inClass_in (cls : jsstring) (c : N) : inClass cls c = true -> In c cls.
Proof.
  unfold inClass. intros H. apply existsb_exists in H as (x & Hx & E).
  apply N.eqb_eq in E. now subst.
Qed.

Lemma table_values_settled (table : list (N * N)) (k v : N) :
  forallb settled (map snd table) = true ->
  lookup table k = Some v -> settled v = true.
Proof.
  intros H Hl. apply (proj1 (forallb_forall _ _) H). eapply lookup_in, Hl.
Qed.

Lemma isFullwidthAlnum_ranges (c : N) :
  isFullwidthAlnum c =
    ((65313 <=? c) && (c <=? 65338) || (65345 <=? c) && (c <=? 65370)
     || (65296 <=? c) && (c <=? 65305))%N.
Proof. reflexivity. Qed.

Lemma fullwidth_range (c : N) :
  isFullwidthAlnum c = true -> (65296 <= c <= 65370)%N.
Proof.
  rewrite isFullwidthAlnum_ranges. intros H.
  repeat (apply orb_true_iff in H as [H|H]);
    apply andb_true_iff in H as [H1 H2]; apply N.leb_le in H1, H2; lia.
Qed.

Lemma below_fullwidth (c : N) : (c < 65296)%N -> isFullwidthAlnum c = false.
Proof.
  intros H. destruct (isFullwidthAlnum c) eqn:E; [|reflexivity].
  apply fullwidth_range in E. lia.
Qed.

Lemma halfKatakana_range (c : N) :
  inClass halfKatakana c = true -> (65382 <= c <= 65437)%N.
Proof.
  intros H. apply inClass_in in H. revert c H. apply Forall_forall.
  repeat constructor; lia.
Qed.

(** Outside the two ranges and the two symbols nothing is convertible. *)
Lemma settled_below (c : N) :
  (c < 65294)%N -> c <> MIDDLE_DOT -> settled c = true.
Proof.
  intros H D. unfold settled, isConvertible.
  rewrite (below_fullwidth c) by lia.
  replace (c =? MIDDLE_DOT)%N with false by (symmetry; now apply N.eqb_neq).
  replace (c =? FULL_STOP)%N with false
    by (symmetry; apply N.eqb_neq; unfold FULL_STOP; lia).
  destruct (inClass halfKatakana c) eqn:E; [|reflexivity].
  apply halfKatakana_range in E. lia.
Qed.

Lemma ascii_settled (c : N) : (c <? 128)%N = true -> settled c = true.
Proof.
  intros H. apply N.ltb_lt in H.
  apply settled_below; [lia | unfold MIDDLE_DOT; lia].
Qed.

Lemma replaceMarked_forallb (P : N -> bool) (bases : jsstring) (mark : N)
    (fn : N -> jsstring) :
  (forall p1, forallb P (fn p1) = true) ->
  forall n t, length t <= n -> forallb P t = true ->
    forallb P (replaceMarked bases mark fn t) = true.
Proof.
  intros Hfn. induction n as [|n IH]; intros t Hl H.
  - destruct t; [reflexivity | simpl in Hl; lia].
  - destruct t as [|c rest]; [reflexivity|].
    cbn [forallb] in H. apply andb_true_iff in H as [Hc Hr].
    cbn [replaceMarked]. destruct rest as [|m rest'].
    + cbn [forallb]. now rewrite Hc.
    + destruct (inClass bases c && (m =? mark)%N).
      * rewrite forallb_app, Hfn. cbn [andb].
        cbn [forallb] in Hr. apply andb_true_iff in Hr as [_ Hr'].
        apply IH; [simpl in Hl |- *; lia | exact Hr'].
      * cbn [forallb]. rewrite Hc. cbn [andb].
        apply IH; [simpl in Hl |- *; lia | exact Hr].
Qed.

Lemma voiced_settled (table : list (N * N)) (mark p1 : N) :
  forallb settled (map snd table) = true -> settled mark = true ->
  forallb settled (voiced table mark p1) = true.
Proof.
  intros Ht Hm. unfold voiced.
  destruct (lookup halfToFullKatakanaMap p1) as [base|] eqn:L.
  - assert (Hb : settled base = true).
    { eapply table_values_settled; [|exact L]. vm_compute. reflexivity. }
    destruct (lookup table base) as [v|] eqn:L2; cbn [forallb].
    + now rewrite (table_values_settled table base v Ht L2).
    + now rewrite Hb, Hm.
  - rewrite forallb_app. cbn [forallb]. rewrite Hm.
    replace (forallb settled (js "undefined")) with true; [reflexivity|].
    vm_compute. reflexivity.
Qed.

(** The three conversion steps, one after the other. *)
Lemma conversions_settled (s : jsstring) :
  forallb settled (convertKatakana (convertSymbols (toHalfwidth s))) = true.
Proof.
  set (nokana := fun c => isFullwidthAlnum c || (c =? MIDDLE_DOT)%N
                          || (c =? FULL_STOP)%N).
  assert (S2 : forallb (fun c => negb (nokana c))
                 (convertSymbols (toHalfwidth s)) = true).
  { assert (S1 : forallb (fun c => negb (isFullwidthAlnum c)) (toHalfwidth s)
                 = true).
    { unfold toHalfwidth. apply forallb_forall. intros y Hy.
      apply in_map_iff in Hy as (c & <- & _).
      destruct (isFullwidthAlnum c) eqn:E; [|now rewrite E].
      apply fullwidth_range in E. rewrite below_fullwidth by lia. reflexivity. }
    unfold convertSymbols. apply forallb_forall. intros y Hy.
    apply in_map_iff in Hy as (c & <- & Hc).
    pose proof (proj1 (forallb_forall _ _) S1 c Hc) as Hn.
    apply negb_true_iff in Hn. unfold nokana.
    destruct (c =? MIDDLE_DOT)%N eqn:D; [reflexivity|].
    destruct (c =? FULL_STOP)%N eqn:F; [reflexivity|].
    now rewrite Hn, D, F. }
  assert (V1 : forall p1, forallb (fun c => negb (nokana c))
                            (voiced dakutenMap FULL_DAKUTEN p1) = true).
  { intros p1. eapply forallb_impl;
      [|apply (voiced_settled dakutenMap FULL_DAKUTEN p1); vm_compute; reflexivity].
    intros c Hc. unfold settled, isConvertible in Hc. unfold nokana.
    apply negb_true_iff in Hc. apply orb_false_iff in Hc as [Hc _].
    now rewrite Hc. }
  assert (V2 : forall p1, forallb (fun c => negb (nokana c))
                            (voiced handakutenMap FULL_HANDAKUTEN p1) = true).
  { intros p1. eapply forallb_impl;
      [|apply (voiced_settled handakutenMap FULL_HANDAKUTEN p1); vm_compute; reflexivity].
    intros c Hc. unfold settled, isConvertible in Hc. unfold nokana.
    apply negb_true_iff in Hc. apply orb_false_iff in Hc as [Hc _].
    now rewrite Hc. }
  unfold convertKatakana.
  set (t := replaceMarked handakutenBases _ _ _).
  assert (S3 : forallb (fun c => negb (nokana c)) t = true).
  { unfold t. eapply replaceMarked_forallb; [exact V2 | reflexivity |].
    eapply replaceMarked_forallb; [exact V1 | reflexivity | exact S2]. }
  apply forallb_forall. intros y Hy. apply in_map_iff in Hy as (c & <- & Hc).
  pose proof (proj1 (forallb_forall _ _) S3 c Hc) as Hn.
  destruct (inClass halfKatakana c) eqn:K.
  - destruct (lookup halfToFullKatakanaMap c) as [v|] eqn:L.
    + eapply table_values_settled; [|exact L]. vm_compute. reflexivity.
    + exfalso. apply inClass_in in K. revert c K L Hc Hn.
      assert (G : Forall (fun c => lookup halfToFullKatakanaMap c <> None)
                    halfKatakana)
        by (repeat constructor; discriminate).
      intros c K L _ _. exact (proj1 (Forall_forall _ _) G c K L).
  - unfold settled, isConvertible. unfold nokana in Hn.
    apply negb_true_iff in Hn. now rewrite Hn, K.
Qed.

Section KeepsProperty.

(** A property of code units that the space and the comma have is kept by
    every step of [removeNgWords] and by the tidying of a payee name. *)
Variable P : N -> bool.
Hypothesis P_space : P 32%N = true.
Hypothesis P_comma : P COMMA = true.

Lemma removeMatches_forallb (words : list jsstring) (s : jsstring) :
  forallb P s = true ->
  forall k, forallb P (removeMatches words k s) = true.
Proof.
  induction s as [|c rest IH]; intros H k; [reflexivity|].
  cbn [forallb] in H. apply andb_true_iff in H as [Hc Hr].
  cbn [removeMatches]. destruct k as [|k]; [|now apply IH].
  destruct (find _ words); [now apply IH|].
  cbn [forallb]. rewrite Hc. now apply IH.
Qed.

Lemma dropWhile_forallb (f : N -> bool) (s : jsstring) :
  forallb P s = true -> forallb P (dropWhile f s) = true.
Proof.
  induction s as [|c rest IH]; intros H; [reflexivity|].
  cbn [dropWhile]. destruct (f c); [|exact H].
  cbn [forallb] in H. apply andb_true_iff in H as [_ Hr]. now apply IH.
Qed.

Lemma rev_forallb (s : jsstring) :
  forallb P s = true -> forallb P (rev s) = true.
Proof.
  intros H. apply forallb_forall. intros c Hc. apply in_rev in Hc.
  exact (proj1 (forallb_forall _ _) H c Hc).
Qed.

Lemma trim_forallb (s : jsstring) :
  forallb P s = true -> forallb P (trim s) = true.
Proof.
  intros H. unfold trim, trimEnd, trimStart.
  now apply rev_forallb, dropWhile_forallb, rev_forallb, dropWhile_forallb.
Qed.

Lemma collapseRun_forallb (s : jsstring) :
  forallb P s = true -> forall b, forallb P (collapseRun b s) = true.
Proof.
  induction s as [|c rest IH]; intros H b; [reflexivity|].
  cbn [forallb] in H. apply andb_true_iff in H as [Hc Hr].
  cbn [collapseRun]. destruct (isSpace c).
  - destruct b; [now apply IH|]. cbn [forallb]. rewrite P_space. now apply IH.
  - cbn [forallb]. rewrite Hc. now apply IH.
Qed.

Lemma cutTrailing_forallb (label s : jsstring) :
  forallb P s = true -> forallb P (cutTrailing label s) = true.
Proof.
  induction s as [|c rest IH]; intros H.
  - cbn [cutTrailing]. now destruct (_ && _).
  - cbn [cutTrailing]. destruct (_ && _); [reflexivity|].
    cbn [forallb] in H |- *. apply andb_true_iff in H as [Hc Hr].
    rewrite Hc. now apply IH.
Qed.

Lemma split_forallb (sep : N -> bool) (s : jsstring) :
  forallb P s = true ->
  Forall (fun it => forallb P it = true) (split sep s).
Proof.
  induction s as [|c rest IH]; intros H; [repeat constructor|].
  cbn [forallb] in H. apply andb_true_iff in H as [Hc Hr].
  specialize (IH Hr). cbn [split]. destruct (sep c); [now constructor|].
  destruct (split sep rest) as [|h t]; [repeat constructor; cbn; now rewrite Hc|].
  inversion IH as [|? ? Hh Ht]; subst. constructor; [|exact Ht].
  cbn [forallb]. now rewrite Hc, Hh.
Qed.

Lemma join_forallb (items : list jsstring) :
  Forall (fun it => forallb P it = true) items ->
  forallb P (join [COMMA] items) = true.
Proof.
  induction 1 as [|x items Hx Hall IH]; [reflexivity|].
  destruct items as [|y rest]; [exact Hx|].
  change (join [COMMA] (x :: y :: rest))
    with (x ++ COMMA :: join [COMMA] (y :: rest)).
  rewrite forallb_app. cbn [forallb]. now rewrite Hx, P_comma, IH.
Qed.

Lemma removeNgWords_forallb (s : jsstring) :
  forallb P s = true -> forallb P (removeNgWords s) = true.
Proof.
  intros H. unfold removeNgWords.
  apply cutTrailing_forallb, cutTrailing_forallb, trim_forallb.
  pose proof (removeMatches_forallb ngWordsList s H 0) as H1.
  destruct (hasListSeparator _); [|exact H1].
  apply join_forallb. apply Forall_forall. intros it Hit.
  apply filter_In in Hit as [Hit _].
  apply in_map_iff in Hit as (z & <- & Hz).
  apply collapseRun_forallb, trim_forallb.
  exact (proj1 (Forall_forall _ _) (split_forallb isListSeparator _ H1) z Hz).
Qed.

End KeepsProperty.

(** The half-width voiced marks U+FF9E and U+FF9F are keys of the
    conversion table but not in the class of the last replacement: after a
    kana that takes no mark they remain. *)
Example pp_voiced_mark_remains :
  postProcessOcrResult nfcKana (js "ｱﾞ") Freeform = [cu "ア"; HALF_DAKUTEN].
Proof. vm_compute. reflexivity. Qed.

(** X5: the post-processor finishes its conversions: whatever the field
    type, the input and the normalisation, the result holds no full-width
    letter or digit, no full-width middle dot or full stop, and none of the
    56 half-width katakana letters U+FF66 to U+FF9D that the last replacement
    matches.  The half-width voiced marks U+FF9E and U+FF9F are not among
    them. *)
Theorem postProcess_conversions_complete (normalizeNFC : jsstring -> jsstring)
    (x : jsstring) (fieldType : FieldType) :
  forallb settled (postProcessOcrResult normalizeNFC x fieldType) = true /\
  forall c, In c (postProcessOcrResult normalizeNFC x fieldType) ->
    isFullwidthAlnum c = false /\ c <> MIDDLE_DOT /\ c <> FULL_STOP
    /\ inClass halfKatakana c = false.
Proof.
  assert (A : forallb settled (postProcessOcrResult normalizeNFC x fieldType) = true).
  { destruct fieldType.
    - eapply forallb_impl; [|apply postProcess_phone_chars].
      intros c Hc. now apply ascii_settled, phoneText_ascii.
    - unfold postProcessOcrResult.
      destruct (isEmpty x) eqn:E; [destruct x; [reflexivity | discriminate E]|].
      apply trim_forallb, collapseRun_forallb; try reflexivity.
      apply removeNgWords_forallb; try reflexivity.
      apply conversions_settled.
    - unfold postProcessOcrResult.
      destruct (isEmpty x) eqn:E; [destruct x; [reflexivity | discriminate E]|].
      unfold katakanaToHiragana. apply forallb_forall. intros y Hy.
      apply in_map_iff in Hy as (c & <- & Hc).
      destruct ((12449 <=? c)%N && (c <=? 12538)%N) eqn:R.
      + apply andb_true_iff in R as [R1 R2]. apply N.leb_le in R1, R2.
        apply settled_below; [lia | unfold MIDDLE_DOT; lia].
      + exact (proj1 (forallb_forall _ _) (conversions_settled _) c Hc).
    - unfold postProcessOcrResult.
      destruct (isEmpty x) eqn:E; [destruct x; [reflexivity | discriminate E]|].
      apply conversions_settled.
    - unfold postProcessOcrResult.
      destruct (isEmpty x) eqn:E; [destruct x; [reflexivity | discriminate E]|].
      apply conversions_settled. }
  split; [exact A|]. intros c Hc.
  pose proof (proj1 (forallb_forall _ _) A c Hc) as H.
  unfold settled, isConvertible in H.
  destruct (isFullwidthAlnum c); [discriminate H|].
  destruct (N.eqb_spec c MIDDLE_DOT) as [|D]; [discriminate H|].
  destruct (N.eqb_spec c FULL_STOP) as [|F]; [discriminate H|].
  destruct (inClass halfKatakana c); [discriminate H|].
  repeat split; assumption.
Qed.

(** ** The dual-field parser *)

(** X6: a text that does not hold the company label gives an empty company
    field, and a text that does not hold the phone label gives an empty
    phone field, whatever the normalisation. *)
Theorem parse_missing_label (normalizeNFC : jsstring -> jsstring)
    (text : jsstring) :
  (includes COMPANY_LABEL text = false ->
     payee_name (parseMultiFieldResult normalizeNFC text) = []) /\
  (includes PHONE_LABEL text = false ->
     phone_number (parseMultiFieldResult normalizeNFC text) = []).
Proof. apply parse_absent_labels. Qed.

Lemma parse_missing_label_witness :
  includes COMPANY_LABEL (js "電話番号: 03-1234-5678") = false /\
  payee_name (parseMultiFieldResult nfcKana (js "電話番号: 03-1234-5678")) = [].
Proof.
  assert (H : includes COMPANY_LABEL (js "電話番号: 03-1234-5678") = false)
    by (vm_compute; reflexivity).
  split; [exact H|].
  exact (proj1 (parse_missing_label nfcKana (js "電話番号: 03-1234-5678")) H).
Defined.

Lemma startsWith_long (p s t : jsstring) :
  length p <= length s -> startsWith p (s ++ t) = startsWith p s.
Proof.
  revert s. induction p as [|a p IH]; intros s H; [now destruct s|].
  destruct s as [|b s]; [simpl in H; lia|].
  cbn [app startsWith]. rewrite IH; [reflexivity | simpl in H; lia].
Qed.

(** The search passes over a stretch in which the label does not begin. *)
Lemma matchLabeled_skip (label pre tail : jsstring) :
  includes label (pre ++ removelast label) = false ->
  matchLabeled label (pre ++ label ++ tail) = matchLabeled label (label ++ tail).
Proof.
  intros H.
  assert (Hl : label <> []).
  { intros ->. now destruct (pre ++ removelast []). }
  induction pre as [|c pre IH]; [reflexivity|].
  cbn [app includes] in H. apply orb_false_iff in H as [Hs Hi].
  rewrite matchLabeled_unfold.
  replace (startsWith label ((c :: pre) ++ label ++ tail)) with false.
  - cbn [app]. exact (IH Hi).
  - symmetry. rewrite (app_removelast_last 0%N Hl) at 2.
    rewrite <- app_assoc, app_assoc.
    rewrite startsWith_long; [exact Hs|].
    rewrite length_app. cbn [length].
    rewrite (app_removelast_last 0%N Hl) at 1. rewrite !length_app.
    cbn [length]. lia.
Qed.

(** X7: the match of a labelled line, wherever the line stands.  When the
    label does not begin before the line, and the label is followed by white
    space, then by a value that starts with a visible code unit and holds no
    line terminator, and the value ends the text or is followed by a line
    feed, group 1 of the match is that value.  The white space may hold line
    feeds. *)
Theorem labelled_line_captured (label pre ws value rest : jsstring) (v0 : N)
    (value' : jsstring) :
  includes label (pre ++ removelast label) = false ->
  forallb (fun c => isSpace c || (c =? IDEO_SPACE)%N) ws = true ->
  value = v0 :: value' ->
  isSpace v0 || (v0 =? IDEO_SPACE)%N = false ->
  forallb (fun c => negb (isLineTerminator c)) value = true ->
  rest = [] \/ (exists rest', rest = LF :: rest') ->
  matchLabeled label (pre ++ label ++ ws ++ value ++ rest) = Some value.
Proof.
  intros Hpre Hws Hv H0 Hl Hr. rewrite (matchLabeled_skip label pre _ Hpre).
  eapply matchLabeled_line; eassumption.
Qed.

Lemma labelled_line_captured_witness :
  matchLabeled PHONE_LABEL
    ((js "会社名: テスト商事" ++ [LF]) ++ PHONE_LABEL ++ js " "
     ++ js "03-1234-5678" ++ [])
  = Some (js "03-1234-5678").
Proof.
  apply (labelled_line_captured PHONE_LABEL (js "会社名: テスト商事" ++ [LF])
           (js " ") (js "03-1234-5678") [] (cu "0") (js "3-1234-5678")).
  - vm_compute. reflexivity.
  - vm_compute. reflexivity.
  - vm_compute. reflexivity.
  - vm_compute. reflexivity.
  - vm_compute. reflexivity.
  - now left.
Defined.

(** X8: the phone field of the parser holds digits, hyphens and commas
    only, whatever the text and the normalisation. *)
Theorem parse_phone_alphabet (normalizeNFC : jsstring -> jsstring)
    (text : jsstring) :
  forallb isPhoneText (phone_number (parseMultiFieldResult normalizeNFC text))
  = true.
Proof.
  unfold parseMultiFieldResult. cbn [phone_number].
  set (p := postProcessOcrResult normalizeNFC _ PhoneNumber).
  assert (Hp : forallb isPhoneText p = true) by apply postProcess_phone_chars.
  destruct (testLabelOnly COMPANY_WORD p); [reflexivity|].
  destruct (isEmpty p); [exact Hp|].
  destruct (testLabelPrefix COMPANY_WORD p); [reflexivity | exact Hp].
Qed.

(** ** The tab tracker *)

Lemma tabs_has_add (tabId other : N) (s : Tabs.t) :
  Tabs.has other (Tabs.add tabId s)
  = if (other =? tabId)%N then true else Tabs.has other s.
Proof.
  unfold Tabs.add. destruct (Tabs.has tabId s) eqn:H.
  - destruct (N.eqb_spec other tabId) as [->|]; [exact H | reflexivity].
  - unfold Tabs.has. rewrite existsb_app. cbn [existsb]. rewrite orb_false_r.
    destruct (N.eqb_spec other tabId) as [->|]; [apply orb_true_r|].
    apply orb_false_r.
Qed.

Lemma tabs_has_delete (tabId other : N) (s : Tabs.t) :
  Tabs.has other (Tabs.delete tabId s)
  = if (other =? tabId)%N then false else Tabs.has other s.
Proof.
  unfold Tabs.has, Tabs.delete. induction s as [|x s IH]; cbn [filter existsb].
  - now destruct (other =? tabId)%N.
  - destruct (N.eqb_spec x tabId) as [->|Hx]; cbn [negb existsb].
    + rewrite IH. destruct (N.eqb_spec other tabId) as [->|]; [reflexivity|].
      replace (other =? tabId)%N with false; [reflexivity|].
      symmetry. now apply N.eqb_neq.
    + rewrite IH. destruct (N.eqb_spec other tabId) as [->|]; [|reflexivity].
      replace (tabId =? x)%N with false; [reflexivity|].
      symmetry. apply N.eqb_neq. congruence.
Qed.

Lemma tabs_delete_nodup (tabId : N) (s : Tabs.t) :
  NoDup s -> NoDup (Tabs.delete tabId s).
Proof. apply NoDup_filter. Qed.

Lemma tabs_add_nodup (tabId : N) (s : Tabs.t) :
  NoDup s -> NoDup (Tabs.add tabId s).
Proof.
  intros H. unfold Tabs.add. destruct (Tabs.has tabId s) eqn:E; [exact H|].
  apply NoDup_app; [exact H | repeat constructor; intros [] |].
  intros x Hx [<-|[]]. unfold Tabs.has in E.
  assert (T : existsb (N.eqb tabId) s = true).
  { apply existsb_exists. exists tabId. split; [exact Hx | apply N.eqb_refl]. }
  congruence.
Qed.

(** X9: the tab flags behave as one flag per tab: setting the flag of a tab
    gives that tab the value set and leaves every other tab as it was.  A
    request on a tab that is already marked is not turned away: after the
    guard of the handler the tab is marked, once, and the other tabs are as
    before. *)
Theorem tab_flags (tabId other : N) (processing : bool) (s : Tabs.t) :
  isTabProcessing other (setTabProcessing tabId processing s)
    = (if (other =? tabId)%N then processing else isTabProcessing other s) /\
  isTabProcessing other (markTabForRequest tabId s)
    = (if (other =? tabId)%N then true else isTabProcessing other s) /\
  (NoDup s -> NoDup (markTabForRequest tabId s)).
Proof.
  assert (L : forall t o b u,
             isTabProcessing o (setTabProcessing t b u)
             = if (o =? t)%N then b else isTabProcessing o u).
  { intros t o b u. unfold isTabProcessing, setTabProcessing. destruct b.
    - apply tabs_has_add.
    - apply tabs_has_delete. }
  split; [apply L|]. split.
  - unfold markTabForRequest. rewrite L.
    destruct (N.eqb_spec other tabId) as [->|Hne]; [reflexivity|].
    destruct (isTabProcessing tabId s); [|reflexivity].
    rewrite L. now replace (other =? tabId)%N with false
      by (symmetry; now apply N.eqb_neq).
  - intros H. unfold markTabForRequest, setTabProcessing.
    apply tabs_add_nodup. destruct (isTabProcessing tabId s); [|exact H].
    now apply tabs_delete_nodup.
Qed.

Lemma tab_flags_witness :
  NoDup [7; 12]%N /\ NoDup (markTabForRequest 7 [7; 12]%N).
Proof.
  assert (H : NoDup [7; 12]%N).
  { apply NoDup_cons; [simpl; intros [E|[]]; discriminate E|].
    apply NoDup_cons; [intros [] | apply NoDup_nil]. }
  split; [exact H|].
  exact (proj2 (proj2 (tab_flags 7 7 true [7; 12]%N)) H).
Defined.

(** ** The settings cache *)

Import Settings.

Lemma loadSettings_after_invalidation (cachedSettings : Settings.t)
    (now : Z) (storage : result jsstring Stored) :
  lastUpdate cachedSettings = 0%Z ->
  loadSettings cachedSettings now storage
  = match storage with
    | Ok stored => (fromStorage stored now, fromStorage stored now)
    | Throw _ => (defaults now, cachedSettings)
    end.
Proof.
  intros H. unfold loadSettings, cacheIsFresh. now rewrite H.
Qed.

(** X10: a change of an OCR setting in the local storage area takes effect
    at once: after the listener has run, the next [loadSettings] reads the
    storage whatever the clock says, and no result is left in the cache.  A
    change in another area, or of other keys only, leaves the cached
    settings and the cached results as they were. *)
Theorem settings_change_takes_effect (changes : list SettingKey)
    (namespace : StorageArea) (st : BackgroundState)
    (cachedSettings : Settings.t) (now : Z)
    (storage : result jsstring Stored) :
  (existsb affectsOcr changes = true ->
   let st' := onStorageChanged changes AreaLocal st in
   loadSettings (seenBy cachedSettings st') now storage
   = match storage with
     | Ok stored => (fromStorage stored now, fromStorage stored now)
     | Throw _ => (defaults now, seenBy cachedSettings st')
     end /\
   imageCache st' = []) /\
  (existsb affectsOcr changes = false \/ namespace <> AreaLocal ->
   onStorageChanged changes namespace st = st).
Proof.
  split.
  - intros H st'. subst st'. unfold onStorageChanged. rewrite H. split.
    + now apply loadSettings_after_invalidation.
    + cbn [imageCache]. destruct (imageCache st); reflexivity.
  - intros [H|H]; unfold onStorageChanged.
    + rewrite H. now destruct namespace.
    + destruct namespace; try reflexivity. now destruct H.
Qed.

Lemma settings_change_takes_effect_witness :
  loadSettings
    (seenBy (fromStorage {| geminiApiKey := Some (js "key"); ocrLanguage := None;
                            ocrMode := None; geminiModel := None |} 1000)
       (onStorageChanged [GeminiModel] AreaLocal
          {| imageCache := [(js "k", js "v")]; settingsLastUpdate := 1000 |}))
    1001
    (Ok {| geminiApiKey := Some (js "key"); ocrLanguage := None;
           ocrMode := None; geminiModel := Some (js "gemini-2.5-flash") |})
  = (fromStorage {| geminiApiKey := Some (js "key"); ocrLanguage := None;
                    ocrMode := None; geminiModel := Some (js "gemini-2.5-flash") |}
       1001,
     fromStorage {| geminiApiKey := Some (js "key"); ocrLanguage := None;
                    ocrMode := None; geminiModel := Some (js "gemini-2.5-flash") |}
       1001).
Proof.
  refine (proj1 (proj1 (settings_change_takes_effect [GeminiModel] AreaLocal
            {| imageCache := [(js "k", js "v")]; settingsLastUpdate := 1000 |}
            (fromStorage {| geminiApiKey := Some (js "key"); ocrLanguage := None;
                            ocrMode := None; geminiModel := None |} 1000)
            1001
            (Ok {| geminiApiKey := Some (js "key"); ocrLanguage := None;
                   ocrMode := None;
                   geminiModel := Some (js "gemini-2.5-flash") |})) _)).
  reflexivity.
Defined.

Lemma truthy_orNull (v : option jsstring) : truthy (orNull v) = truthy v.
Proof. now destruct v as [[|c k]|]. Qed.

(** X11: a record read from the storage at time [now] is served again,
    without looking at the storage, by every call made less than 30 s
    later, provided an API key was stored; a record without API key is
    never served from the cache: every later call reads the storage
    again. *)
Theorem loadSettings_cache_window (cachedSettings : Settings.t)
    (now later : Z) (stored : Stored) (storage : result jsstring Stored) :
  cacheIsFresh cachedSettings now = false ->
  (now <> 0)%Z ->
  let first := loadSettings cachedSettings now (Ok stored) in
  (truthy (geminiApiKey stored) = true -> (later - now < 30000)%Z ->
     loadSettings (snd first) later storage = (fst first, fst first)) /\
  (truthy (geminiApiKey stored) = false ->
     loadSettings (snd first) later storage
     = match storage with
       | Ok again => (fromStorage again later, fromStorage again later)
       | Throw _ => (defaults later, fst first)
       end).
Proof.
  intros F Hnow first.
  assert (E : first = (fromStorage stored now, fromStorage stored now)).
  { subst first. unfold loadSettings. now rewrite F. }
  rewrite E. clear E first. cbn [fst snd]. unfold loadSettings, cacheIsFresh.
  cbn [fromStorage lastUpdate apiKey]. rewrite truthy_orNull. split.
  - intros K W. apply Z.eqb_neq in Hnow. rewrite Hnow.
    apply Z.ltb_lt in W. now rewrite W, K.
  - intros K. now rewrite K, andb_false_r.
Qed.

Lemma loadSettings_cache_window_witness :
  loadSettings
    (snd (loadSettings (defaults 0) 1000
            (Ok {| geminiApiKey := Some (js "key"); ocrLanguage := None;
                   ocrMode := Some (js "fast"); geminiModel := None |})))
    30999 (Throw (js "storage lost"))
  = ({| apiKey := Some (js "key"); language := js "ja"; mode := js "fast";
        model := js "gemini-2.0-flash"; lastUpdate := 1000 |},
     {| apiKey := Some (js "key"); language := js "ja"; mode := js "fast";
        model := js "gemini-2.0-flash"; lastUpdate := 1000 |}).
Proof.
  refine (proj1 (loadSettings_cache_window (defaults 0) 1000 30999
            {| geminiApiKey := Some (js "key"); ocrLanguage := None;
               ocrMode := Some (js "fast"); geminiModel := None |}
            (Throw (js "storage lost")) _ _) _ _).
  - reflexivity.
  - discriminate.
  - reflexivity.
  - reflexivity.
Defined.

(** X12: the records that [loadSettings] returns and caches always name a
    language, a mode and a model, and hold an API key that is [null] or not
    empty, when the cached record did; the initial record does. *)
Theorem loadSettings_well_formed (cachedSettings : Settings.t) (now : Z)
    (storage : result jsstring Stored) :
  wellFormed cachedSettings ->
  wellFormed (fst (loadSettings cachedSettings now storage)) /\
  wellFormed (snd (loadSettings cachedSettings now storage)) /\
  wellFormed (invalidate cachedSettings).
Proof.
  intros W.
  assert (E : forall v d, d <> [] -> orElse v d <> []).
  { intros [s|] d Hd; cbn; [|exact Hd]. destruct s; [exact Hd | discriminate]. }
  assert (N : forall v, orNull v <> Some []).
  { intros [s|]; cbn; [|discriminate]. destruct s; discriminate. }
  assert (D : forall n, wellFormed (defaults n)).
  { intros n. repeat split; discriminate. }
  split; [|split].
  - unfold loadSettings. destruct (cacheIsFresh cachedSettings now); [exact W|].
    destruct storage; [|apply D].
    repeat split; cbn [fst fromStorage apiKey language mode model];
      [apply N | apply E | apply E | apply E]; discriminate.
  - unfold loadSettings. destruct (cacheIsFresh cachedSettings now); [exact W|].
    destruct storage; [|exact W].
    repeat split; cbn [snd fromStorage apiKey language mode model];
      [apply N | apply E | apply E | apply E]; discriminate.
  - exact W.
Qed.

Lemma loadSettings_well_formed_witness :
  wellFormed (fst (loadSettings (defaults 0) 5
                     (Ok {| geminiApiKey := Some []; ocrLanguage := Some [];
                            ocrMode := None; geminiModel := None |}))).
Proof.
  refine (proj1 (loadSettings_well_formed (defaults 0) 5 _ _)).
  repeat split; discriminate.
Defined.

(** ** Readable error messages *)

(** X13: an HTTP error response whose body was read is never reported to
    the user with the rate-limit message, whatever its status and message:
    a response classified as temporary (status 429 or 5xx among them) is
    thrown with the prefix of the temporary limit, which the congestion test
    catches first, and any other response carries no rate-limit marker.  A
    temporary response is reported as congestion or, when its message
    quotes a connection failure, as that failure. *)
Theorem http_error_never_rate_limit (status : N) (errorMessage m : jsstring) :
  Retry.attemptOnce (Retry.HttpError status (Retry.ErrorMessage errorMessage))
    = Throw m ->
  Readable.getReadableErrorMessage (Some (Readable.newError m))
    <> Readable.RATE_LIMIT /\
  (((status = 429)%N \/ (500 <= status)%N) ->
   In (Readable.getReadableErrorMessage (Some (Readable.newError m)))
      [Readable.CONNECTION; Readable.NO_RECEIVER; Readable.CONTEXT_INVALID;
       Readable.CONGESTED]).
Proof.
  intros H. cbv beta iota delta [Retry.attemptOnce] in H.
  assert (D : forall r : jsstring,
             In r [Readable.CONNECTION; Readable.NO_RECEIVER;
                   Readable.CONTEXT_INVALID; Readable.CONGESTED] ->
             r <> Readable.RATE_LIMIT).
  { intros r [<-|[<-|[<-|[<-|[]]]]]; discriminate. }
  match type of H with
  | (if ?c then _ else _) = _ => destruct c eqn:T
  end; injection H as <-.
  - assert (G : In (Readable.getReadableErrorMessage
                      (Some (Readable.newError
                               (js "一時的なAPI制限: " ++ errorMessage))))
                   [Readable.CONNECTION; Readable.NO_RECEIVER;
                    Readable.CONTEXT_INVALID; Readable.CONGESTED]).
    { unfold Readable.getReadableErrorMessage, Readable.newError. cbv zeta.
      cbn [Readable.message Readable.printed].
      change (isEmpty (js "一時的なAPI制限: " ++ errorMessage)) with false.
      cbv iota.
      assert (L : includes (js "一時的なAPI制限")
                    (js "一時的なAPI制限: " ++ errorMessage) = true).
      { change (js "一時的なAPI制限: " ++ errorMessage)
          with (js "一時的なAPI制限" ++ ([COLON; 32%N] ++ errorMessage)).
        apply includes_prefix. }
      rewrite L, orb_true_r.
      destruct (includes (js "Could not establish connection") _);
        [now left|].
      destruct (includes (js "Receiving end does not exist") _);
        [now right; left|].
      destruct (includes (js "Extension context invalidated") _);
        [now right; right; left|].
      now right; right; right; left. }
    split; [now apply D | intros _; exact G].
  - apply orb_false_iff in T as [T S5]. apply orb_false_iff in T as [T S4].
    apply orb_false_iff in T as [T _]. apply orb_false_iff in T as [T _].
    apply orb_false_iff in T as [Hov Hrl].
    split.
    + change (Readable.getReadableErrorMessage
                (Some (Readable.newError (js "API エラー: " ++ errorMessage)))
              <> Readable.RATE_LIMIT).
      unfold Readable.getReadableErrorMessage, Readable.newError. cbv zeta.
      cbn [Readable.message Readable.printed].
      change (isEmpty (js "API エラー: " ++ errorMessage)) with false.
      cbv iota.
      change (includes (js "rate limit") (js "API エラー: " ++ errorMessage))
        with (includes (js "rate limit") errorMessage).
      rewrite Hrl.
      repeat match goal with
             | |- context [if ?c then _ else _] => destruct c
             end;
        intros X; vm_compute in X; discriminate X.
    + intros [E|E].
      * subst status. discriminate S4.
      * apply N.leb_le in E. congruence.
Qed.

Lemma http_error_never_rate_limit_witness :
  Readable.getReadableErrorMessage
    (Some (Readable.newError (js "一時的なAPI制限: rate limit exceeded")))
    <> Readable.RATE_LIMIT.
Proof.
  refine (proj1 (http_error_never_rate_limit 429 (js "rate limit exceeded")
                   _ _)).
  reflexivity.
Defined.

(** ** limitCacheSize *)

Lemma limitLoop_skipn (maxEntries fuel i : nat) (m : Cache.t) :
  Cache.size m - maxEntries - i <= fuel ->
  limitLoop fuel i maxEntries m
  = skipn (Nat.div2 (S (Cache.size m - maxEntries - i))) m.
Proof.
  revert i m. induction fuel as [|fuel IH]; intros i m Hf.
  - replace (Cache.size m - maxEntries - i) with 0 by lia. reflexivity.
  - cbn [limitLoop]. destruct (Nat.ltb_spec i (Cache.size m - maxEntries)) as [Hi|Hi].
    + destruct m as [|[k v] m']; [unfold Cache.size in Hi; simpl in Hi; lia|].
      cbn [Cache.oldestKey Cache.delete]. rewrite key_eqb_refl.
      rewrite IH by (unfold Cache.size in *; cbn [length] in *; lia).
      unfold Cache.size in *. cbn [length] in *.
      destruct (S (length m') - maxEntries - i) as [|[|d]] eqn:E; [lia| |].
      * replace (length m' - maxEntries - S i) with 0 by lia. reflexivity.
      * replace (length m' - maxEntries - S i) with d by lia. reflexivity.
    + replace (Cache.size m - maxEntries - i) with 0 by lia. reflexivity.
Qed.

(** X14: [limitCacheSize] drops the oldest entries, but only half of the
    excess, rounded up: the loop bound is read again after every deletion,
    so the loop stops after ceil((size - maxEntries) / 2) rounds.  A cache
    that holds at least two entries more than [maxEntries] is still larger
    than [maxEntries] afterwards.  The loop needs no more rounds than the
    cache has entries. *)
Theorem limitCacheSize_half_excess (maxEntries : nat) (m : Cache.t) :
  limitCacheSize maxEntries m
    = skipn (Nat.div2 (S (Cache.size m - maxEntries))) m /\
  (forall fuel, Cache.size m <= fuel ->
     limitLoop fuel 0 maxEntries m = limitCacheSize maxEntries m) /\
  (maxEntries + 2 <= Cache.size m ->
   maxEntries < Cache.size (limitCacheSize maxEntries m)).
Proof.
  assert (E : limitCacheSize maxEntries m
              = skipn (Nat.div2 (S (Cache.size m - maxEntries))) m).
  { unfold limitCacheSize.
    destruct (Nat.leb_spec (Cache.size m) maxEntries) as [H|H].
    - replace (Cache.size m - maxEntries) with 0 by lia. reflexivity.
    - rewrite limitLoop_skipn by lia. now rewrite Nat.sub_0_r. }
  split; [exact E|]. split.
  - intros fuel Hf. rewrite E, limitLoop_skipn by lia. now rewrite Nat.sub_0_r.
  - intros H. rewrite E. unfold Cache.size in *. rewrite length_skipn.
    remember (length m - maxEntries) as d eqn:Hd.
    assert (B : 2 * Nat.div2 (S d) <= S d).
    { rewrite (Nat.div2_odd (S d)) at 2. lia. }
    lia.
Qed.

Lemma limitCacheSize_half_excess_witness :
  2 < Cache.size
        (limitCacheSize 2
           [(js "a", js "1"); (js "b", js "2"); (js "c", js "3");
            (js "d", js "4"); (js "e", js "5")]).
Proof.
  refine (proj2 (proj2 (limitCacheSize_half_excess 2
           [(js "a", js "1"); (js "b", js "2"); (js "c", js "3");
            (js "d", js "4"); (js "e", js "5")])) _).
  vm_compute. lia.
Defined.

(** ** The size preparation *)

Lemma checkImageSize_cases (dataUrl : jsstring) :
  match checkImageSize dataUrl with
  | Ok sizeInMB => dataUrl <> [] /\ (estimateMB dataUrl <= 15 # 1)%Q
  | Throw e =>
      (dataUrl = [] /\ e = InvalidImageData) \/
      (dataUrl <> [] /\ e = Oversize (estimateMB dataUrl)
       /\ (15 # 1 < estimateMB dataUrl)%Q)
  end.
Proof.
  unfold checkImageSize. destruct dataUrl as [|c r]; [now left|].
  cbn [isEmpty].
  destruct (Qle_bool (estimateMB (c :: r)) MAX_SIZE_MB) eqn:B; cbn [negb].
  - split; [discriminate | now apply Qle_bool_iff].
  - right. split; [discriminate|]. split; [reflexivity|].
    apply Qnot_le_lt. intros H. apply Qle_bool_iff in H.
    unfold MAX_SIZE_MB in B. congruence.
Qed.

(** X15: the image that [extractTextWithGemini] sends on is never estimated
    above 15 MB: it is the argument itself, a [data:image/] URL, when the
    argument passes the size check, and otherwise the output of one of the
    four ladder steps of the compressor, estimated at 10 MB at most.  The
    preparation fails only on an invalid argument or with a compression
    error; the branch that throws the size error again is never taken. *)
Theorem prepareImage_result
    (optimize : jsstring -> OptimizeOptions -> result SizeError jsstring)
    (imageData : option jsstring) :
  match prepareImage optimize imageData with
  | Ok processedImageData =>
      exists original,
        imageData = Some original /\
        startsWith (js "data:image/") original = true /\
        (estimateMB processedImageData <= 15 # 1)%Q /\
        (processedImageData = original \/
         ((15 # 1 < estimateMB original)%Q /\
          (estimateMB processedImageData <= 10 # 1)%Q /\
          exists o, In o theLadder /\
                    optimize original o = Ok processedImageData))
  | Throw e =>
      e = InvalidData \/ e = CompressionError CompressionExhausted
      \/ e = CompressionError InvalidImageData
  end.
Proof.
  unfold prepareImage. destruct imageData as [original|]; [|now left].
  destruct (isEmpty original) eqn:Em; cbn [orb]; [now left|].
  destruct (startsWith (js "data:image/") original) eqn:St; cbn [negb];
    [|now left].
  pose proof (checkImageSize_cases original) as C.
  destruct (checkImageSize original) as [size|e].
  - exists original. destruct C as [_ C]. repeat split; try assumption.
    now left.
  - destruct C as [[-> _]|(Hne & -> & Hbig)]; [discriminate Em|].
    cbn [saysTooLarge].
    pose proof (ladder_spec optimize original (10 # 1)%Q
                  (combine qualityLevels dimensionLimits)) as L.
    unfold compressImageToSize.
    destruct (snd (ladder optimize (combine qualityLevels dimensionLimits)
                     original (10 # 1)%Q)) as [img|e].
    + destruct L as (k & Hk & _ & _ & (o & Hn & Ho) & Hm).
      apply Qle_bool_iff in Hm.
      pose proof (checkImageSize_cases img) as C2.
      destruct (checkImageSize img) as [size|e2].
      * exists original. destruct C2 as [_ C2]. repeat split; try assumption.
        right. repeat split; try assumption.
        exists o. split; [|exact Ho]. apply nth_error_In in Hn. exact Hn.
      * destruct C2 as [[_ ->]|(_ & _ & Hbig2)]; [now right; right|].
        exfalso. apply (Qlt_not_le _ _ Hbig2).
        apply Qle_trans with (10 # 1)%Q; [exact Hm | discriminate].
    + destruct L as (-> & _). now right; left.
Qed.

(** ** The OCR pipeline of the image handler *)

Lemma streqb_eq (s t : jsstring) : streqb s t = true <-> s = t.
Proof.
  revert t. induction s as [|a s IH]; intros [|b t]; simpl;
    try (split; [discriminate | discriminate]); [tauto|].
  rewrite andb_true_iff, N.eqb_eq, IH. split.
  - now intros [-> ->].
  - intros H. injection H as -> ->. now split.
Qed.

(** X16: [processImageForOCR] hands back only what the OCR backend returned,
    and only when its text is not blank; it fails either with the error of
    the backend, unchanged, or, on a blank text, with an error of code
    EMPTY_RESULT whose message names the phone number exactly for the field
    'phone-number' and the payee name exactly for the field 'payee-name'. *)
Theorem processImageForOCR_outcome
    (optimizeImage : jsstring -> OptimizeOptions -> Value)
    (extractText : Value -> Pipeline.ExtractOptions
                   -> result Readable.ErrorValue Pipeline.OcrResult)
    (imageData : jsstring) (options : Pipeline.Options) :
  match Pipeline.processImageForOCR optimizeImage extractText imageData options with
  | Ok ocrResult =>
      trim (Pipeline.text ocrResult) <> [] /\
      exists image extractOptions,
        extractText image extractOptions = Ok ocrResult
  | Throw error =>
      (exists image extractOptions,
         extractText image extractOptions = Throw error) \/
      (Readable.code error = Some (js "EMPTY_RESULT") /\
       (exists image extractOptions ocrResult,
          extractText image extractOptions = Ok ocrResult /\
          trim (Pipeline.text ocrResult) = []) /\
       In (Readable.message error)
          [Pipeline.NO_PHONE; Pipeline.NO_PAYEE; Pipeline.NO_TEXT] /\
       (Readable.message error = Pipeline.NO_PHONE
        <-> Pipeline.fieldType options = Some (js "phone-number")) /\
       (Readable.message error = Pipeline.NO_PAYEE
        <-> Pipeline.fieldType options = Some (js "payee-name")))
  end.
Proof.
  unfold Pipeline.processImageForOCR. cbv zeta.
  match goal with
  | |- context [extractText ?i ?o] =>
      set (image := i); set (extractOptions := o);
      destruct (extractText image extractOptions) as [r|e] eqn:E
  end; cbn [bind].
  - destruct (isEmpty (Pipeline.text r) || isEmpty (trim (Pipeline.text r)))
      eqn:B.
    + right. split; [reflexivity|]. split.
      { exists image, extractOptions, r. split; [exact E|].
        apply orb_true_iff in B as [B|B].
        - destruct (Pipeline.text r); [reflexivity | discriminate B].
        - destruct (trim (Pipeline.text r)); [reflexivity | discriminate B]. }
      unfold Pipeline.emptyResultError. cbn [Readable.message].
      destruct (Pipeline.fieldType options) as [f|].
      * destruct (streqb f (js "phone-number")) eqn:P.
        { apply streqb_eq in P. subst f. split; [now left|]. split.
          - split; reflexivity.
          - split; intros X; vm_compute in X; discriminate X. }
        destruct (streqb f (js "payee-name")) eqn:Q.
        { apply streqb_eq in Q. subst f. split; [now right; left|]. split.
          - split; intros X; vm_compute in X; discriminate X.
          - split; reflexivity. }
        split; [now right; right; left|]. split.
        { split; intros X; [vm_compute in X; discriminate X|].
          injection X as ->. discriminate P. }
        { split; intros X; [vm_compute in X; discriminate X|].
          injection X as ->. discriminate Q. }
      * split; [now right; right; left|]. split.
        { split; intros X; [vm_compute in X; discriminate X | discriminate X]. }
        { split; intros X; [vm_compute in X; discriminate X | discriminate X]. }
    + apply orb_false_iff in B as [_ B]. split.
      * intros T. now rewrite T in B.
      * now exists image, extractOptions.
  - left. now exists image, extractOptions.
Qed.




(** X18: a failed run of the image handler leaves the cache as it was and
    throws the error on; when the request came from a tab, the last two
    messages to the tab hide the progress notice and show the readable text
    of that same error, and nothing is sent when there is no tab. *)
Theorem handler_failure
    (normalizeNFC sha256hex : jsstring -> jsstring)
    (optimizeImage : jsstring -> OptimizeOptions -> Value)
    (extractText : Value -> Pipeline.ExtractOptions
                   -> result Readable.ErrorValue Pipeline.OcrResult)
    (request : Pipeline.Request) (tabId : option N)
    (settings keySettings : Settings.t) (imageCache : Cache.t)
    (error : Readable.ErrorValue) :
  let run :=
    Pipeline.handleImageProcessing normalizeNFC sha256hex optimizeImage
      extractText request tabId settings keySettings imageCache in
  Pipeline.returned run = Throw error ->
  Pipeline.cacheAfter run = imageCache /\
  (forall t, tabId = Some t -> t <> 0%N ->
     exists sent,
       Pipeline.effects run
       = sent ++ [Pipeline.SendMessage t Pipeline.HideProcessing;
                  Pipeline.SendMessage t
                    (Pipeline.ShowError
                       (Readable.getReadableErrorMessage (Some error)))]) /\
  (tabId = None -> Pipeline.effects run = []).
Proof.
  intros run. subst run. unfold Pipeline.handleImageProcessing. cbv zeta.
  assert (T : forall t m, t <> 0%N ->
                Pipeline.toTab (Some t) m = [Pipeline.SendMessage t m]).
  { intros t m Ht. unfold Pipeline.toTab.
    now replace (t =? 0)%N with false by (symmetry; now apply N.eqb_neq). }
  assert (F : forall sent e,
    @Throw Readable.ErrorValue jsstring e = Throw error ->
    imageCache = imageCache /\
    (forall t, tabId = Some t -> t <> 0%N ->
       exists sent',
         sent ++ Pipeline.toTab tabId Pipeline.HideProcessing
              ++ Pipeline.toTab tabId
                   (Pipeline.ShowError
                      (Readable.getReadableErrorMessage (Some e)))
         = sent' ++ [Pipeline.SendMessage t Pipeline.HideProcessing;
                     Pipeline.SendMessage t
                       (Pipeline.ShowError
                          (Readable.getReadableErrorMessage (Some error)))]) /\
    (tabId = None ->
       sent = [] ->
       sent ++ Pipeline.toTab tabId Pipeline.HideProcessing
            ++ Pipeline.toTab tabId
                 (Pipeline.ShowError
                    (Readable.getReadableErrorMessage (Some e))) = [])).
  { intros sent e X. injection X as ->. split; [reflexivity|]. split.
    - intros t -> Ht. exists sent. now rewrite !T.
    - intros -> ->. reflexivity. }
  destruct (Pipeline.imageData request) as [image|].
  - destruct (isEmpty image || negb (startsWith (js "data:image/") image)).
    + cbn [Pipeline.returned Pipeline.cacheAfter Pipeline.effects].
      intros X. destruct (F [] _ X) as (A & B & C).
      split; [exact A|]. split; [exact B | intros N; now apply C].
    + destruct (Settings.truthy _); [discriminate|].
      destruct (Pipeline.processImageForOCR _ _ _ _) as [r|e];
        [discriminate|].
      cbn [Pipeline.returned Pipeline.cacheAfter Pipeline.effects].
      intros X.
      destruct (F (Pipeline.toTab tabId (Pipeline.ShowProcessing Pipeline.OPTIMIZING))
                  _ X) as (A & B & C).
      split; [exact A|]. split; [exact B|].
      intros N. apply C; [exact N | now rewrite N].
  - cbn [Pipeline.returned Pipeline.cacheAfter Pipeline.effects].
    intros X. destruct (F [] _ X) as (A & B & C).
    split; [exact A|]. split; [exact B | intros N; now apply C].
Qed.

Lemma handler_failure_witness :
  Pipeline.cacheAfter
    (Pipeline.handleImageProcessing nfcKana (fun s => s) (fun s _ => Str s)
       backendDown (sampleRequest (js "first")) (Some 7%N)
       (Settings.defaults 0) (Settings.defaults 0)
       [(js "key", js "03-1234-5678")])
  = [(js "key", js "03-1234-5678")].
Proof.
  refine (proj1 (handler_failure nfcKana (fun s => s) (fun s _ => Str s)
                   backendDown (sampleRequest (js "first")) (Some 7%N)
                   (Settings.defaults 0) (Settings.defaults 0)
                   [(js "key", js "03-1234-5678")]
                   (Readable.newError (js "Failed to fetch")) _)).
  vm_compute. reflexivity.
Defined.

(** ** The request queue: settlements and wake-ups *)

Module QueueWake.

Import Queue.
Local Open Scope N_scope.

(** X19: in every reachable state of the queue, a call that starts after a
    settlement starts at least 500 ms after that settlement, whether the
    settled call was resolved or rejected: the spacing is measured from the
    end of the previous call, not from its start. *)
Theorem start_after_settlement (t0 : N) (s : State) (pre post : list Event)
    (c c' : nat) (how : Settlement) (t t' : N) :
  reachable t0 s ->
  events s = (pre ++ Started c t :: Settled c' how t' :: post)%list ->
  t' + 500 <= t.
Proof.
  intros Hr He. destruct (QueueFacts.reachable_awake t0 s Hr) as [_ [H _ _ _]].
  exact (QueueFacts.rested_pairs minInterval (events s) pre post c c' how t t' H He).
Qed.

(** X20: the queue never stalls: in every reachable state that holds a
    queued call, either a call is in progress, whose end will set a timer,
    or a timer is pending that runs [processQueue] and is due no later than
    50 ms after the last settlement. *)
Theorem queue_never_stalls (t0 : N) (s : State) :
  reachable t0 s ->
  queue s <> [] ->
  (processing s = true /\ exists a, activations s = [a]) \/
  (processing s = false /\
   exists due rest, timers s = due :: rest /\ due <= lastRequest s + 50).
Proof.
  intros Hr Hq. destruct (QueueFacts.reachable_awake t0 s Hr) as [HI HA].
  destruct HI as [_ _ _ _ _ Hsh]. destruct HA as [_ _ Hd Htm].
  destruct (processing s) eqn:P.
  - left. split; [reflexivity|].
    destruct (activations s) as [|a [|b acts]].
    + destruct Hsh as [X _]. discriminate X.
    + now exists a.
    + destruct a; contradiction.
  - right. split; [reflexivity|]. specialize (Htm eq_refl Hq).
    destruct (timers s) as [|due rest]; [now destruct Htm|].
    exists due, rest. split; [reflexivity|]. now inversion Hd.
Qed.

Lemma sampleRun_reachable : reachable 1000 sampleRun.
Proof.
  unfold sampleRun.
  eapply reach_step; [|apply step_wake; [vm_compute; now left | vm_compute; discriminate]].
  eapply reach_step; [|apply step_advance].
  eapply reach_step; [|apply step_execute].
  eapply reach_step; [|apply step_finish; vm_compute; now left].
  eapply reach_step; [apply reach_initial | apply step_execute].
Qed.

Lemma start_after_settlement_witness :
  events sampleRun
    = [Started 1 1500; Settled 0 Resolved 1000; Started 0 1000] /\
  1000 + 500 <= 1500.
Proof.
  assert (E : events sampleRun
              = ([] ++ Started 1 1500 :: Settled 0 Resolved 1000
                       :: [Started 0 1000])%list) by (vm_compute; reflexivity).
  split; [exact E|].
  exact (start_after_settlement 1000 sampleRun [] [Started 0 1000] 1 0
           Resolved 1500 1000 sampleRun_reachable E).
Defined.

Lemma queue_never_stalls_witness :
  (processing (execute (execute (initial 1000))) = true /\
   exists a, activations (execute (execute (initial 1000))) = [a]) \/
  (processing (execute (execute (initial 1000))) = false /\
   exists due rest,
     timers (execute (execute (initial 1000))) = due :: rest /\
     due <= lastRequest (execute (execute (initial 1000))) + 50).
Proof.
  refine (queue_never_stalls 1000 (execute (execute (initial 1000))) _ _).
  - eapply reach_step; [|apply step_execute].
    eapply reach_step; [apply reach_initial | apply step_execute].
  - vm_compute. discriminate.
Defined.

End QueueWake.

(** ** The retry loop ends after two requests *)

(** X21: the retry loop needs two iterations at most: with any fuel of two
    or more the model gives the same run, which never ends for lack of
    fuel.  Every error the loop throws is the error of one of its two
    requests, unchanged: the summary error after the loop is never
    produced. *)
Theorem retry_loop_terminates (env : nat -> Retry.Outcome) (fuel : nat) :
  2 <= fuel ->
  Retry.retryLoop fuel env 0 None = Retry.callWithRetry env /\
  snd (Retry.callWithRetry env) <> Retry.OutOfFuel /\
  (forall message,
     snd (Retry.callWithRetry env) = Retry.Thrown message ->
     exists attempt,
       attempt <= Retry.MAX_RETRIES /\
       Retry.attemptOnce (env attempt) = Throw message).
Proof.
  intros Hf. split; [|split].
  - destruct fuel as [|[|fuel]]; try lia.
    unfold Retry.callWithRetry.
    cbn [Retry.retryLoop Retry.MAX_RETRIES Nat.leb Nat.ltb].
    destruct (Retry.attemptOnce (env 0)) as [text|message]; [reflexivity|].
    destruct (Retry.isTemporaryError message); cbn [andb]; [|reflexivity].
    destruct (Retry.attemptOnce (env 1)) as [text'|message']; [reflexivity|].
    rewrite andb_false_r. reflexivity.
  - rewrite callWithRetry_cases.
    destruct (Retry.attemptOnce (env 0)) as [text|message]; [discriminate|].
    destruct (Retry.isTemporaryError message); [|discriminate].
    destruct (Retry.attemptOnce (env 1)); discriminate.
  - intros message. rewrite callWithRetry_cases.
    destruct (Retry.attemptOnce (env 0)) as [text|m0] eqn:E0; [discriminate|].
    destruct (Retry.isTemporaryError m0); cbn [snd].
    + destruct (Retry.attemptOnce (env 1)) as [text|m1] eqn:E1; [discriminate|].
      intros [= <-]. exists 1. split; [unfold Retry.MAX_RETRIES; lia | exact E1].
    + intros [= <-]. exists 0. split; [lia | exact E0].
Qed.

Lemma retry_loop_terminates_witness :
  Retry.retryLoop 7 (fun _ => Retry.TimedOut) 0 None
  = Retry.callWithRetry (fun _ => Retry.TimedOut).
Proof.
  refine (proj1 (retry_loop_terminates (fun _ => Retry.TimedOut) 7 _)). lia.
Defined.

(** ** The hybrid OCR manager *)

Lemma isValidResult_not_blank (t : jsstring) (fieldType : option jsstring) :
  Hybrid.isValidResult (Some t) fieldType = true -> trim t <> [].
Proof.
  unfold Hybrid.isValidResult.
  destruct (isEmpty t || (length (trim t) =? 0)) eqn:B; [discriminate|].
  intros _ E. rewrite E in B. simpl in B. now rewrite orb_true_r in B.
Qed.

(** X22: with the Gemini fallback on, as the constructor sets it, the
    manager answers with the text of the local engine only when that text
    passed the validity check, which refuses blank texts, and then Gemini is
    not called; in every other case, an error of the local engine included,
    the outcome is the outcome of Gemini: its text, or its error unchanged.
    The error that all methods failed is never thrown. *)
Theorem hybrid_extractText_outcome (m : Hybrid.Manager)
    (fieldType : option jsstring)
    (local : result Readable.ErrorValue (option jsstring))
    (gemini : result Readable.ErrorValue jsstring) :
  Hybrid.fallbackToGemini m = true ->
  match Hybrid.extractText m fieldType local gemini with
  | (calls, Ok r) =>
      (Hybrid.usedMethod r = Hybrid.LocalLLM /\
       calls = [Hybrid.CallLocal] /\
       local = Ok (Hybrid.text r) /\
       exists t, Hybrid.text r = Some t /\ trim t <> [] /\
                 Hybrid.isValidResult (Some t) fieldType = true) \/
      (Hybrid.usedMethod r = Hybrid.GeminiAPI /\
       (exists t, gemini = Ok t /\ Hybrid.text r = Some t) /\
       last calls Hybrid.CallLocal = Hybrid.CallGemini)
  | (calls, Throw error) =>
      gemini = Throw error /\
      last calls Hybrid.CallLocal = Hybrid.CallGemini
  end.
Proof.
  intros F. unfold Hybrid.extractText. rewrite F. cbv zeta.
  assert (G : forall calls,
    match
      match gemini with
      | Ok text =>
          ((calls ++ [Hybrid.CallGemini])%list,
           Ok {| Hybrid.text := Some text;
                 Hybrid.usedMethod := Hybrid.GeminiAPI |})
      | Throw error => ((calls ++ [Hybrid.CallGemini])%list, Throw error)
      end
    with
    | (calls', Ok r) =>
        (Hybrid.usedMethod r = Hybrid.LocalLLM /\
         calls' = [Hybrid.CallLocal] /\
         local = Ok (Hybrid.text r) /\
         exists t, Hybrid.text r = Some t /\ trim t <> [] /\
                   Hybrid.isValidResult (Some t) fieldType = true) \/
        (Hybrid.usedMethod r = Hybrid.GeminiAPI /\
         (exists t, gemini = Ok t /\ Hybrid.text r = Some t) /\
         last calls' Hybrid.CallLocal = Hybrid.CallGemini)
    | (calls', Throw error) =>
        gemini = Throw error /\
        last calls' Hybrid.CallLocal = Hybrid.CallGemini
    end).
  { intros calls. destruct gemini as [text|error].
    - right. split; [reflexivity|]. split; [now exists text | apply last_last].
    - split; [reflexivity | apply last_last]. }
  destruct (Hybrid.useLocalLLM m && Hybrid.localLLMReady m); [|apply G].
  destruct local as [text|e]; [|apply G].
  destruct (Hybrid.isValidResult text fieldType) eqn:V; [|apply G].
  left. repeat split. destruct text as [t|]; [|discriminate V].
  exists t. repeat split; [|exact V].
  now apply isValidResult_not_blank with (fieldType := fieldType).
Qed.

Lemma hybrid_extractText_outcome_witness :
  Hybrid.extractText
    {| Hybrid.useLocalLLM := true; Hybrid.localLLMReady := true;
       Hybrid.fallbackToGemini := true |}
    (Some (js "phone-number"))
    (Ok (Some (js "no number here")))
    (Ok (js "03-1234-5678"))
  = ([Hybrid.CallLocal; Hybrid.CallGemini],
     Ok {| Hybrid.text := Some (js "03-1234-5678");
           Hybrid.usedMethod := Hybrid.GeminiAPI |}).
Proof.
  pose proof (hybrid_extractText_outcome
                {| Hybrid.useLocalLLM := true; Hybrid.localLLMReady := true;
                   Hybrid.fallbackToGemini := true |}
                (Some (js "phone-number"))
                (Ok (Some (js "no number here")))
                (Ok (js "03-1234-5678")) eq_refl) as H.
  vm_compute in H |- *. reflexivity.
Defined.

(** X23: the usage statistics hold the newest 100 entries: after every
    update the list ends with the new entry, is a suffix of the old list
    with the new entry appended, and has min(100, old length + 1) entries,
    however long the stored list was. *)
Theorem updateUsageStats_bounded (stats : Hybrid.Stat)
    (currentStats : list Hybrid.Stat) :
  length (Hybrid.updateUsageStats stats currentStats)
    = Nat.min 100 (S (length currentStats)) /\
  last (Hybrid.updateUsageStats stats currentStats) stats = stats /\
  exists dropped,
    (dropped ++ Hybrid.updateUsageStats stats currentStats
     = currentStats ++ [stats])%list.
Proof.
  unfold Hybrid.updateUsageStats. cbv zeta.
  destruct (Nat.ltb_spec 100 (length (currentStats ++ [stats]))) as [H|H];
    rewrite length_app in H; simpl in H.
  - split; [|split].
    + rewrite length_skipn, !length_app. cbn [length]. lia.
    + rewrite skipn_app, !length_app. cbn [length].
      replace (length currentStats + 1 - 100 - length currentStats) with 0 by lia.
      cbn [skipn]. apply last_last.
    + exists (firstn (length (currentStats ++ [stats]) - 100)
                (currentStats ++ [stats])).
      apply firstn_skipn.
  - split; [|split].
    + rewrite length_app. cbn [length]. lia.
    + apply last_last.
    + now exists [].
Qed.

(** ** The popup *)

Section PopupFacts.

Variable Response : Type.

Local Abbreviation backoff := Popup.backoff.

Lemma backoff_S (a : nat) : 1 <= a -> backoff (S a) = (2 * backoff a)%N.
Proof.
  intros H. unfold Popup.backoff. replace (S a - 1) with (S (a - 1)) by lia.
  rewrite Nat2N.inj_succ. apply N.pow_succ_r'.
Qed.

Lemma le_backoff (a : nat) : 1 <= a -> (N.of_nat a <= backoff a)%N.
Proof.
  induction a as [|a IH]; [lia|]. intros _.
  destruct a as [|a]; [unfold Popup.backoff; simpl; lia|].
  rewrite backoff_S by lia. specialize (IH ltac:(lia)). lia.
Qed.

Lemma totalWait_app (l1 l2 : list Popup.Action) :
  Popup.totalWait (l1 ++ l2) = (Popup.totalWait l1 + Popup.totalWait l2)%N.
Proof.
  unfold Popup.totalWait. induction l1 as [|a l1 IH]; simpl; [reflexivity|].
  rewrite IH. lia.
Qed.

(** The loop from [attempt] on, when at least one iteration is left. *)
Lemma attempts_spec (retryCount : nat) (env : nat -> Popup.Attempt Response)
    (remaining attempt : nat) :
  1 <= attempt -> 1 <= remaining -> attempt + remaining = S retryCount ->
  let run := Popup.attempts remaining attempt retryCount env in
  length (filter Popup.isSend (fst run)) <= remaining /\
  (Popup.totalWait (fst run) + 1000 * backoff attempt
   <= 1000 * backoff retryCount)%N /\
  match snd run with
  | Popup.Returned response =>
      exists k, attempt <= k <= retryCount /\
                env k = Popup.Responds response /\
                forall j, attempt <= j < k -> Popup.failure (env j) <> None
  | Popup.Thrown message =>
      (forall j, attempt <= j <= retryCount -> Popup.failure (env j) <> None) /\
      exists raw, Popup.failure (env retryCount) = Some raw /\
                  message = Popup.userFriendlyMessage raw
  | Popup.ReturnedUndefined => False
  end.
Proof.
  revert attempt. induction remaining as [|r IH]; intros attempt Ha Hr Hsum;
    [lia|].
  cbn [Popup.attempts]. cbv zeta.
  destruct (Nat.eq_dec r 0) as [-> | Hr0].
  - (* the last iteration *)
    assert (attempt = retryCount) by lia. subst attempt.
    rewrite Nat.eqb_refl, Nat.ltb_irrefl.
    assert (L : forall j, retryCount <= j <= retryCount -> j = retryCount)
      by (intros; lia).
    destruct (env retryCount) as [| |message|response] eqn:E;
      cbn [fst snd filter Popup.isSend length Popup.totalWait fold_right
           Popup.waited].
    + split; [lia|]. split; [lia|]. split.
      * intros j Hj. rewrite (L j Hj), E. discriminate.
      * now exists Popup.NO_API.
    + split; [lia|]. split; [lia|]. split.
      * intros j Hj. rewrite (L j Hj), E. discriminate.
      * now exists Popup.CANNOT_CONNECT.
    + split; [lia|]. split; [lia|]. split.
      * intros j Hj. rewrite (L j Hj), E. discriminate.
      * now exists message.
    + split; [lia|]. split; [lia|].
      exists retryCount. split; [lia|]. split; [exact E|]. intros j Hj. lia.
  - (* an earlier iteration *)
    assert (Hlt : attempt < retryCount) by lia.
    replace (attempt =? retryCount) with false
      by (symmetry; apply Nat.eqb_neq; lia).
    replace (attempt <? retryCount) with true
      by (symmetry; apply Nat.ltb_lt; lia).
    specialize (IH (S attempt) ltac:(lia) ltac:(lia) ltac:(lia)).
    cbv zeta in IH. destruct IH as (Hs & Hw & Hres).
    set (next := Popup.attempts r (S attempt) retryCount env) in *.
    rewrite backoff_S in Hw by lia.
    pose proof (le_backoff attempt Ha) as Hle.
    assert (Next :
      forall done : list Popup.Action,
        Popup.failure (env attempt) <> None ->
        match snd next with
        | Popup.Returned response =>
            exists k, attempt <= k <= retryCount /\
                      env k = Popup.Responds response /\
                      forall j, attempt <= j < k -> Popup.failure (env j) <> None
        | Popup.Thrown message =>
            (forall j, attempt <= j <= retryCount ->
                       Popup.failure (env j) <> None) /\
            exists raw, Popup.failure (env retryCount) = Some raw /\
                        message = Popup.userFriendlyMessage raw
        | Popup.ReturnedUndefined => False
        end).
    { intros _ Hfail. destruct (snd next) as [response|message|].
      - destruct Hres as (k & Hk & Ek & Hj). exists k.
        split; [lia|]. split; [exact Ek|].
        intros j Hjk. destruct (Nat.eq_dec j attempt) as [->|Hne];
          [exact Hfail | apply Hj; lia].
      - destruct Hres as (Hj & raw). split; [|exact raw].
        intros j Hjk. destruct (Nat.eq_dec j attempt) as [->|Hne];
          [exact Hfail | apply Hj; lia].
      - exact Hres. }
    unfold Popup.totalWait in Hw. unfold Popup.backoff in Hw, Hle |- *.
    destruct (env attempt) as [| |message|response] eqn:E; cbn [fst snd].
    + split; [|split].
      * cbn [app filter Popup.isSend]. lia.
      * cbn [app Popup.totalWait fold_right Popup.waited]. lia.
      * apply (Next []). discriminate.
    + split; [|split].
      * cbn [filter Popup.isSend]. lia.
      * cbn [Popup.totalWait fold_right Popup.waited]. lia.
      * apply (Next []). discriminate.
    + split; [|split].
      * cbn [app filter Popup.isSend length]. lia.
      * cbn [app Popup.totalWait fold_right Popup.waited]. lia.
      * apply (Next []). discriminate.
    + split; [|split].
      * cbn [filter Popup.isSend length]. lia.
      * cbn [Popup.totalWait fold_right Popup.waited]. lia.
      * exists attempt. split; [lia|]. split; [exact E|]. intros j Hj. lia.
Qed.

(** X24: with a retry count of one or more, [sendMessageSafely] returns the
    response of the first attempt that succeeds, all attempts before it
    having failed, and throws only after every one of its [retryCount]
    attempts has failed, with the message of the last failure, in which a
    lost connection or a missing receiver is replaced by its readable
    text.  The function then never ends without a value. *)
Theorem sendMessageSafely_outcome (retryCount : nat)
    (env : nat -> Popup.Attempt Response) :
  1 <= retryCount ->
  match snd (Popup.sendMessageSafely retryCount env) with
  | Popup.Returned response =>
      exists k, 1 <= k <= retryCount /\
                env k = Popup.Responds response /\
                forall j, 1 <= j < k -> Popup.failure (env j) <> None
  | Popup.Thrown message =>
      (forall j, 1 <= j <= retryCount -> Popup.failure (env j) <> None) /\
      exists raw, Popup.failure (env retryCount) = Some raw /\
                  message = Popup.userFriendlyMessage raw
  | Popup.ReturnedUndefined => False
  end.
Proof.
  intros H. unfold Popup.sendMessageSafely.
  exact (proj2 (proj2 (attempts_spec retryCount env retryCount 1
                         ltac:(lia) H ltac:(lia)))).
Qed.

(** X25: [sendMessageSafely] sends the message [retryCount] times at most,
    and the waits between its attempts add up to
    1000 * (2^(retryCount - 1) - 1) ms at most, 3000 ms for the default
    retry count of 3; with a retry count of 0 it makes no attempt and
    returns no value. *)
Theorem sendMessageSafely_bounds (retryCount : nat)
    (env : nat -> Popup.Attempt Response) :
  length (filter Popup.isSend (fst (Popup.sendMessageSafely retryCount env)))
    <= retryCount /\
  (Popup.totalWait (fst (Popup.sendMessageSafely retryCount env))
   <= 1000 * (backoff retryCount - 1))%N /\
  (1000 * (backoff 3 - 1) = 3000)%N /\
  Popup.sendMessageSafely 0 env = ([], @Popup.ReturnedUndefined Response).
Proof.
  split; [|split; [|split; reflexivity]].
  - destruct retryCount as [|n]; [simpl; lia|].
    unfold Popup.sendMessageSafely.
    exact (proj1 (attempts_spec (S n) env (S n) 1 ltac:(lia) ltac:(lia)
                    ltac:(lia))).
  - destruct retryCount as [|n]; [cbn; lia|].
    unfold Popup.sendMessageSafely.
    pose proof (proj1 (proj2 (attempts_spec (S n) env (S n) 1 ltac:(lia)
                                ltac:(lia) ltac:(lia)))) as H.
    cbv zeta in H. change (backoff 1) with 1%N in H. lia.
Qed.

End PopupFacts.

(** X26: the error log of the popup holds the newest 50 entries, newest
    first: after every [addError] the new entry is at the head, the rest
    is a prefix of the old log, and the log has min(50, old length + 1)
    entries. *)
Theorem addError_bounded (Entry : Type) (errorEntry : Entry)
    (errors : list Entry) :
  length (Popup.addError errorEntry errors) = Nat.min 50 (S (length errors)) /\
  exists kept dropped,
    Popup.addError errorEntry errors = errorEntry :: kept /\
    errors = (kept ++ dropped)%list.
Proof.
  unfold Popup.addError, Popup.maxErrors. cbv zeta.
  destruct (Nat.ltb_spec 50 (length (errorEntry :: errors))) as [H|H];
    simpl in H.
  - split.
    + rewrite length_firstn. cbn [length]. lia.
    + exists (firstn 49 errors), (skipn 49 errors). split.
      * reflexivity.
      * symmetry. apply firstn_skipn.
  - split.
    + cbn [length]. lia.
    + exists errors, []. split; [reflexivity | now rewrite app_nil_r].
Qed.

Lemma sendMessageSafely_outcome_witness :
  1 <= 3 /\
  match snd (Popup.sendMessageSafely 3 sampleAttempts) with
  | Popup.Returned response =>
      exists k, 1 <= k <= 3 /\
                sampleAttempts k = Popup.Responds response /\
                forall j, 1 <= j < k -> Popup.failure (sampleAttempts j) <> None
  | Popup.Thrown message =>
      (forall j, 1 <= j <= 3 -> Popup.failure (sampleAttempts j) <> None) /\
      exists raw, Popup.failure (sampleAttempts 3) = Some raw /\
                  message = Popup.userFriendlyMessage raw
  | Popup.ReturnedUndefined => False
  end.
Proof.
  split; [lia|]. apply (sendMessageSafely_outcome N 3 sampleAttempts). lia.
Defined.

(** ** The phone-number candidates *)

Lemma existsb_filter (f : N -> bool) (l : jsstring) :
  existsb f l = negb (isEmpty (filter f l)).
Proof.
  induction l as [|c l IH]; [reflexivity|]. cbn [existsb filter].
  destruct (f c); [reflexivity | exact IH].
Qed.

Lemma formatPhoneNumber_has_digit (s : jsstring) :
  formatPhoneNumber s <> [] -> existsb isDigit (formatPhoneNumber s) = true.
Proof.
  intros Hne.
  destruct (Nat.le_gt_cases (length (filter isDigit s)) 11) as [Hl|Hl];
    [|now rewrite (formatPhoneNumber_too_long s Hl) in Hne].
  destruct (includes [HYPHEN] s && testHyphenated s) eqn:E.
  - rewrite (formatPhoneNumber_pass s Hl E).
    apply andb_true_iff in E as [_ E].
    destruct (testHyphenated_shape s E) as (a & b & c & -> & _ & _ & Hc & _ & _ & Lc).
    rewrite existsb_app. cbn [existsb]. rewrite existsb_app. cbn [existsb].
    destruct c as [|x c]; [discriminate Lc|]. cbn [forallb existsb] in *.
    apply andb_true_iff in Hc as [Hx _]. rewrite Hx.
    now rewrite !orb_true_r.
  - rewrite (formatPhoneNumber_reformat s Hl E) in *.
    pose proof (forallb_filter isDigit s) as Hd.
    pose proof (PhoneForm_digits (filter isDigit s) _ Hd
                  (formatByLength_form (filter isDigit s) Hd)) as D.
    rewrite existsb_filter, D.
    destruct (filter isDigit s) as [|x d]; [|reflexivity].
    exfalso. apply Hne. reflexivity.
Qed.

Lemma digitOrHyphen_not_candidate_separator (c : N) :
  digitOrHyphen c = true -> isCandidateSeparator c = false.
Proof.
  intros H. apply digitOrHyphen_enum in H. simpl in H.
  repeat (destruct H as [<-|H]; [reflexivity|]). destruct H.
Qed.

Lemma digitOrHyphen_not_space (c : N) :
  digitOrHyphen c = true -> negb (isSpace c) = true.
Proof.
  intros H. apply digitOrHyphen_enum in H. simpl in H.
  repeat (destruct H as [<-|H]; [reflexivity|]). destruct H.
Qed.

Lemma map_trim_fixed (items : list jsstring) :
  Forall (fun it => forallb digitOrHyphen it = true) items ->
  map trim items = items.
Proof.
  induction 1 as [|x items Hx _ IH]; [reflexivity|]. cbn [map].
  rewrite IH, trim_none; [reflexivity|].
  eapply forallb_impl; [|exact Hx]. apply digitOrHyphen_not_space.
Qed.

(** X27: the candidates that the streamed handler offers for a phone number
    that came out of the post-processor are formatted numbers: each one is
    not empty, consists of digits and hyphens, holds a digit, and is left
    unchanged by the formatter; the empty entries that a list of numbers may
    hold are dropped. *)
Theorem phone_candidates_formatted (normalizeNFC : jsstring -> jsstring)
    (x : jsstring) :
  Forall (fun candidate =>
            candidate <> [] /\
            forallb digitOrHyphen candidate = true /\
            existsb isDigit candidate = true /\
            formatPhoneNumber candidate = candidate)
         (phoneCandidates (postProcessOcrResult normalizeNFC x PhoneNumber)).
Proof.
  assert (One : forall z, formatPhoneNumber z <> [] ->
            formatPhoneNumber z <> [] /\
            forallb digitOrHyphen (formatPhoneNumber z) = true /\
            existsb isDigit (formatPhoneNumber z) = true /\
            formatPhoneNumber (formatPhoneNumber z) = formatPhoneNumber z).
  { intros z Hz. split; [exact Hz|]. split; [apply formatPhoneNumber_alphabet|].
    split; [now apply formatPhoneNumber_has_digit|].
    apply formatPhoneNumber_idempotent. }
  unfold postProcessOcrResult.
  destruct (isEmpty x) eqn:E.
  { destruct x; [constructor | discriminate E]. }
  set (t := convertKatakana _).
  destruct (hasListSeparator t) eqn:S.
  - destruct (split_two t S) as (a & b & rest & Hsplit). rewrite Hsplit.
    set (f := fun num => formatPhoneNumber (filter isPhoneChar (trim num))).
    set (items := map f (a :: b :: rest)).
    assert (Hitems : Forall (fun it => forallb digitOrHyphen it = true) items).
    { apply Forall_forall. intros it Hit. apply in_map_iff in Hit as (z & <- & _).
      apply formatPhoneNumber_alphabet. }
    unfold phoneCandidates.
    assert (Hsep : existsb isCandidateSeparator (join [COMMA] items) = true).
    { unfold items. cbn [map].
      change (join [COMMA] (f a :: f b :: map f rest))
        with (f a ++ COMMA :: join [COMMA] (f b :: map f rest)).
      rewrite existsb_app. cbn [existsb].
      replace (isCandidateSeparator COMMA) with true by reflexivity.
      now rewrite orb_true_r. }
    assert (Hne : isEmpty (join [COMMA] items) = false).
    { destruct (join [COMMA] items); [discriminate Hsep | reflexivity]. }
    rewrite Hne, Hsep.
    rewrite (@split_join isCandidateSeparator COMMA items).
    + rewrite (map_trim_fixed items Hitems).
      apply Forall_forall. intros c Hc. apply filter_In in Hc as [Hin Hc].
      apply andb_true_iff in Hc as [Hc _].
      unfold items in Hin. apply in_map_iff in Hin as (z & <- & _).
      apply One. intros Z. unfold f in Hc. now rewrite Z in Hc.
    + reflexivity.
    + discriminate.
    + eapply Forall_impl; [|exact Hitems]. intros it Hit.
      eapply forallb_impl; [|exact Hit]. intros c Hc.
      now rewrite (digitOrHyphen_not_candidate_separator c Hc).
  - set (r := formatPhoneNumber (filter isPhoneChar t)).
    unfold phoneCandidates. destruct (isEmpty r) eqn:Er; [constructor|].
    assert (Hr : r <> []) by (intros Z; now rewrite Z in Er).
    replace (existsb isCandidateSeparator r) with false.
    + constructor; [|constructor]. now apply One.
    + symmetry. pose proof (formatPhoneNumber_alphabet (filter isPhoneChar t)) as A.
      fold r in A. clear - A. induction r as [|c r IH]; [reflexivity|].
      cbn [forallb existsb] in *. apply andb_true_iff in A as [Hc Hr].
      now rewrite (digitOrHyphen_not_candidate_separator c Hc), (IH Hr).
Qed.

(** ** The prompts *)

(** X28: whatever the model, the prompt for the payee-name field asks for
    the two lines '会社名: ...' and '電話番号: ...' that the multi-field parser
    looks for; the prompts for the phone-number and payee-name fields do not
    depend on the language or the mode; and the branches for
    gemini-2.0-flash-light and gemini-1.5-flash give the same prompts. *)
Theorem prompt_contract (model : jsstring)
    (language mode language' mode' fieldType : option jsstring) :
  includes Prompt.FORMAT_LINES
    (Prompt.getPromptForModel model language mode (Some (js "payee-name")))
    = true /\
  includes COMPANY_LABEL
    (Prompt.getPromptForModel model language mode (Some (js "payee-name")))
    = true /\
  includes PHONE_LABEL
    (Prompt.getPromptForModel model language mode (Some (js "payee-name")))
    = true /\
  Prompt.getPromptForModel model language mode (Some (js "payee-name"))
    = Prompt.getPromptForModel model language' mode' (Some (js "payee-name")) /\
  Prompt.getPromptForModel model language mode (Some (js "phone-number"))
    = Prompt.getPromptForModel model language' mode' (Some (js "phone-number")) /\
  Prompt.getPromptForModel (js "gemini-2.0-flash-light") language mode fieldType
    = Prompt.getPromptForModel (js "gemini-1.5-flash") language mode fieldType.
Proof.
  unfold Prompt.getPromptForModel. cbv zeta.
  change (Prompt.isField (Some (js "payee-name")) (js "phone-number")) with false.
  change (Prompt.isField (Some (js "payee-name")) (js "payee-name")) with true.
  change (Prompt.isField (Some (js "phone-number")) (js "phone-number")) with true.
  change (streqb (js "gemini-2.0-flash-light") (js "gemini-2.5-flash")) with false.
  change (streqb (js "gemini-2.0-flash-light") (js "gemini-2.0-flash-light")) with true.
  change (streqb (js "gemini-1.5-flash") (js "gemini-2.5-flash")) with false.
  change (streqb (js "gemini-1.5-flash") (js "gemini-2.0-flash-light")) with false.
  change (streqb (js "gemini-1.5-flash") (js "gemini-1.5-flash")) with true.
  cbv iota.
  repeat split;
    try (destruct (streqb model (js "gemini-2.5-flash"));
         [vm_compute; reflexivity|];
         destruct (streqb model (js "gemini-2.0-flash-light"));
         [vm_compute; reflexivity|];
         destruct (streqb model (js "gemini-1.5-flash"));
         [vm_compute; reflexivity|];
         destruct (streqb model (js "gemini-2.0-flash"));
         vm_compute; reflexivity).
Qed.

(** ** Pixel and size helpers *)

(** X29: [clamp] maps every finite value into 0..255, keeps the integers of
    that range, and is monotone. *)
Theorem clamp_range (value value' : Q) (n : Z) :
  (0 <= clamp value <= 255)%Z /\
  ((0 <= n <= 255)%Z -> clamp (inject_Z n) = n) /\
  ((value <= value')%Q -> (clamp value <= clamp value')%Z).
Proof.
  unfold clamp. split; [lia|]. split.
  - intros Hn.
    assert (F : Qfloor (inject_Z n + (1 # 2)) = n).
    { unfold Qfloor, inject_Z, Qplus. cbn [Qnum Qden].
      replace (n * 2 + 1 * 1)%Z with (1 + n * 2)%Z by lia.
      change (Z.pos (1 * 2)) with 2%Z. rewrite Z.div_add by lia.
      reflexivity. }
    rewrite F. lia.
  - intros H.
    assert (M : (Qfloor (value + (1 # 2)) <= Qfloor (value' + (1 # 2)))%Z).
    { apply Qfloor_resp_le. now apply Qplus_le_l. }
    lia.
Qed.

Lemma clamp_range_witness :
  (0 <= 200 <= 255)%Z /\ clamp (inject_Z 200) = 200%Z.
Proof.
  split; [lia|]. apply (proj1 (proj2 (clamp_range 0 0 200))). lia.
Defined.

(** X30: the size that [getDataSize] reports is the size the guard
    [checkImageSize] checks: whenever the guard accepts a data URL, it
    returns what [getDataSize] gives for it; and a data URL that
    [getDataSize] puts above 15 is refused by the guard. *)
Theorem getDataSize_agrees (dataUrl : jsstring) :
  (forall sizeInMB, checkImageSize dataUrl = Ok sizeInMB ->
                    getDataSize dataUrl = sizeInMB) /\
  ((15 # 1 < getDataSize dataUrl)%Q ->
   checkImageSize dataUrl = Throw (Oversize (getDataSize dataUrl))).
Proof.
  unfold getDataSize, checkImageSize. destruct dataUrl as [|c r].
  - cbn [isEmpty]. split; [discriminate|]. intros H. discriminate H.
  - cbn [isEmpty].
    destruct (Qle_bool (estimateMB (c :: r)) MAX_SIZE_MB) eqn:B; cbn [negb].
    + split; [now intros s [= <-]|]. intros H. apply Qle_bool_iff in B.
      exfalso. apply (Qlt_not_le _ _ H B).
    + split; [discriminate | reflexivity].
Qed.

Lemma getDataSize_agrees_witness :
  getDataSize (js "data:image/png;base64,AAAA")
  = estimateMB (js "data:image/png;base64,AAAA").
Proof.
  apply (proj1 (getDataSize_agrees (js "data:image/png;base64,AAAA"))).
  vm_compute. reflexivity.
Defined.

Lemma processImageForOCR_outcome_witness :
  match Pipeline.processImageForOCR (fun s _ => Str s) blankBackend
          (sampleImage []) phoneOptions with
  | Ok ocrResult =>
      trim (Pipeline.text ocrResult) <> [] /\
      exists image extractOptions,
        blankBackend image extractOptions = Ok ocrResult
  | Throw error =>
      (exists image extractOptions,
         blankBackend image extractOptions = Throw error) \/
      (Readable.code error = Some (js "EMPTY_RESULT") /\
       (exists image extractOptions ocrResult,
          blankBackend image extractOptions = Ok ocrResult /\
          trim (Pipeline.text ocrResult) = []) /\
       In (Readable.message error)
          [Pipeline.NO_PHONE; Pipeline.NO_PAYEE; Pipeline.NO_TEXT] /\
       (Readable.message error = Pipeline.NO_PHONE
        <-> Pipeline.fieldType phoneOptions = Some (js "phone-number")) /\
       (Readable.message error = Pipeline.NO_PAYEE
        <-> Pipeline.fieldType phoneOptions = Some (js "payee-name")))
  end.
Proof.
  exact (processImageForOCR_outcome (fun s _ => Str s) blankBackend
           (sampleImage []) phoneOptions).
Defined.

Lemma postProcess_conversions_complete_witness :
  In (cu "A") (postProcessOcrResult nfcKana (js "Ａ社") Clipboard) /\
  isFullwidthAlnum (cu "A") = false.
Proof.
  assert (H : In (cu "A") (postProcessOcrResult nfcKana (js "Ａ社") Clipboard))
    by (vm_compute; now left).
  split; [exact H|].
  exact (proj1 (proj2 (postProcess_conversions_complete nfcKana (js "Ａ社")
                         Clipboard) (cu "A") H)).
Defined.
